(** * find_highest_entropy.py: camera optimisation by silhouette entropy

    A shallow embedding of [src/find_highest_entropy.py] and the properties
    of its loss functions, model wrapper, training loop and GIF assembler.

    Numbers.  The script computes on float32 tensors.  They are embedded as
    [xreal]: a real number, one of the two infinities, or NaN, with the
    IEEE-754 rules for the special values and exact (unrounded) arithmetic
    on the finite ones.  Zero carries no sign; a nonzero finite value
    divided by zero is the infinity of the numerator's sign.

    Collaborators.  The renderer ([neural_renderer]), reverse-mode
    differentiation, and the image and mesh codecs are not part of the
    script; they are the fields of the class [Collab], and every theorem
    holds for all of its instances.  The optimizer is [torch.optim.Adam],
    embedded from its documented update rule.

    Effects.  The files are a finite map from paths to contents, threaded
    through the functions that read or write them; a call that raises
    returns [None].  What the script prints, and the progress bar, are
    left out. *)

From Stdlib Require Import Reals Lra Ascii String.
From stdpp Require Import gmap strings list fin_maps sorting.

Local Open Scope R_scope.

(** ** Float values with exact arithmetic *)

Inductive xreal : Type :=
  | Fin (r : R)
  | PInf
  | NInf
  | NaN.

#[global] Instance Rlt_decision : RelDecision Rlt := Rlt_dec.
#[global] Instance Req_decision : EqDecision R := Req_dec_T.

#[global] Instance xreal_eq_dec : EqDecision xreal.
Proof. solve_decision. Defined.

Definition xneg (x : xreal) : xreal :=
  match x with
  | Fin a => Fin (- a)
  | PInf => NInf
  | NInf => PInf
  | NaN => NaN
  end.

Definition xadd (x y : xreal) : xreal :=
  match x, y with
  | NaN, _ | _, NaN => NaN
  | Fin a, Fin b => Fin (a + b)
  | PInf, NInf | NInf, PInf => NaN
  | PInf, _ | _, PInf => PInf
  | NInf, _ | _, NInf => NInf
  end.

Definition xsub (x y : xreal) : xreal := xadd x (xneg y).

(** The infinity [s * inf] for a finite factor [a]: NaN at zero. *)
Definition scale_inf (a : R) (pos : bool) : xreal :=
  if decide (a = 0) then NaN
  else if decide (0 < a) then (if pos then PInf else NInf)
  else (if pos then NInf else PInf).

Definition xmul (x y : xreal) : xreal :=
  match x, y with
  | NaN, _ | _, NaN => NaN
  | Fin a, Fin b => Fin (a * b)
  | Fin a, PInf | PInf, Fin a => scale_inf a true
  | Fin a, NInf | NInf, Fin a => scale_inf a false
  | PInf, PInf | NInf, NInf => PInf
  | PInf, NInf | NInf, PInf => NInf
  end.

Definition xdiv (x y : xreal) : xreal :=
  match x, y with
  | NaN, _ | _, NaN => NaN
  | Fin a, Fin b => if decide (b = 0) then scale_inf a true else Fin (a / b)
  | Fin _, PInf | Fin _, NInf => Fin 0
  | PInf, Fin b => if decide (b < 0) then NInf else PInf
  | NInf, Fin b => if decide (b < 0) then PInf else NInf
  | PInf, PInf | PInf, NInf | NInf, PInf | NInf, NInf => NaN
  end.

(** [x < y] and [x > y] as the comparison operators compute them: false as
    soon as one side is NaN. *)
Definition xltb (x y : xreal) : bool :=
  match x, y with
  | NaN, _ | _, NaN => false
  | Fin a, Fin b => bool_decide (a < b)
  | NInf, NInf | PInf, _ => false
  | NInf, _ | Fin _, PInf => true
  | Fin _, NInf => false
  end.

Definition xgtb (x y : xreal) : bool := xltb y x.

(** [==] on floats: NaN differs from everything, itself included. *)
Definition xeqb (x y : xreal) : bool :=
  match x, y with
  | NaN, _ | _, NaN => false
  | _, _ => bool_decide (x = y)
  end.

(** Natural logarithm: [log 0 = -inf], NaN below zero. *)
Definition xlog (x : xreal) : xreal :=
  match x with
  | NaN | NInf => NaN
  | PInf => PInf
  | Fin a =>
      if decide (a = 0) then NInf
      else if decide (0 < a) then Fin (ln a) else NaN
  end.

Definition xlog2 (x : xreal) : xreal := xdiv (xlog x) (Fin (ln 2)).

Definition xsqrt (x : xreal) : xreal :=
  match x with
  | NaN | NInf => NaN
  | PInf => PInf
  | Fin a => if decide (a < 0) then NaN else Fin (sqrt a)
  end.

Definition is_finite (x : xreal) : Prop :=
  match x with Fin _ => True | _ => False end.

Definition is_nan (x : xreal) : Prop := x = NaN.

(** The order on float values that the claims about "decreasing" use. *)
Definition xlt (x y : xreal) : Prop := xltb x y = true.

(** ** Tensors and arrays: a shape and the elements in row-major order *)

Record ndarray (A : Type) : Type := NdArray {
  shape : list nat;
  data : list A;
}.
Arguments NdArray {A} shape data.
Arguments shape {A} _.
Arguments data {A} _.

#[global] Instance ndarray_eq_dec {A} `{EqDecision A} : EqDecision (ndarray A).
Proof. solve_decision. Defined.

Abbreviation tensor := (ndarray xreal) (only parsing).

Definition numel (sh : list nat) : nat := foldr Nat.mul 1%nat sh.

Definition well_shaped {A} (t : ndarray A) : Prop :=
  length (data t) = numel (shape t).

(** Elementwise application: [f(t)]. *)
Definition amap {A B} (f : A → B) (t : ndarray A) : ndarray B :=
  NdArray (shape t) (f <$> data t).

(** Sum of a run of elements.  The order of accumulation is immaterial in
    exact arithmetic. *)
Definition xsum (l : list xreal) : xreal := foldr xadd (Fin 0) l.

(** [t.mean()]: the sum of all elements over their number. *)
Definition xmean (l : list xreal) : xreal :=
  xdiv (xsum l) (Fin (INR (length l))).

Definition tmean (t : tensor) : xreal := xmean (data t).

(** [t.sum(dim=dim, keepdim=keepdim)].  A negative [dim] counts from the
    last axis; a [dim] outside [-ndim, ndim) raises.  With
    [outer], [n], [inner] the sizes before, at and after the axis, the
    element at [(o, i)] of the result adds the [n] elements at
    [(o, k, i)]. *)
Definition sum_dim (t : tensor) (dim : Z) (keepdim : bool) : option tensor :=
  let nd := Z.of_nat (length (shape t)) in
  if decide (- nd ≤ dim < nd)%Z then
    let d := Z.to_nat (dim `mod` nd) in
    let outer := numel (take d (shape t)) in
    let n := default 0%nat (shape t !! d) in
    let inner := numel (drop (S d) (shape t)) in
    Some (NdArray
            (take d (shape t) ++ (if keepdim then [1%nat] else []) ++ drop (S d) (shape t))
            (o ← seq 0 outer;
             i ← seq 0 inner;
             [xsum ((λ k, default (Fin 0) (data t !! ((o * n + k) * inner + i)%nat))
                      <$> seq 0 n)]))
  else None.

(** The shape of a tensor broadcast against a tensor of shape [1]. *)
Definition broadcast_shape (sh : list nat) : list nat :=
  match sh with
  | [] => [1%nat]
  | _ => sh
  end.

(** [torch.where(cond, a, z)] with [z] a one-element tensor, broadcast over
    [a]. *)
Definition where_scalar (cond : ndarray bool) (a : tensor) (z : xreal) : tensor :=
  NdArray (broadcast_shape (shape a))
          (zip_with (λ (c : bool) x, if c then x else z) (data cond) (data a)).

(** ** The entropy functions of the script *)

(** [torch.special.entr], elementwise: [-x * ln x] above zero, [0] at zero,
    [-inf] below, NaN at NaN. *)
Definition entr (x : xreal) : xreal :=
  match x with
  | NaN => NaN
  | _ =>
      if xgtb x (Fin 0) then xmul (xneg x) (xlog x)
      else if xeqb x (Fin 0) then Fin 0
      else NInf
  end.

(** [torch.unique(flat, dim=0, return_counts=True)], the counts: one per
    distinct value, in ascending order of the values.  This is what the
    library returns on input without NaN.  It sorts with [<] and merges
    neighbours, so with NaN in the input its counts depend on where the
    NaN are; here NaN equals nothing, every NaN is counted once, after the
    others, and the properties that use the counts of single values are
    stated for input without NaN. *)
Definition xle_total (x y : xreal) : Prop :=
  match x, y with
  | _, NaN => True
  | NaN, _ => False
  | NInf, _ => True
  | _, NInf => False
  | _, PInf => True
  | PInf, _ => False
  | Fin a, Fin b => a <= b
  end.

#[global] Instance xle_total_dec : RelDecision xle_total.
Proof.
  intros x y; destruct x, y; simpl; apply _.
Defined.

Definition count_value (v : xreal) (l : list xreal) : nat :=
  length (filter (λ y, y = v) l).

Definition unique_counts (l : list xreal) : list nat :=
  let nums := filter (λ x, x ≠ NaN) l in
  ((λ v, count_value v nums) <$> merge_sort xle_total (remove_dups nums))
    ++ replicate (count_value NaN l) 1%nat.

(** [entropy_loss(residual)]: the histogram entropy of each sample of the
    batch, averaged over the batch.  [residual.shape[3]] raises on a tensor
    of fewer than four axes. *)
Definition entropy_loss (residual : tensor) : option xreal :=
  match shape residual with
  | b :: c :: w :: h :: rest =>
      let image_size := Fin (INR (c * w * h)) in
      let stride := (c * w * h * numel rest)%nat in
      let entropy_of (i : nat) : xreal :=
        let flat := take stride (drop (i * stride) (data residual)) in
        let counts := unique_counts flat in
        let p := (λ n : nat, xdiv (Fin (INR n)) image_size) <$> counts in
        xmul (xsum ((λ x, xmul x (xlog2 x)) <$> p)) (Fin (-1)) in
      Some (xmean (entropy_of <$> seq 0 b))
  | _ => None
  end.

(** [other_entropy(input_tensor)] is embedded further down, with the softmax
    it is built on. *)

(** [entropy(p, dim, keepdim)]:
    [-torch.where(p > 0, p * p.log(), p.new([0.0])).sum(dim, keepdim)].
    Both branches of [where] are computed on the whole tensor, the
    condition selects among them.  Here [keepdim] is a boolean, as [sum]
    takes it; [entropy_call] below is the function with [keepdim] as the
    script hands it over, its default [None] included. *)
Definition entropy (p : tensor) (dim : Z) (keepdim : bool) : option tensor :=
  let cond := amap (λ x, xgtb x (Fin 0)) p in
  let plogp := amap (λ x, xmul x (xlog x)) p in
  amap xneg <$> sum_dim (where_scalar cond plogp (Fin 0)) dim keepdim.

(** [entropy(p, dim, keepdim)] with [keepdim] as Python hands it over: a
    boolean, or [None], the default of the script.  [sum] takes a boolean
    there and raises on [None], after [where] has been computed. *)
Definition entropy_call (p : tensor) (dim : Z) (keepdim : option bool) : option tensor :=
  k ← keepdim; entropy p dim k.

(** The loss of [Model.forward] from the rendered silhouette:
    [entropy = entr(image).mean() * 10.0; loss = 1.0 / entropy]. *)
Definition silhouette_loss (image : tensor) : xreal :=
  let entropy := xmul (tmean (amap entr image)) (Fin 10) in
  xdiv (Fin 1) entropy.

(** ** Files and collaborators *)

(** A file is its bytes; the file system maps a path to the file there. *)
Abbreviation file := string (only parsing).
Abbreviation filesystem := (gmap string string) (only parsing).

Abbreviation image_array := (ndarray Z) (only parsing).

(** What the script calls and does not define. *)
Class Collab : Type := {
  (** [nr.load_obj]: the vertices and the faces of a mesh file. *)
  load_obj : file → option (tensor * ndarray Z);
  (** The renderer called with [mode='silhouettes']: camera mode, eye,
      vertices, faces. *)
  render_silhouettes : string → tensor → tensor → ndarray Z → tensor;
  (** The renderer called without a mode, and [renderer.render]: the
      images of the result. *)
  render_images : string → tensor → tensor → ndarray Z → tensor → tensor;
  get_points_from_angles : xreal → xreal → xreal → tensor;
  (** [loss.backward()]: the gradient of the loss of [forward] with respect
      to the eye, at this camera mode, eye, vertices and faces. *)
  loss_gradient : string → tensor → tensor → ndarray Z → tensor;
  (** [skimage.io.imread] and [imsave] on the bytes of a file. *)
  imread_decode : file → option image_array;
  imsave_encode : tensor → file;
  (** [images.detach().cpu().numpy()[0]], before and after
      [transpose(1, 2, 0)]. *)
  first_image : tensor → tensor;
  first_image_hwc : tensor → tensor;
  (** What an [imageio] writer in mode ['I'] has written after these
      frames. *)
  gif_encode : list image_array → file;
}.

(** ** The reference mask *)

Definition list_max (l : list Z) : option Z :=
  match l with
  | [] => None
  | x :: l' => Some (foldr Z.max x l')
  end.

(** [a.max(-1)]: the maximum along the last axis.  It raises on an array
    without axes and on a last axis of size zero. *)
Definition max_last (a : image_array) : option image_array :=
  match reverse (shape a) with
  | [] => None
  | c :: rinit =>
      let init := reverse rinit in
      NdArray init <$>
        mapM (λ o, list_max (take c (drop (o * c) (data a)))) (seq 0 (numel init))
  end.

(** [(a != 0).astype(np.float32)] *)
Definition nonzero_mask (a : image_array) : tensor :=
  amap (λ b : bool, if b then Fin 1 else Fin 0) (amap (λ z, bool_decide (z ≠ 0%Z)) a).

(** [torch.from_numpy((imread(filename_ref).max(-1) != 0).astype(np.float32))];
    [imread(None)] raises. *)
Definition load_reference `{Collab} (fs : filesystem) (filename_ref : option string)
    : option tensor :=
  name ← filename_ref;
  content ← fs !! name;
  img ← imread_decode content;
  nonzero_mask <$> max_last img.

(** ** The model *)

Inductive device : Type := CPU | CUDA.

Inductive tvalue : Type :=
  | FloatTensor (t : tensor)
  | IntTensor (t : ndarray Z).

(** [renderer.eye] is either the parameter object registered under a name
    (the same object the optimizer updates in place), or a tensor of its
    own. *)
Inductive eye_binding : Type :=
  | EyeParameter (name : string)
  | EyeValue (t : tensor).

Record Renderer : Type := {
  camera_mode : string;
  eye : eye_binding;
}.

(** An [nn.Module]: the registry of buffers, the registry of parameters,
    and the renderer. *)
Record Model : Type := {
  buffers : gmap string tvalue;
  parameters : gmap string tensor;
  renderer : Renderer;
  placed_on : device;
}.

(** [t[None, :, :]]: a leading axis of size one; two slices need two axes. *)
Definition index_none_2 {A} (t : ndarray A) : option (ndarray A) :=
  if decide (2 ≤ length (shape t))%nat then Some (NdArray (1%nat :: shape t) (data t))
  else None.

Definition ones (sh : list nat) : tensor := NdArray sh (replicate (numel sh) (Fin 1)).

Definition initial_camera_position : tensor :=
  NdArray [3%nat] [Fin 6; Fin 10; Fin (-14)].

(** [Model.__init__(filename_obj, filename_ref=None)] *)
Definition Model_init `{Collab} (fs : filesystem) (filename_obj : string)
    (filename_ref : option string) : option Model :=
  content ← fs !! filename_obj;
  '(vertices, faces) ← load_obj content;
  vertices1 ← index_none_2 vertices;
  faces1 ← index_none_2 faces;
  let b1 := <["vertices" := FloatTensor vertices1]> (∅ : gmap string tvalue) in
  let b2 := <["faces" := IntTensor faces1]> b1 in
  let texture_size := 2%nat in
  nfaces ← shape faces1 !! 1%nat;
  let textures := ones [1%nat; nfaces; texture_size; texture_size; texture_size; 3%nat] in
  let b3 := <["textures" := FloatTensor textures]> b2 in
  image_ref ← load_reference fs filename_ref;
  let b4 := <["image_ref" := FloatTensor image_ref]> b3 in
  Some {| buffers := b4;
          parameters := {[ "camera_position" := initial_camera_position ]};
          renderer := {| camera_mode := "look_at"; eye := EyeParameter "camera_position" |};
          placed_on := CPU |}.

(** [model.cuda()]: the same values, on the current accelerator device. *)
Definition cuda (m : Model) : Model :=
  {| buffers := buffers m; parameters := parameters m; renderer := renderer m;
     placed_on := CUDA |}.

Definition float_buffer (m : Model) (name : string) : option tensor :=
  match buffers m !! name with
  | Some (FloatTensor t) => Some t
  | _ => None
  end.

Definition int_buffer (m : Model) (name : string) : option (ndarray Z) :=
  match buffers m !! name with
  | Some (IntTensor t) => Some t
  | _ => None
  end.

Definition renderer_eye (m : Model) : option tensor :=
  match eye (renderer m) with
  | EyeParameter name => parameters m !! name
  | EyeValue t => Some t
  end.

(** [self.renderer(self.vertices, self.faces, mode='silhouettes')] *)
Definition rendered_silhouette `{Collab} (m : Model) : option tensor :=
  vertices ← float_buffer m "vertices";
  faces ← int_buffer m "faces";
  e ← renderer_eye m;
  Some (render_silhouettes (camera_mode (renderer m)) e vertices faces).

(** [Model.forward()] *)
Definition forward `{Collab} (m : Model) : option xreal :=
  image ← rendered_silhouette m;
  Some (silhouette_loss image).

Definition xtanh (x : xreal) : xreal :=
  match x with
  | Fin a => Fin (tanh a)
  | PInf => Fin 1
  | NInf => Fin (-1)
  | NaN => NaN
  end.

(** [model.renderer(model.vertices, model.faces, torch.tanh(model.textures))] *)
Definition rendered_images `{Collab} (m : Model) : option tensor :=
  vertices ← float_buffer m "vertices";
  faces ← int_buffer m "faces";
  textures ← float_buffer m "textures";
  e ← renderer_eye m;
  Some (render_images (camera_mode (renderer m)) e vertices faces (amap xtanh textures)).

(** ** The optimizer *)

(** [torch.optim.Adam] with its defaults ([betas = (0.9, 0.999)],
    [eps = 1e-8], no weight decay, no amsgrad), as its documentation gives
    the update; the state of a parameter is created at its first step. *)
Record adam_state : Type := {
  adam_step : nat;
  exp_avg : tensor;
  exp_avg_sq : tensor;
}.

Record Optimizer : Type := {
  lr : R;
  beta1 : R;
  beta2 : R;
  adam_eps : R;
  param_names : list string;
  opt_state : gmap string adam_state;
}.

Definition Adam (params : list string) (learning_rate : R) : Optimizer :=
  {| lr := learning_rate; beta1 := 9 / 10; beta2 := 999 / 1000; adam_eps := / 10 ^ 8;
     param_names := params; opt_state := ∅ |}.

Definition tzip (f : xreal → xreal → xreal) (a b : tensor) : tensor :=
  NdArray (shape a) (zip_with f (data a) (data b)).

Definition zeros_like (t : tensor) : tensor :=
  NdArray (shape t) (replicate (length (data t)) (Fin 0)).

Definition adam_fresh (p : tensor) : adam_state :=
  {| adam_step := 0; exp_avg := zeros_like p; exp_avg_sq := zeros_like p |}.

(** One Adam update of the parameter [p] with gradient [g]. *)
Definition adam_update (o : Optimizer) (s : adam_state) (p g : tensor)
    : adam_state * tensor :=
  let t := S (adam_step s) in
  let m := tzip (λ m gi, xadd (xmul (Fin (beta1 o)) m) (xmul (Fin (1 - beta1 o)) gi))
                (exp_avg s) g in
  let v := tzip (λ v gi, xadd (xmul (Fin (beta2 o)) v) (xmul (Fin (1 - beta2 o)) (xmul gi gi)))
                (exp_avg_sq s) g in
  let m_hat := amap (λ mi, xdiv mi (Fin (1 - beta1 o ^ t))) m in
  let v_hat := amap (λ vi, xdiv vi (Fin (1 - beta2 o ^ t))) v in
  let delta := tzip (λ mi vi, xmul (Fin (lr o)) (xdiv mi (xadd (xsqrt vi) (Fin (adam_eps o)))))
                    m_hat v_hat in
  ({| adam_step := t; exp_avg := m; exp_avg_sq := v |}, tzip xsub p delta).

Definition set_parameter (m : Model) (name : string) (p : tensor) : Model :=
  {| buffers := buffers m; parameters := <[name := p]> (parameters m);
     renderer := renderer m; placed_on := placed_on m |}.

Definition set_opt_state (o : Optimizer) (name : string) (s : adam_state) : Optimizer :=
  {| lr := lr o; beta1 := beta1 o; beta2 := beta2 o; adam_eps := adam_eps o;
     param_names := param_names o; opt_state := <[name := s]> (opt_state o) |}.

(** The update of one parameter of the optimizer; a parameter without a
    gradient is skipped. *)
Definition step_parameter (grads : gmap string tensor) (acc : Optimizer * Model)
    (name : string) : Optimizer * Model :=
  let '(o, m) := acc in
  match parameters m !! name, grads !! name with
  | Some p, Some g =>
      let s := default (adam_fresh p) (opt_state o !! name) in
      let '(s', p') := adam_update o s p g in
      (set_opt_state o name s', set_parameter m name p')
  | _, _ => (o, m)
  end.

(** [optimizer.step()] *)
Definition optimizer_step (o : Optimizer) (grads : gmap string tensor) (m : Model)
    : Optimizer * Model :=
  foldl (step_parameter grads) (o, m) (param_names o).

(** [model.parameters()], by name. *)
Definition parameter_names (m : Model) : list string :=
  (map_to_list (parameters m)).*1.

(** [loss.backward()], after [optimizer.zero_grad()]: the gradient of each
    parameter the loss depends on.  The loss depends on the camera position
    through the eye of the renderer; with an eye that is no parameter,
    nothing requires a gradient and [backward] raises. *)
Definition backward `{Collab} (m : Model) : option (gmap string tensor) :=
  match eye (renderer m) with
  | EyeParameter name =>
      vertices ← float_buffer m "vertices";
      faces ← int_buffer m "faces";
      e ← parameters m !! name;
      Some {[ name := loss_gradient (camera_mode (renderer m)) e vertices faces ]}
  | EyeValue _ => None
  end.

(** ** The training loop *)

Definition digit_char (d : nat) : ascii := ascii_of_nat (48 + d).

Fixpoint decimal_aux (fuel n : nat) (acc : string) : string :=
  match fuel with
  | O => acc
  | S fuel' =>
      let acc' := String (digit_char (n `mod` 10)) acc in
      if (n `div` 10 =? 0)%nat then acc' else decimal_aux fuel' (n `div` 10) acc'
  end.

Definition decimal (n : nat) : string := decimal_aux (S n) n "".

Definition zero_pad (width : nat) (s : string) : string :=
  string_of_list_ascii (replicate (width - String.length s) "0"%char) +:+ s.

(** ['/tmp/_tmp_%04d.png' % i] *)
Definition tmp_name (i : nat) : string :=
  "/tmp/_tmp_" +:+ zero_pad 4 (decimal i) +:+ ".png".

Record TrainState : Type := {
  model : Model;
  optimizer : Optimizer;
  files : filesystem;
}.

(** The body of the loop up to the test of the loss: zero the gradients
    (so [backward] starts from none), forward, backward, optimizer step,
    render and save the frame. *)
Definition training_step `{Collab} (i : nat) (st : TrainState)
    : option (TrainState * xreal) :=
  loss ← forward (model st);
  grads ← backward (model st);
  let '(o', m') := optimizer_step (optimizer st) grads (model st) in
  images ← rendered_images m';
  let image := first_image_hwc images in
  let fs' := <[tmp_name i := imsave_encode image]> (files st) in
  Some ({| model := m'; optimizer := o'; files := fs' |}, loss).

Definition loss_threshold : xreal := Fin 70.
Definition iteration_bound : nat := 1000.

(** [for i in range: ...; if loss.item() < 70: break].  The result is the
    completed iterations, each with its loss, and the state the loop ends
    in, or [None] when an iteration raised. *)
Fixpoint train_loop `{Collab} (range : list nat) (st : TrainState)
    : list (nat * xreal) * option TrainState :=
  match range with
  | [] => ([], Some st)
  | i :: rest =>
      match training_step i st with
      | None => ([], None)
      | Some (st', loss) =>
          if xltb loss loss_threshold then ([(i, loss)], Some st')
          else
            let '(tr, r) := train_loop rest st' in
            ((i, loss) :: tr, r)
      end
  end.

(** ** The GIF assembler *)

Definition no_slash (s : string) : bool :=
  forallb (λ c, negb (Ascii.eqb c "/"%char)) (list_ascii_of_string s).

Definition has_suffix (suf s : string) : bool :=
  String.prefix (String.rev suf) (String.rev s).

Definition strip_prefix (pre s : string) : option string :=
  if String.prefix pre s
  then Some (String.substring (String.length pre) (String.length s - String.length pre) s)
  else None.

(** A path that [glob.glob('/tmp/_tmp_*.png')] returns: an entry of [/tmp]
    whose name starts with [_tmp_] and ends with [.png]. *)
Definition frame_path (path : string) : bool :=
  match strip_prefix "/tmp/" path with
  | Some base =>
      no_slash base && String.prefix "_tmp_" base && has_suffix ".png" base
      && (9 <=? String.length base)%nat
  | None => false
  end.

Definition glob_frames (fs : filesystem) : list string :=
  filter (λ p, frame_path p = true) (elements (dom fs)).

(** [sorted(...)] on strings: ascending in the lexicographic order. *)
Definition sorted (l : list string) : list string := merge_sort String.le l.

(** The body of the loop of [make_gif] for one frame file: append the
    decoded frame to the writer of [out], then remove the file. *)
Definition gif_step `{Collab} (out : string) (acc : list image_array * filesystem)
    (name : string) : option (list image_array * filesystem) :=
  let '(frames, fs) := acc in
  content ← fs !! name;
  img ← imread_decode content;
  let frames' := frames ++ [img] in
  Some (frames', delete name (<[out := gif_encode frames']> fs)).

Fixpoint gif_loop `{Collab} (out : string) (acc : list image_array * filesystem)
    (names : list string) : option (list image_array * filesystem) :=
  match names with
  | [] => Some acc
  | name :: rest =>
      acc' ← gif_step out acc name;
      gif_loop out acc' rest
  end.

(** [make_gif(filename)]: the writer creates the output file when it is
    opened, before the frame files are listed.  The result is the frames
    written and the files left; closing the writer a second time changes
    neither. *)
Definition make_gif `{Collab} (filename : string) (fs : filesystem)
    : option (list image_array * filesystem) :=
  let fs0 := <[filename := gif_encode []]> fs in
  gif_loop filename ([], fs0) (sorted (glob_frames fs0)).

(** ** The entry point *)

Definition set_eye (m : Model) (e : eye_binding) : Model :=
  {| buffers := buffers m; parameters := parameters m;
     renderer := {| camera_mode := camera_mode (renderer m); eye := e |};
     placed_on := placed_on m |}.

(** [make_reference_image(filename_ref, filename_obj)] *)
Definition make_reference_image `{Collab} (fs : filesystem)
    (filename_ref filename_obj : string) : option filesystem :=
  m ← Model_init fs filename_obj None;
  let m := cuda m in
  let m := set_eye m (EyeValue (get_points_from_angles (Fin (2732 / 1000)) (Fin 30) (Fin (-15)))) in
  images ← rendered_images m;
  let image := first_image images in
  Some (<[filename_ref := imsave_encode image]> fs).

Record Args : Type := {
  filename_obj : string;
  filename_ref : string;
  filename_output : string;
  make_reference_image_flag : Z;
  gpu : Z;
}.

Record Run : Type := {
  run_model : Model;
  run_trace : list (nat * xreal);
  run_frames : list image_array;
  run_files : filesystem;
}.

(** [main()], from the parsed arguments and the files present. *)
Definition main `{Collab} (args : Args) (fs : filesystem) : option Run :=
  fs1 ← (if decide (make_reference_image_flag args ≠ 0%Z)
         then make_reference_image fs (filename_ref args) (filename_obj args)
         else Some fs);
  m ← Model_init fs1 (filename_obj args) (Some (filename_ref args));
  let m := cuda m in
  let opt := Adam (parameter_names m) (1 / 10) in
  let '(tr, r) := train_loop (seq 0 iteration_bound)
                    {| model := m; optimizer := opt; files := fs1 |} in
  st ← r;
  '(frames, fs2) ← make_gif (filename_output args) (files st);
  Some {| run_model := model st; run_trace := tr; run_frames := frames; run_files := fs2 |}.

(** ** Notions the properties are stated with *)

(** The entropy of one pixel value and the entropy scalar of an image with
    the pixel values [ps]: the mean of [p * ln (1 / p)]. *)
Definition pixel_entropy (p : R) : R := p * ln (1 / p).

Definition Rsum (l : list R) : R := foldr Rplus 0 l.

Definition entropy_scalar (ps : list R) : R :=
  Rsum (pixel_entropy <$> ps) / INR (length ps).

(** A rendered silhouette: at least one pixel, every pixel a finite value
    between 0 and 1. *)
Definition silhouette (image : tensor) (ps : list R) : Prop :=
  data image = Fin <$> ps ∧ ps ≠ [] ∧ Forall (λ p, 0 <= p <= 1) ps.

(** The pixel values [l] take exactly [k] distinct values, none of them
    NaN, each on the same number of pixels. *)
Definition evenly_split (k : nat) (l : list xreal) : Prop :=
  ∃ vs : list xreal,
    NoDup vs ∧ length vs = k ∧ (NaN ∉ vs) ∧ (∀ x, x ∈ l ↔ x ∈ vs) ∧
    ∀ v, v ∈ vs → (k * count_value v l = length l)%nat.

(** The histogram entropy of one sample, as the loop of [entropy_loss]
    computes it. *)
Definition sample_entropy (image_size : nat) (flat : list xreal) : xreal :=
  let p := (λ n : nat, xdiv (Fin (INR n)) (Fin (INR image_size))) <$> unique_counts flat in
  xmul (xsum ((λ x, xmul x (xlog2 x)) <$> p)) (Fin (-1)).

(** What [entropy] adds for one probability value. *)
Definition contribution (x : xreal) : xreal :=
  if xgtb x (Fin 0) then xmul x (xlog x) else Fin 0.

Definition finite_or_pinf (x : xreal) : Prop :=
  match x with
  | Fin _ | PInf => True
  | _ => False
  end.

(** The channel values of the pixel at row [i], column [j] of an image of
    [w] columns and [c] channels. *)
Definition channels (img : image_array) (w c i j : nat) : list Z :=
  take c (drop ((i * w + j) * c) (data img)).

Definition binary (x : xreal) : Prop := x = Fin 0 ∨ x = Fin 1.

(** What [Model.__init__] establishes and every iteration relies on. *)
Definition model_ready (m : Model) : Prop :=
  is_Some (float_buffer m "vertices") ∧ is_Some (int_buffer m "faces") ∧
  is_Some (float_buffer m "textures") ∧
  ∃ name, eye (renderer m) = EyeParameter name ∧ is_Some (parameters m !! name).

(** The iterations the loop started: those it completed, and the one that
    raised when the run was aborted. *)
Definition iterations_started {A} (res : list (nat * xreal) * option A) : nat :=
  (length res.1 + match res.2 with Some _ => 0 | None => 1 end)%nat.

(** The iterations [a], [a + 1], ..., [a + n - 1] of the body of the loop,
    performed one after the other with no test of the loss: their numbers
    and losses, and the state they leave; [None] when one of them
    raises. *)
Fixpoint iterations `{Collab} (a n : nat) (st : TrainState)
    : option (list (nat * xreal) * TrainState) :=
  match n with
  | O => Some ([], st)
  | S n' =>
      '(st1, loss) ← training_step a st;
      '(tr, st2) ← iterations (S a) n' st1;
      Some ((a, loss) :: tr, st2)
  end.

(** The constants [main] constructs the optimizer with. *)
Definition default_constants (o : Optimizer) : Prop :=
  lr o = 1 / 10 ∧ beta1 o = 9 / 10 ∧ beta2 o = 999 / 1000 ∧ adam_eps o = / 10 ^ 8.

(** One component of an Adam update: the two moment estimates, the
    displacement, the new value. *)
Definition adam_moment1 (o : Optimizer) (m g : xreal) : xreal :=
  xadd (xmul (Fin (beta1 o)) m) (xmul (Fin (1 - beta1 o)) g).

Definition adam_moment2 (o : Optimizer) (v g : xreal) : xreal :=
  xadd (xmul (Fin (beta2 o)) v) (xmul (Fin (1 - beta2 o)) (xmul g g)).

Definition adam_delta (o : Optimizer) (t : nat) (m v : xreal) : xreal :=
  xmul (Fin (lr o))
       (xdiv (xdiv m (Fin (1 - beta1 o ^ t)))
             (xadd (xsqrt (xdiv v (Fin (1 - beta2 o ^ t)))) (Fin (adam_eps o)))).

Definition adam_scalar (o : Optimizer) (t : nat) (m v p g : xreal) : xreal :=
  xsub p (adam_delta o t (adam_moment1 o m g) (adam_moment2 o v g)).

(** ** Sample collaborators and data *)

Definition ones3 : tensor := NdArray [3%nat] [Fin 1; Fin 1; Fin 1].

Definition minus3 : tensor :=
  NdArray [3%nat] [Fin (- (9 / 10)); Fin (- (9 / 10)); Fin (- (9 / 10))].

(** Collaborators that render the eye itself as the image, and whose loss
    has the gradient [ones3] at the initial camera position and [minus3]
    everywhere else. *)
Definition sample_collab : Collab := {|
  load_obj := λ _, Some (NdArray [1; 3]%nat [Fin 0; Fin 0; Fin 0],
                         NdArray [1; 3]%nat [0; 0; 0]%Z);
  render_silhouettes := λ _ e _ _, e;
  render_images := λ _ e _ _ _, e;
  get_points_from_angles := λ a b c, NdArray [3%nat] [a; b; c];
  loss_gradient := λ _ e _ _,
    if decide (e = initial_camera_position) then ones3 else minus3;
  imread_decode := λ f,
    Some (NdArray [1; 2; 2]%nat [Z.of_nat (String.length f); 0; 0; 0]%Z);
  imsave_encode := λ _, "png";
  first_image := λ t, t;
  first_image_hwc := λ t, t;
  gif_encode := λ frames, string_of_list_ascii (replicate (length frames) "f"%char);
|}.

Definition sample_files : filesystem :=
  {[ "teapot.obj" := "mesh"; "ref.png" := "image" ]}.

Definition empty_model : Model :=
  {| buffers := ∅; parameters := ∅;
     renderer := {| camera_mode := ""; eye := EyeParameter "" |};
     placed_on := CPU |}.

(** The model [main] trains, for the sample files. *)
Definition sample_model : Model :=
  cuda (default empty_model
          (@Model_init sample_collab sample_files "teapot.obj" (Some "ref.png"))).

Definition sample_start : TrainState :=
  {| model := sample_model;
     optimizer := Adam (parameter_names sample_model) (1 / 10);
     files := sample_files |}.

(** The sample model with another camera position. *)
Definition sample_model_at (camera : tensor) : Model :=
  set_parameter sample_model "camera_position" camera.

(** The sample model with another reference mask. *)
Definition sample_model_other_ref : Model :=
  {| buffers := <["image_ref" := FloatTensor (NdArray [1; 1]%nat [Fin 0])]>
                  (buffers sample_model);
     parameters := parameters sample_model;
     renderer := renderer sample_model;
     placed_on := placed_on sample_model |}.

(** The state and the loss after the first step of the sample run. *)
Definition sample_step1 : TrainState * xreal :=
  default (sample_start, NaN) (@training_step sample_collab 0 sample_start).

(** Two frame files of a run, and a file that is none. *)
Definition sample_frames : filesystem :=
  {[ "/tmp/_tmp_0001.png" := "bb"; "/tmp/_tmp_0000.png" := "a"; "/tmp/notes.txt" := "n" ]}.

(** The sample files and a frame file left by an earlier run. *)
Definition sample_files_stale : filesystem :=
  <["/tmp/_tmp_old.png" := "old"]> sample_files.

(** The sample collaborators with a decoder of grayscale images: two rows
    of two pixels, the first row black. *)
Definition gray_collab : Collab := {|
  load_obj := @load_obj sample_collab;
  render_silhouettes := @render_silhouettes sample_collab;
  render_images := @render_images sample_collab;
  get_points_from_angles := @get_points_from_angles sample_collab;
  loss_gradient := @loss_gradient sample_collab;
  imread_decode := λ _, Some (NdArray [2; 2]%nat [0; 0; 0; 7]%Z);
  imsave_encode := @imsave_encode sample_collab;
  first_image := @first_image sample_collab;
  first_image_hwc := @first_image_hwc sample_collab;
  gif_encode := @gif_encode sample_collab;
|}.

(** ** The entropy of a softmax *)

(** [torch.exp] *)
Definition xexp (x : xreal) : xreal :=
  match x with
  | Fin a => Fin (exp a)
  | PInf => PInf
  | NInf => Fin 0
  | NaN => NaN
  end.

(** The larger of two values; NaN when one of them is NaN. *)
Definition xmax (x y : xreal) : xreal :=
  match x, y with
  | NaN, _ | _, NaN => NaN
  | _, _ => if xltb x y then y else x
  end.

(** The axis [nn.LogSoftmax()] works along when it is built without
    [dim]: the first axis of a tensor of no, one or three axes, the second
    axis of any other. *)
Definition implicit_softmax_dim (ndim : nat) : nat :=
  if decide (ndim = 0 ∨ ndim = 1 ∨ ndim = 3)%nat then 0%nat else 1%nat.

(** [log_softmax] along the axis [d], in the shifted form the library
    computes: every element, less the maximum [m] of its run along the
    axis, less the logarithm of the sum of the exponentials of the run,
    each less [m]; on finite values this is [x - ln (sum (exp x))].  With
    [n] the size of the axis and [inner] the number of elements after it,
    the run of the element at [(o, k, i)] is the [n] elements at
    [(o, 0, i)], ..., [(o, n - 1, i)]; a tensor without axes is a run of
    one element. *)
Definition log_softmax (t : tensor) (d : nat) : tensor :=
  let n := default 1%nat (shape t !! d) in
  let inner := numel (drop (S d) (shape t)) in
  NdArray (shape t)
    (imap (λ j x,
             let o := (j `div` (n * inner))%nat in
             let i := (j `mod` inner)%nat in
             let run := (λ k, default (Fin 0) (data t !! ((o * n + k) * inner + i)%nat))
                          <$> seq 0 n in
             let m := foldr xmax NInf run in
             xsub (xsub x m) (xlog (xsum ((λ y, xexp (xsub y m)) <$> run))))
          (data t)).

(** [other_entropy(input_tensor)]: [nn.LogSoftmax()] is built without
    [dim]; the result is the negated mean over all elements of
    [log_probs * probs]. *)
Definition other_entropy (input_tensor : tensor) : xreal :=
  let log_probs :=
    log_softmax input_tensor (implicit_softmax_dim (length (shape input_tensor))) in
  let probs := amap xexp log_probs in
  let p_log_p := tzip xmul log_probs probs in
  xneg (tmean p_log_p).

(** * Properties *)

(** ** Finite values *)

Lemma xsum_fin (l : list R) : xsum (Fin <$> l) = Fin (Rsum l).
Proof.
  unfold xsum, Rsum. induction l as [|a l IH]; [done|].
  rewrite fmap_cons. cbn [foldr]. by rewrite IH.
Qed.

Lemma xdiv_fin (a b : R) : b ≠ 0 → xdiv (Fin a) (Fin b) = Fin (a / b).
Proof. intros Hb. simpl. by rewrite decide_False. Qed.

Lemma xsqrt_fin (a : R) : 0 <= a → xsqrt (Fin a) = Fin (sqrt a).
Proof. intros Ha. simpl. by rewrite decide_False by lra. Qed.

Lemma xmean_fin (l : list R) :
  l ≠ [] → xmean (Fin <$> l) = Fin (Rsum l / INR (length l)).
Proof.
  intros Hl. unfold xmean. rewrite xsum_fin, length_fmap.
  apply xdiv_fin. apply not_0_INR. destruct l; simpl; [done|lia].
Qed.

Lemma Rsum_nonneg (l : list R) : Forall (λ x, 0 <= x) l → 0 <= Rsum l.
Proof. induction 1; simpl; lra. Qed.

Lemma Rsum_replicate (n : nat) (a : R) : Rsum (replicate n a) = INR n * a.
Proof.
  induction n as [|n IH]; [simpl; lra|].
  rewrite S_INR. cbn [replicate Rsum foldr]. unfold Rsum in IH. rewrite IH. lra.
Qed.

Lemma ln_2_neq_0 : ln 2 ≠ 0.
Proof. pose proof ln_lt_2. lra. Qed.

Lemma filter_all {A} (P : A → Prop) `{∀ x, Decision (P x)} (l : list A) :
  Forall P l → filter P l = l.
Proof.
  induction 1 as [|x l Hx _ IH]; [done|].
  rewrite filter_cons, decide_True by done. by rewrite IH.
Qed.

Lemma filter_none {A} (P : A → Prop) `{∀ x, Decision (P x)} (l : list A) :
  Forall (λ x, ¬ P x) l → filter P l = [].
Proof.
  induction 1 as [|x l Hx _ IH]; [done|].
  by rewrite filter_cons, decide_False.
Qed.

Lemma Forall2_impl_elem {A B} (P Q : A → B → Prop) (l : list A) (k : list B) :
  Forall2 P l k → (∀ x y, x ∈ l → P x y → Q x y) → Forall2 Q l k.
Proof.
  induction 1 as [|x y l k Hxy _ IH]; intros Himp; constructor.
  - apply Himp; [by left|done].
  - apply IH. intros x' y' Hx'. apply Himp. by right.
Qed.

Lemma tensor_ext (p q : tensor) :
  shape p = shape q → (∀ j, data p !! j = data q !! j) → p = q.
Proof.
  destruct p as [sp dp], q as [sq dq]. simpl. intros -> Hd. f_equal. by apply list_eq.
Qed.

(** ** The loss of [Model.forward] *)

Lemma entr_fin (p : R) : 0 <= p → entr (Fin p) = Fin (pixel_entropy p).
Proof.
  intros Hp. unfold entr, pixel_entropy, xgtb, xltb, xeqb.
  destruct (decide (0 < p)) as [Hpos|Hnpos].
  - rewrite bool_decide_eq_true_2 by done. simpl.
    rewrite decide_False by lra. rewrite decide_True by done.
    f_equal. unfold Rdiv. rewrite Rmult_1_l, ln_Rinv by done. ring.
  - rewrite bool_decide_eq_false_2 by done.
    assert (p = 0) as -> by lra.
    rewrite bool_decide_eq_true_2 by done. f_equal. ring.
Qed.

Lemma pixel_entropy_nonneg (p : R) : 0 <= p <= 1 → 0 <= pixel_entropy p.
Proof.
  intros [H0 H1]. unfold pixel_entropy.
  destruct (decide (p = 0)) as [->|Hne]; [lra|].
  assert (0 < p) by lra.
  unfold Rdiv. rewrite Rmult_1_l, ln_Rinv by done.
  assert (ln p <= 0).
  { rewrite <- ln_1. destruct (decide (p = 1)) as [->|]; [lra|].
    left. apply ln_increasing; lra. }
  nra.
Qed.

Lemma entropy_scalar_nonneg (ps : list R) :
  ps ≠ [] → Forall (λ p, 0 <= p <= 1) ps → 0 <= entropy_scalar ps.
Proof.
  intros Hne Hall. unfold entropy_scalar.
  apply Rmult_le_pos; [|left; apply Rinv_0_lt_compat].
  - apply Rsum_nonneg. rewrite Forall_fmap. eapply Forall_impl; [done|].
    intros p Hp. by apply pixel_entropy_nonneg.
  - apply lt_0_INR. destruct ps; simpl; [done|lia].
Qed.

Lemma silhouette_loss_fin (image : tensor) (ps : list R) :
  silhouette image ps →
  silhouette_loss image = xdiv (Fin 1) (Fin (entropy_scalar ps * 10)).
Proof.
  intros (Hd & Hne & Hall). unfold silhouette_loss, tmean, amap. simpl.
  rewrite Hd. rewrite <- list_fmap_compose.
  rewrite (Forall_fmap_ext_1 (entr ∘ Fin) (Fin ∘ pixel_entropy) ps).
  2:{ eapply Forall_impl; [done|]. intros p [Hp _]. simpl. by apply entr_fin. }
  rewrite list_fmap_compose, xmean_fin.
  2:{ destruct ps; done. }
  by rewrite length_fmap.
Qed.

Lemma reciprocal_decreasing (e1 e2 : R) :
  0 <= e1 → e1 < e2 →
  xlt (xdiv (Fin 1) (Fin (e2 * 10))) (xdiv (Fin 1) (Fin (e1 * 10))).
Proof.
  intros H1 H12. unfold xlt.
  rewrite (xdiv_fin 1 (e2 * 10)) by lra.
  destruct (decide (e1 = 0)) as [->|Hne].
  - simpl. rewrite decide_True by lra. unfold scale_inf.
    rewrite decide_False by lra. by rewrite decide_True by lra.
  - rewrite xdiv_fin by lra. simpl. apply bool_decide_eq_true_2.
    unfold Rdiv. rewrite !Rmult_1_l. apply Rinv_lt_contravar; nra.
Qed.

(** C1: for rendered silhouettes, the loss of [Model.forward] is the
    reciprocal of the entropy scalar (the mean over the pixels of
    [p * ln (1 / p)]) times 10; so of two silhouettes the one with the
    larger entropy has the smaller loss.  At entropy zero the loss is
    [+inf]. *)
Theorem forward_loss_reciprocal_entropy `{Collab} (m1 m2 : Model)
    (img1 img2 : tensor) (ps1 ps2 : list R) :
  rendered_silhouette m1 = Some img1 → silhouette img1 ps1 →
  rendered_silhouette m2 = Some img2 → silhouette img2 ps2 →
  forward m1 = Some (xdiv (Fin 1) (Fin (entropy_scalar ps1 * 10))) ∧
  forward m2 = Some (xdiv (Fin 1) (Fin (entropy_scalar ps2 * 10))) ∧
  (entropy_scalar ps1 < entropy_scalar ps2 →
   xlt (xdiv (Fin 1) (Fin (entropy_scalar ps2 * 10)))
       (xdiv (Fin 1) (Fin (entropy_scalar ps1 * 10)))).
Proof.
  intros Hr1 Hs1 Hr2 Hs2. unfold forward. rewrite Hr1, Hr2. simpl.
  rewrite (silhouette_loss_fin _ _ Hs1), (silhouette_loss_fin _ _ Hs2).
  split_and!; [done..|].
  intros Hlt. apply reciprocal_decreasing; [|done].
  destruct Hs1 as (_ & ? & ?). by apply entropy_scalar_nonneg.
Qed.

Lemma forward_loss_reciprocal_entropy_witness :
  xlt (xdiv (Fin 1) (Fin (entropy_scalar [/ 2; / 2] * 10)))
      (xdiv (Fin 1) (Fin (entropy_scalar [0; 1] * 10))).
Proof.
  refine (proj2 (proj2 (@forward_loss_reciprocal_entropy sample_collab
            (sample_model_at (NdArray [2%nat] [Fin 0; Fin 1]))
            (sample_model_at (NdArray [2%nat] [Fin (/ 2); Fin (/ 2)]))
            (NdArray [2%nat] [Fin 0; Fin 1]) (NdArray [2%nat] [Fin (/ 2); Fin (/ 2)])
            [0; 1] [/ 2; / 2] _ _ _ _)) _).
  - reflexivity.
  - split_and!; [reflexivity | done | repeat constructor; lra].
  - reflexivity.
  - split_and!; [reflexivity | done | repeat constructor; lra].
  - unfold entropy_scalar, pixel_entropy, Rsum. simpl.
    replace (1 / / 2) with 2 by lra. replace (1 / 1) with 1 by lra. rewrite ln_1.
    pose proof ln_lt_2. lra.
Defined.

(** ** The histogram entropy *)

Lemma unique_counts_no_nan (l : list xreal) :
  NaN ∉ l →
  unique_counts l = (λ v, count_value v l) <$> merge_sort xle_total (remove_dups l).
Proof.
  intros Hn. unfold unique_counts. cbn zeta.
  rewrite (filter_all (λ x, x ≠ NaN)).
  2:{ apply Forall_forall. intros x Hx ->. done. }
  unfold count_value at 2. rewrite (filter_none (λ y, y = NaN)).
  2:{ apply Forall_forall. intros x Hx ->. done. }
  simpl. by rewrite app_nil_r.
Qed.

Lemma plog2p_inverse (k : nat) :
  (0 < k)%nat →
  xmul (Fin (/ INR k)) (xlog2 (Fin (/ INR k))) = Fin (/ INR k * (ln (/ INR k) / ln 2)).
Proof.
  intros Hk. assert (0 < / INR k) by (apply Rinv_0_lt_compat, lt_0_INR; lia).
  unfold xlog2, xlog. rewrite decide_False by lra. rewrite decide_True by done.
  by rewrite xdiv_fin by apply ln_2_neq_0.
Qed.

Lemma evenly_split_counts (k : nat) (l : list xreal) :
  (0 < k)%nat → evenly_split k l →
  ∃ c0 : nat, (k * c0 = length l)%nat ∧ (0 < c0)%nat ∧ unique_counts l = replicate k c0.
Proof.
  intros Hk (vs & Hnd & Hlen & Hnan & Hsub & Hcnt).
  assert (∃ v0, v0 ∈ vs) as [v0 Hv0].
  { destruct vs as [|v0 ?]; [simpl in Hlen; lia|]. exists v0. by left. }
  assert (Hl : (0 < length l)%nat).
  { apply Hsub in Hv0. destruct l; [by apply elem_of_nil in Hv0|simpl; lia]. }
  exists (count_value v0 l). split; [by apply Hcnt|]. split.
  { specialize (Hcnt v0 Hv0). destruct (count_value v0 l); lia. }
  rewrite unique_counts_no_nan by (intros ?%Hsub; done).
  symmetry. apply replicate_as_Forall. split.
  - rewrite length_fmap, merge_sort_Permutation.
    rewrite <- Hlen. apply Permutation_length, NoDup_Permutation;
      [apply NoDup_remove_dups | done |].
    intros x. by rewrite elem_of_remove_dups.
  - apply Forall_fmap, Forall_forall. intros v Hv. simpl.
    rewrite merge_sort_Permutation, elem_of_remove_dups in Hv.
    apply Hsub in Hv. pose proof (Hcnt v Hv). pose proof (Hcnt v0 Hv0). nia.
Qed.

Lemma sample_entropy_evenly_split (k n : nat) (l : list xreal) :
  (0 < k)%nat → length l = n → evenly_split k l →
  sample_entropy n l = Fin (ln (INR k) / ln 2).
Proof.
  intros Hk Hn Hes.
  destruct (evenly_split_counts k l Hk Hes) as (c0 & Hc0 & Hpos & Hcounts).
  unfold sample_entropy. cbn zeta. rewrite Hcounts, !fmap_replicate.
  assert (HkR : 0 < INR k) by (apply lt_0_INR; lia).
  assert (HcR : 0 < INR c0) by (apply lt_0_INR; lia).
  assert (HnR : INR n = INR k * INR c0) by (rewrite <- mult_INR; f_equal; lia).
  rewrite xdiv_fin by (rewrite HnR; nra).
  replace (INR c0 / INR n) with (/ INR k) by (rewrite HnR; field; lra).
  rewrite plog2p_inverse by done.
  rewrite <- fmap_replicate, xsum_fin, Rsum_replicate. simpl. f_equal.
  rewrite ln_Rinv by done. field. split; [apply ln_2_neq_0|lra].
Qed.

Lemma entropy_loss_samples (b c w h : nat) (d : list xreal) :
  entropy_loss (NdArray [b; c; w; h] d)
  = Some (xmean ((λ i, sample_entropy (c * w * h)
                          (take (c * w * h) (drop (i * (c * w * h)) d))) <$> seq 0 b)).
Proof.
  unfold entropy_loss, sample_entropy. cbn [shape data numel foldr].
  by rewrite Nat.mul_1_r.
Qed.

Lemma xmean_constant (b : nat) (a : R) (f : nat → xreal) :
  (0 < b)%nat → (∀ i, (i < b)%nat → f i = Fin a) → xmean (f <$> seq 0 b) = Fin a.
Proof.
  intros Hb Hf.
  rewrite (Forall_fmap_ext_1 f (λ _, Fin a)).
  2:{ apply Forall_forall. intros i Hi%elem_of_seq. apply Hf. lia. }
  rewrite (list_fmap_compose (λ _, a) Fin), xmean_fin.
  2:{ destruct b; [lia|done]. }
  rewrite length_fmap, length_seq. f_equal.
  replace ((λ _ : nat, a) <$> seq 0 b) with (replicate b a).
  2:{ apply replicate_as_Forall. rewrite length_fmap, length_seq. split; [done|].
      apply Forall_fmap, Forall_forall. done. }
  rewrite Rsum_replicate. field. apply not_0_INR. lia.
Qed.

Lemma sample_length (b n i : nat) (d : list xreal) :
  length d = (b * n)%nat → (i < b)%nat → length (take n (drop (i * n) d)) = n.
Proof. intros Hd Hi. rewrite length_take, length_drop. nia. Qed.

Lemma entropy_loss_uniform_batch (b c w h k : nat) (d : list xreal) :
  (0 < b)%nat → (0 < k)%nat →
  length d = (b * (c * w * h))%nat →
  (∀ i, (i < b)%nat → evenly_split k (take (c * w * h) (drop (i * (c * w * h)) d))) →
  entropy_loss (NdArray [b; c; w; h] d) = Some (Fin (ln (INR k) / ln 2)).
Proof.
  intros Hb Hk Hd Hes. rewrite entropy_loss_samples. f_equal.
  apply xmean_constant; [done|]. intros i Hi.
  apply sample_entropy_evenly_split; [done| |by apply Hes].
  by apply (sample_length b).
Qed.

Lemma evenly_split_pair (a b : R) : a ≠ b → evenly_split 2 [Fin a; Fin a; Fin b; Fin b].
Proof.
  intros Hab. exists [Fin a; Fin b]. split_and!.
  - apply NoDup_cons. split; [|apply NoDup_singleton].
    intros ?%list_elem_of_singleton. simplify_eq.
  - done.
  - rewrite !elem_of_cons, elem_of_nil. intros [?|[?|[]]]; discriminate.
  - intros x. rewrite !elem_of_cons, !elem_of_nil. tauto.
  - intros v. rewrite !elem_of_cons, elem_of_nil. intros [->|[->|[]]].
    + unfold count_value. rewrite !filter_cons, !decide_True by done.
      rewrite !decide_False by (intros ?; simplify_eq). done.
    + unfold count_value. rewrite !filter_cons.
      rewrite !(decide_False (P:=Fin a = Fin b)) by (intros ?; simplify_eq).
      rewrite !decide_True by done. done.
Qed.

Lemma evenly_split_constant (x : xreal) (n : nat) :
  x ≠ NaN → evenly_split 1 (replicate (S n) x).
Proof.
  intros Hx. exists [x]. split_and!.
  - apply NoDup_singleton.
  - done.
  - by intros ?%list_elem_of_singleton.
  - intros y. rewrite list_elem_of_singleton. split.
    + by intros [-> _]%elem_of_replicate.
    + intros ->. apply elem_of_replicate. split; [done|lia].
  - intros v ->%list_elem_of_singleton. rewrite Nat.mul_1_l.
    unfold count_value. rewrite filter_all; [done|].
    apply Forall_forall. by intros y [-> _]%elem_of_replicate.
Qed.

(** C5, as amended: for a 4-D tensor of at least one sample, each sample of
    which has its pixel values evenly split across [k] distinct values,
    [entropy_loss] returns [log2 k]; with a single distinct value it
    returns 0. *)
Theorem entropy_loss_evenly_split (b c w h k : nat) (d : list xreal) :
  (0 < b)%nat → (0 < k)%nat →
  length d = (b * (c * w * h))%nat →
  (∀ i, (i < b)%nat → evenly_split k (take (c * w * h) (drop (i * (c * w * h)) d))) →
  entropy_loss (NdArray [b; c; w; h] d) = Some (Fin (ln (INR k) / ln 2)) ∧
  (k = 1%nat → entropy_loss (NdArray [b; c; w; h] d) = Some (Fin 0)).
Proof.
  intros Hb Hk Hd Hes.
  rewrite (entropy_loss_uniform_batch b c w h k d) by done.
  split; [done|]. intros ->. simpl. rewrite ln_1. do 2 f_equal. lra.
Qed.

Lemma entropy_loss_evenly_split_witness :
  entropy_loss (NdArray [1; 1; 2; 2]%nat [Fin 0; Fin 0; Fin 1; Fin 1])
  = Some (Fin (ln (INR 2) / ln 2)).
Proof.
  refine (proj1 (entropy_loss_evenly_split 1 1 2 2 2 [Fin 0; Fin 0; Fin 1; Fin 1] _ _ _ _)).
  - lia.
  - lia.
  - reflexivity.
  - intros i Hi. assert (i = 0%nat) as -> by lia. simpl.
    apply evenly_split_pair. lra.
Defined.

(** C5, as stated, fails on a batch of two samples: the pixel values of
    the tensor are evenly split across the two values 0 and 1, each sample
    is constant, and the result is 0, not [log2 2]. *)
Lemma entropy_loss_batch_counterexample :
  evenly_split 2 (data (NdArray [2; 1; 1; 2]%nat [Fin 0; Fin 0; Fin 1; Fin 1])) ∧
  entropy_loss (NdArray [2; 1; 1; 2]%nat [Fin 0; Fin 0; Fin 1; Fin 1]) = Some (Fin 0) ∧
  entropy_loss (NdArray [2; 1; 1; 2]%nat [Fin 0; Fin 0; Fin 1; Fin 1])
  ≠ Some (Fin (ln (INR 2) / ln 2)).
Proof.
  assert (E : entropy_loss (NdArray [2; 1; 1; 2]%nat [Fin 0; Fin 0; Fin 1; Fin 1])
              = Some (Fin 0)).
  { rewrite (entropy_loss_uniform_batch 2 1 1 2 1); [|lia|lia|done|].
    - simpl. rewrite ln_1. do 2 f_equal. lra.
    - intros i Hi. destruct i as [|[|i]]; [| |lia]; simpl.
      + apply (evenly_split_constant (Fin 0) 1). done.
      + apply (evenly_split_constant (Fin 1) 1). done. }
  split; [apply evenly_split_pair; lra|]. split; [done|].
  rewrite E. intros [= Heq]. revert Heq.
  unfold Rdiv. rewrite Rinv_r by apply ln_2_neq_0. lra.
Qed.

(** ** The safe general entropy *)

Example sum_dim_columns :
  sum_dim (NdArray [2; 2]%nat [Fin 1; Fin 2; Fin 3; Fin 4]) 0 false
  = Some (NdArray [2%nat] [Fin (1 + (3 + 0)); Fin (2 + (4 + 0))]).
Proof. reflexivity. Qed.

Example sum_dim_rows :
  sum_dim (NdArray [2; 2]%nat [Fin 1; Fin 2; Fin 3; Fin 4]) (-1) true
  = Some (NdArray [2; 1]%nat [Fin (1 + (2 + 0)); Fin (3 + (4 + 0))]).
Proof. reflexivity. Qed.

Lemma contribution_zero : contribution (Fin 0) = Fin 0.
Proof.
  unfold contribution, xgtb, xltb. by rewrite bool_decide_eq_false_2 by lra.
Qed.

Lemma contribution_pos (a : R) : 0 < a → contribution (Fin a) = Fin (a * ln a).
Proof.
  intros Ha. unfold contribution, xgtb, xltb. rewrite bool_decide_eq_true_2 by done.
  simpl. rewrite decide_False by lra. by rewrite decide_True.
Qed.

Lemma contribution_range (x : xreal) : finite_or_pinf (contribution x).
Proof.
  unfold contribution, xgtb, xltb. destruct x as [a| | |]; simpl; try done.
  case_bool_decide; [|done]. simpl.
  rewrite decide_False by lra. by rewrite decide_True.
Qed.

Lemma contribution_finite (x : xreal) : is_finite x → is_finite (contribution x).
Proof.
  destruct x as [a| | |]; try done. intros _.
  destruct (decide (0 < a)) as [Ha|Ha].
  - by rewrite contribution_pos.
  - unfold contribution, xgtb, xltb. by rewrite bool_decide_eq_false_2.
Qed.

(** [where] keeps, at every location, the product where [p > 0] and the
    zero elsewhere; the NaN of [0 * log 0] is computed and not selected. *)
Lemma where_selects (p : tensor) :
  where_scalar (amap (λ x, xgtb x (Fin 0)) p) (amap (λ x, xmul x (xlog x)) p) (Fin 0)
  = NdArray (broadcast_shape (shape p)) (contribution <$> data p).
Proof.
  unfold where_scalar, amap. cbn [shape data]. f_equal.
  induction (data p) as [|x l IH]; [done|].
  rewrite !fmap_cons. cbn [zip_with]. by rewrite IH.
Qed.

Lemma xsum_range (l : list xreal) : Forall finite_or_pinf l → finite_or_pinf (xsum l).
Proof.
  unfold xsum. induction 1 as [|x l Hx _ IH]; simpl; [done|].
  destruct x, (foldr xadd (Fin 0) l); done.
Qed.

Lemma xsum_finite (l : list xreal) : Forall is_finite l → is_finite (xsum l).
Proof.
  unfold xsum. induction 1 as [|x l Hx _ IH]; simpl; [done|].
  destruct x, (foldr xadd (Fin 0) l); done.
Qed.

Lemma sum_dim_data_Forall (P : xreal → Prop) (t r : tensor) (dim : Z) (keepdim : bool) :
  P (Fin 0) → (∀ l, Forall P l → P (xsum l)) →
  Forall P (data t) → sum_dim t dim keepdim = Some r → Forall P (data r).
Proof.
  intros H0 Hsum Ht. unfold sum_dim. case_decide; [|done]. intros [= <-]. simpl.
  apply Forall_bind, Forall_forall. intros o _.
  apply Forall_bind, Forall_forall. intros i _.
  apply Forall_singleton, Hsum, Forall_fmap, Forall_forall. intros k _. simpl.
  destruct (data t !! _) as [x|] eqn:Hx; simpl; [|done].
  by eapply Forall_lookup_1.
Qed.

(** C6: [entropy] adds exactly 0 where the probability is exactly 0 and
    [p * ln p] where it is positive, and returns the negated sum of these
    contributions along the given axis; its result holds no NaN, and is
    finite when the probabilities are. *)
Theorem entropy_safe (p : tensor) (dim : Z) (keepdim : bool) :
  contribution (Fin 0) = Fin 0 ∧
  (∀ a, 0 < a → contribution (Fin a) = Fin (a * ln a)) ∧
  entropy p dim keepdim
  = amap xneg <$> sum_dim (NdArray (broadcast_shape (shape p)) (contribution <$> data p))
                          dim keepdim ∧
  (∀ r, entropy p dim keepdim = Some r →
        Forall (λ x, ¬ is_nan x) (data r) ∧
        (Forall is_finite (data p) → Forall is_finite (data r))).
Proof.
  split_and!; [apply contribution_zero | apply contribution_pos | |].
  - unfold entropy. by rewrite where_selects.
  - intros r. unfold entropy. rewrite where_selects.
    destruct (sum_dim _ dim keepdim) as [s|] eqn:Hs; [|done].
    intros [= <-]. simpl. split.
    + apply Forall_fmap. eapply Forall_impl.
      * eapply (sum_dim_data_Forall finite_or_pinf); [done|apply xsum_range| |done].
        simpl. apply Forall_fmap, Forall_forall. intros x _. apply contribution_range.
      * intros [| | |]; done.
    + intros Hfin. apply Forall_fmap. eapply Forall_impl.
      * eapply (sum_dim_data_Forall is_finite); [done|apply xsum_finite| |done].
        simpl. apply Forall_fmap. eapply Forall_impl; [done|]. apply contribution_finite.
      * intros [| | |]; done.
Qed.

(** A distribution with a zero entry: the entropy of [1/2, 1/2, 0] along
    its axis is [ln 2]. *)
Example entropy_half_half_zero :
  entropy (NdArray [3%nat] [Fin (/ 2); Fin (/ 2); Fin 0]) (-1) false
  = Some (NdArray [] [Fin (ln 2)]).
Proof.
  unfold entropy. rewrite where_selects.
  cbn [shape data broadcast_shape fmap list_fmap].
  rewrite contribution_zero, contribution_pos by lra.
  rewrite ln_Rinv by lra.
  change (Some (amap xneg (NdArray [] [Fin (/ 2 * - ln 2 + (/ 2 * - ln 2 + (0 + 0)))]))
          = Some (NdArray [] [Fin (ln 2)])).
  unfold amap. cbn [shape data fmap list_fmap xneg]. do 4 f_equal. lra.
Qed.

(** ** The optimizer step *)

Lemma step_parameter_skip (grads : gmap string tensor) (acc : Optimizer * Model)
    (name : string) :
  grads !! name = None → step_parameter grads acc name = acc.
Proof.
  intros Hg. destruct acc as [o m]. unfold step_parameter. rewrite Hg.
  by destruct (parameters m !! name).
Qed.

Lemma step_parameter_frame (grads : gmap string tensor) (acc : Optimizer * Model)
    (name : string) :
  buffers (step_parameter grads acc name).2 = buffers acc.2 ∧
  renderer (step_parameter grads acc name).2 = renderer acc.2 ∧
  placed_on (step_parameter grads acc name).2 = placed_on acc.2 ∧
  ∀ n, grads !! n = None →
       parameters (step_parameter grads acc name).2 !! n = parameters acc.2 !! n.
Proof.
  destruct acc as [o m]. unfold step_parameter.
  destruct (parameters m !! name) as [p|] eqn:Hp; [|done].
  destruct (grads !! name) as [g|] eqn:Hg; [|done].
  destruct (adam_update o _ p g) as [s' p']. simpl.
  split_and!; [done..|]. intros n Hn.
  apply lookup_insert_ne. congruence.
Qed.

Lemma step_parameter_keeps (grads : gmap string tensor) (acc : Optimizer * Model)
    (name n : string) :
  is_Some (parameters acc.2 !! n) →
  is_Some (parameters (step_parameter grads acc name).2 !! n).
Proof.
  destruct acc as [o m]. unfold step_parameter. cbn [snd].
  destruct (parameters m !! name) as [p|] eqn:Hp; [|done].
  destruct (grads !! name) as [g|]; [|done].
  destruct (adam_update o _ p g) as [s' p']. cbn [snd set_parameter parameters].
  intros Hn. destruct (decide (name = n)) as [->|Hne].
  - rewrite lookup_insert_eq. by eexists.
  - by rewrite lookup_insert_ne.
Qed.

(** The buffers, the renderer and the parameters without a gradient are
    the same after [optimizer.step()]. *)
Lemma optimizer_step_frame (o : Optimizer) (grads : gmap string tensor) (m : Model) :
  buffers (optimizer_step o grads m).2 = buffers m ∧
  renderer (optimizer_step o grads m).2 = renderer m ∧
  placed_on (optimizer_step o grads m).2 = placed_on m ∧
  ∀ n, grads !! n = None →
       parameters (optimizer_step o grads m).2 !! n = parameters m !! n.
Proof.
  unfold optimizer_step. generalize (param_names o). intros l.
  change m with (o, m).2 at 2 4 6 8. generalize (o, m). clear o m.
  induction l as [|x l IH]; intros acc; simpl; [done|].
  destruct (IH (step_parameter grads acc x)) as (-> & -> & -> & Hp).
  destruct (step_parameter_frame grads acc x) as (-> & -> & -> & Hp').
  split_and!; [done..|]. intros n Hn. by rewrite Hp, Hp'.
Qed.

Lemma optimizer_step_keeps (o : Optimizer) (grads : gmap string tensor) (m : Model)
    (n : string) :
  is_Some (parameters m !! n) →
  is_Some (parameters (optimizer_step o grads m).2 !! n).
Proof.
  unfold optimizer_step. generalize (param_names o). intros l.
  change m with (o, m).2 at 1. generalize (o, m). clear o m.
  induction l as [|x l IH]; intros acc Hn; cbn [foldl]; [done|].
  by apply IH, step_parameter_keeps.
Qed.

(** With one gradient, the step is the update of that parameter. *)
Lemma optimizer_step_single (o : Optimizer) (name : string) (g : tensor) (m : Model) :
  NoDup (param_names o) →
  optimizer_step o {[name := g]} m
  = if decide (name ∈ param_names o) then step_parameter {[name := g]} (o, m) name
    else (o, m).
Proof.
  unfold optimizer_step. generalize (param_names o). intros l.
  generalize (o, m). clear o m.
  induction l as [|x l IH]; intros acc Hnd; cbn [foldl].
  { rewrite decide_False; [done|]. apply not_elem_of_nil. }
  apply NoDup_cons in Hnd as [Hx Hnd]. rewrite IH by done.
  destruct (decide (x = name)) as [->|Hne].
  - destruct (decide (name ∈ l)) as [|_]; [done|].
    destruct (decide (name ∈ name :: l)) as [_|[]]; [done|by left].
  - rewrite (step_parameter_skip _ acc x) by (apply lookup_singleton_ne; congruence).
    destruct (decide (name ∈ l)) as [Hin|Hnin].
    + destruct (decide (name ∈ x :: l)) as [_|[]]; [done|by right].
    + destruct (decide (name ∈ x :: l)) as [[?|?]%elem_of_cons|_]; done.
Qed.

Lemma adam_update_lookup (o : Optimizer) (s : adam_state) (p g : tensor) (j : nat)
    (pj gj mj vj : xreal) :
  data p !! j = Some pj → data g !! j = Some gj →
  data (exp_avg s) !! j = Some mj → data (exp_avg_sq s) !! j = Some vj →
  data (exp_avg (adam_update o s p g).1) !! j = Some (adam_moment1 o mj gj) ∧
  data (exp_avg_sq (adam_update o s p g).1) !! j = Some (adam_moment2 o vj gj) ∧
  data (adam_update o s p g).2 !! j = Some (adam_scalar o (S (adam_step s)) mj vj pj gj).
Proof.
  intros Hp Hg Hm Hv. unfold adam_update, tzip, amap. cbn [fst snd data exp_avg exp_avg_sq].
  rewrite !lookup_zip_with, !list_lookup_fmap, !lookup_zip_with, Hp, Hg, Hm, Hv.
  done.
Qed.

Lemma pow_below_one (x : R) (t : nat) : 0 <= x < 1 → 0 < 1 - x ^ S t.
Proof.
  intros Hx. destruct (pow_lt_1_compat x (S t) Hx) as [_ Hlt]; [lia|]. lra.
Qed.

Lemma Adam_default_constants (names : list string) :
  default_constants (Adam names (1 / 10)).
Proof. done. Qed.

Lemma adam_moment1_fin (o : Optimizer) (m g : R) :
  default_constants o →
  adam_moment1 o (Fin m) (Fin g) = Fin (9 / 10 * m + (1 - 9 / 10) * g).
Proof. intros (_ & Hb1 & _). unfold adam_moment1. by rewrite Hb1. Qed.

Lemma adam_moment2_fin (o : Optimizer) (v g : R) :
  default_constants o →
  adam_moment2 o (Fin v) (Fin g) = Fin (999 / 1000 * v + (1 - 999 / 1000) * (g * g)).
Proof. intros (_ & _ & Hb2 & _). unfold adam_moment2. by rewrite Hb2. Qed.

(** With the default constants and a finite state, the displacement of a
    component is finite, and zero exactly when the first-moment estimate
    is. *)
Lemma adam_delta_fin (o : Optimizer) (t : nat) (m v : R) :
  default_constants o → 0 <= v →
  ∃ d, adam_delta o (S t) (Fin m) (Fin v) = Fin d ∧ (d = 0 ↔ m = 0).
Proof.
  intros (Hlr & Hbeta1 & Hbeta2 & Heps') Hv. unfold adam_delta.
  rewrite Hlr, Hbeta1, Hbeta2, Heps'.
  assert (Hb1 : 0 < 1 - (9 / 10) ^ S t) by (apply pow_below_one; lra).
  assert (Hb2 : 0 < 1 - (999 / 1000) ^ S t) by (apply pow_below_one; lra).
  assert (Heps : 0 < / 10 ^ 8) by (apply Rinv_0_lt_compat, pow_lt; lra).
  rewrite !xdiv_fin by lra.
  assert (Hvh : 0 <= v / (1 - (999 / 1000) ^ S t)).
  { apply Rmult_le_pos; [done|]. left. by apply Rinv_0_lt_compat. }
  rewrite xsqrt_fin by done. cbn [xadd].
  pose proof (sqrt_pos (v / (1 - (999 / 1000) ^ S t))) as Hs.
  assert (Hden : 0 < sqrt (v / (1 - (999 / 1000) ^ S t)) + / 10 ^ 8).
  { revert Hs Heps. generalize (sqrt (v / (1 - (999 / 1000) ^ S t))), (/ 10 ^ 8).
    intros; lra. }
  set (den := sqrt (v / (1 - (999 / 1000) ^ S t)) + / 10 ^ 8) in *.
  rewrite xdiv_fin by (revert Hden; generalize den; intros; lra).
  cbn [xmul]. eexists. split; [done|].
  split; intros E; [|subst m; unfold Rdiv; ring].
  assert (E' : m / (1 - (9 / 10) ^ S t) / den = 0).
  { revert E. generalize (m / (1 - (9 / 10) ^ S t) / den). intros; lra. }
  replace m with (m / (1 - (9 / 10) ^ S t) / den * (1 - (9 / 10) ^ S t) * den).
  - rewrite E'. ring.
  - field. split; apply Rgt_not_eq; [exact Hb1|exact Hden].
Qed.

(** With the default constants, a finite component stays finite, and it
    keeps its value exactly when the new first-moment estimate is zero. *)
Lemma adam_scalar_fin (o : Optimizer) (t : nat) (m v p g : R) :
  default_constants o → 0 <= v →
  ∃ p', adam_scalar o (S t) (Fin m) (Fin v) (Fin p) (Fin g) = Fin p' ∧
        (p' = p ↔ 9 / 10 * m + (1 - 9 / 10) * g = 0).
Proof.
  intros Hdef Hv. unfold adam_scalar.
  rewrite adam_moment1_fin, adam_moment2_fin by done.
  destruct (adam_delta_fin o t (9 / 10 * m + (1 - 9 / 10) * g)
              (999 / 1000 * v + (1 - 999 / 1000) * (g * g))) as (d & -> & Hd);
    [done|nra|].
  exists (p + - d). split; [done|]. rewrite <- Hd. lra.
Qed.

Lemma zeros_like_lookup (p : tensor) (j : nat) (x : xreal) :
  data p !! j = Some x → data (zeros_like p) !! j = Some (Fin 0).
Proof. intros Hx%lookup_lt_Some. by apply lookup_replicate_2. Qed.

Lemma parameter_names_elem (m : Model) (name : string) (p : tensor) :
  parameters m !! name = Some p → name ∈ parameter_names m.
Proof.
  intros Hp. unfold parameter_names. apply list_elem_of_fmap.
  exists (name, p). split; [done|]. by apply elem_of_map_to_list.
Qed.

(** ** One training step *)

Section training_step.
Context `{Collab}.

Lemma backward_gradient (m : Model) (grads : gmap string tensor) :
  backward m = Some grads →
  ∃ name g, eye (renderer m) = EyeParameter name ∧ grads = {[ name := g ]}.
Proof.
  unfold backward. destruct (eye (renderer m)) as [name|]; [|done].
  intros Hb. simplify_option_eq. by eexists _, _.
Qed.

Lemma backward_eq (m : Model) (name : string) (v : tensor) (f : ndarray Z) (e : tensor) :
  eye (renderer m) = EyeParameter name →
  float_buffer m "vertices" = Some v → int_buffer m "faces" = Some f →
  parameters m !! name = Some e →
  backward m = Some {[ name := loss_gradient (camera_mode (renderer m)) e v f ]}.
Proof. intros He Hv Hf Hp. unfold backward. by rewrite He, Hv, Hf, Hp. Qed.

Lemma training_step_inv (i : nat) (st st' : TrainState) (loss : xreal) :
  training_step i st = Some (st', loss) →
  ∃ grads, forward (model st) = Some loss ∧ backward (model st) = Some grads ∧
           model st' = (optimizer_step (optimizer st) grads (model st)).2 ∧
           optimizer st' = (optimizer_step (optimizer st) grads (model st)).1 ∧
           ∃ image, files st' = <[tmp_name i := image]> (files st).
Proof.
  unfold training_step. intros Hs.
  destruct (forward (model st)) as [l|] eqn:Hf; simpl in Hs; [|done].
  destruct (backward (model st)) as [grads|] eqn:Hb; simpl in Hs; [|done].
  destruct (optimizer_step _ grads _) as [o' m'] eqn:Ho.
  destruct (rendered_images m') as [images|]; simpl in Hs; [|done].
  injection Hs as <- <-. exists grads. rewrite Ho. simpl.
  split_and!; [done..|]. by eexists.
Qed.

Lemma training_step_frame (i : nat) (st st' : TrainState) (loss : xreal) :
  training_step i st = Some (st', loss) →
  buffers (model st') = buffers (model st) ∧
  renderer (model st') = renderer (model st) ∧
  placed_on (model st') = placed_on (model st) ∧
  ∀ n, eye (renderer (model st)) ≠ EyeParameter n →
       parameters (model st') !! n = parameters (model st) !! n.
Proof.
  intros (grads & _ & Hb & -> & _)%training_step_inv.
  destruct (backward_gradient _ _ Hb) as (name & g & Heye & ->).
  destruct (optimizer_step_frame (optimizer st) {[name := g]} (model st))
    as (-> & -> & -> & Hp).
  split_and!; [done..|]. intros n Hn. apply Hp.
  apply lookup_singleton_ne. congruence.
Qed.

(** A step of a model that [Model.__init__] built does not raise, and
    leaves such a model. *)
Lemma training_step_total (i : nat) (st : TrainState) :
  model_ready (model st) →
  ∃ st' loss, training_step i st = Some (st', loss) ∧ model_ready (model st').
Proof.
  intros (Hv & Hf & Ht & name & Heye & Hp).
  assert (∃ loss, forward (model st) = Some loss) as [loss Hfw].
  { unfold forward, rendered_silhouette, renderer_eye. rewrite Heye.
    destruct Hv as [? ->], Hf as [? ->], Hp as [? ->]. by eexists. }
  assert (∃ grads, backward (model st) = Some grads) as [grads Hbw].
  { unfold backward. rewrite Heye.
    destruct Hv as [? ->], Hf as [? ->], Hp as [? ->]. by eexists. }
  destruct (optimizer_step_frame (optimizer st) grads (model st))
    as (Hb & Hr & _ & _).
  pose proof (optimizer_step_keeps (optimizer st) grads (model st) name Hp) as Hk.
  unfold training_step. rewrite Hfw, Hbw. cbn [mbind option_bind].
  destruct (optimizer_step (optimizer st) grads (model st)) as [o' m'].
  cbn [snd] in *.
  assert (Hready : model_ready m').
  { unfold model_ready, float_buffer, int_buffer in *. rewrite Hb, Hr.
    split_and!; [done..|]. by exists name. }
  assert (∃ images, rendered_images m' = Some images) as [images ->].
  { destruct Hready as (Hv' & Hf' & Ht' & name' & Heye' & Hp').
    unfold rendered_images, renderer_eye. rewrite Heye'.
    destruct Hv' as [? ->], Hf' as [? ->], Ht' as [? ->], Hp' as [? ->]. by eexists. }
  cbn [mbind option_bind]. by eexists _, _.
Qed.

Lemma Model_init_ready (fs : filesystem) (obj : string) (ref : option string) (m : Model) :
  Model_init fs obj ref = Some m → model_ready (cuda m).
Proof.
  unfold Model_init. intros Hm.
  repeat (simplify_option_eq || case_match).
  unfold model_ready, float_buffer, int_buffer, cuda. cbn.
  split_and!; [by eexists..|].
  exists "camera_position". split; [done|]. by eexists.
Qed.

(** A training step with the gradient [g] of the camera position [p], for
    an optimizer over that parameter alone. *)
Lemma training_step_camera (i : nat) (st st' : TrainState) (loss : xreal) (p g : tensor) :
  training_step i st = Some (st', loss) →
  param_names (optimizer st) = ["camera_position"] →
  parameters (model st) !! "camera_position" = Some p →
  backward (model st) = Some {[ "camera_position" := g ]} →
  let s := default (adam_fresh p) (opt_state (optimizer st) !! "camera_position") in
  model st' = set_parameter (model st) "camera_position" (adam_update (optimizer st) s p g).2 ∧
  optimizer st' = set_opt_state (optimizer st) "camera_position"
                    (adam_update (optimizer st) s p g).1.
Proof.
  intros (grads & _ & Hb & -> & -> & _)%training_step_inv Hnames Hp Hback s.
  rewrite Hback in Hb. injection Hb as <-.
  rewrite optimizer_step_single by (rewrite Hnames; apply NoDup_singleton).
  rewrite decide_True by (rewrite Hnames; by left).
  unfold step_parameter. cbv beta iota. rewrite Hp. rewrite lookup_singleton_eq.
  fold s. by destruct (adam_update (optimizer st) s p g).
Qed.

(** C2, as amended: a training step leaves the buffers (vertices, faces,
    textures) and every parameter other than the eye of the renderer as
    they were.  With the constants of [main] and a finite optimizer state,
    a finite component of the camera position changes exactly when its
    updated first-moment estimate [0.9 * m + 0.1 * g] is nonzero; so the
    first step of the optimizer [main] constructs moves every component
    whose gradient component is finite and nonzero. *)
Theorem training_step_moves_camera_only (i : nat) (st st' : TrainState) (loss : xreal) :
  training_step i st = Some (st', loss) →
  (buffers (model st') = buffers (model st) ∧
   float_buffer (model st') "vertices" = float_buffer (model st) "vertices" ∧
   int_buffer (model st') "faces" = int_buffer (model st) "faces" ∧
   float_buffer (model st') "textures" = float_buffer (model st) "textures") ∧
  (∀ n, eye (renderer (model st)) ≠ EyeParameter n →
        parameters (model st') !! n = parameters (model st) !! n) ∧
  (∀ name p g,
     eye (renderer (model st)) = EyeParameter name →
     default_constants (optimizer st) →
     NoDup (param_names (optimizer st)) → name ∈ param_names (optimizer st) →
     parameters (model st) !! name = Some p →
     backward (model st) = Some {[ name := g ]} →
     ∀ j pj gj mj vj,
       data p !! j = Some (Fin pj) → data g !! j = Some (Fin gj) →
       data (exp_avg (default (adam_fresh p) (opt_state (optimizer st) !! name))) !! j
       = Some (Fin mj) →
       data (exp_avg_sq (default (adam_fresh p) (opt_state (optimizer st) !! name))) !! j
       = Some (Fin vj) →
       0 <= vj →
       ∃ p' pj', parameters (model st') !! name = Some p' ∧
                 data p' !! j = Some (Fin pj') ∧
                 (pj' = pj ↔ 9 / 10 * mj + (1 - 9 / 10) * gj = 0)) ∧
  (∀ name p g,
     eye (renderer (model st)) = EyeParameter name →
     optimizer st = Adam (parameter_names (model st)) (1 / 10) →
     parameters (model st) !! name = Some p →
     backward (model st) = Some {[ name := g ]} →
     ∀ j pj gj,
       data p !! j = Some (Fin pj) → data g !! j = Some (Fin gj) → gj ≠ 0 →
       ∃ p' pj', parameters (model st') !! name = Some p' ∧
                 data p' !! j = Some (Fin pj') ∧ pj' ≠ pj).
Proof.
  intros Hstep.
  destruct (training_step_frame i st st' loss Hstep) as (Hbuf & _ & _ & Hpar).
  assert (Hgen : ∀ name p g,
     eye (renderer (model st)) = EyeParameter name →
     default_constants (optimizer st) →
     NoDup (param_names (optimizer st)) → name ∈ param_names (optimizer st) →
     parameters (model st) !! name = Some p →
     backward (model st) = Some {[ name := g ]} →
     ∀ j pj gj mj vj,
       data p !! j = Some (Fin pj) → data g !! j = Some (Fin gj) →
       data (exp_avg (default (adam_fresh p) (opt_state (optimizer st) !! name))) !! j
       = Some (Fin mj) →
       data (exp_avg_sq (default (adam_fresh p) (opt_state (optimizer st) !! name))) !! j
       = Some (Fin vj) →
       0 <= vj →
       ∃ p' pj', parameters (model st') !! name = Some p' ∧
                 data p' !! j = Some (Fin pj') ∧
                 (pj' = pj ↔ 9 / 10 * mj + (1 - 9 / 10) * gj = 0)).
  { intros name p g Heye Hdef Hnd Hin Hp Hback j pj gj mj vj Hpj Hgj Hmj Hvj Hv.
    apply training_step_inv in Hstep as (grads & _ & Hb & -> & _).
    rewrite Hback in Hb. injection Hb as <-.
    rewrite optimizer_step_single by done.
    rewrite decide_True by done.
    unfold step_parameter. cbv beta iota. rewrite Hp. rewrite lookup_singleton_eq.
    set (s := default (adam_fresh p) (opt_state (optimizer st) !! name)) in *.
    destruct (adam_update_lookup (optimizer st) s p g j (Fin pj) (Fin gj) (Fin mj) (Fin vj))
      as (_ & _ & Hlk); [done..|].
    destruct (adam_update (optimizer st) s p g) as [s' p'] eqn:Hup.
    cbn [fst snd] in *. unfold set_parameter. cbn [parameters].
    rewrite lookup_insert_eq.
    destruct (adam_scalar_fin (optimizer st) (adam_step s) mj vj pj gj Hdef Hv)
      as (pj' & E & Hiff).
    exists p', pj'. split_and!; [done| |exact Hiff].
    rewrite Hlk. f_equal. exact E. }
  split_and!; [done| | | |done|exact Hgen|].
  1-3: unfold float_buffer, int_buffer; by rewrite Hbuf.
  intros name p g Heye Hopt Hp Hback j pj gj Hpj Hgj Hne.
  assert (Hdef : default_constants (optimizer st)).
  { rewrite Hopt. apply Adam_default_constants. }
  assert (Hnd : NoDup (param_names (optimizer st))).
  { rewrite Hopt. apply NoDup_fst_map_to_list. }
  assert (Hin : name ∈ param_names (optimizer st)).
  { rewrite Hopt. by eapply parameter_names_elem. }
  assert (Hfresh : default (adam_fresh p) (opt_state (optimizer st) !! name) = adam_fresh p).
  { rewrite Hopt. cbn [opt_state Adam]. by rewrite lookup_empty. }
  assert (Hm0 : data (exp_avg (default (adam_fresh p) (opt_state (optimizer st) !! name))) !! j
                = Some (Fin 0)).
  { rewrite Hfresh. by eapply zeros_like_lookup. }
  assert (Hv0 : data (exp_avg_sq (default (adam_fresh p) (opt_state (optimizer st) !! name))) !! j
                = Some (Fin 0)).
  { rewrite Hfresh. by eapply zeros_like_lookup. }
  destruct (Hgen name p g Heye Hdef Hnd Hin Hp Hback j pj gj 0 0 Hpj Hgj Hm0 Hv0)
    as (p' & pj' & Hp' & Hj' & Hiff); [lra|].
  exists p', pj'. split_and!; [done..|]. intros Heq%Hiff. lra.
Qed.

End training_step.

(** ** The sample run *)

Lemma sample_model_init :
  @Model_init sample_collab sample_files "teapot.obj" (Some "ref.png") = Some
    {| buffers := buffers sample_model;
       parameters := {[ "camera_position" := initial_camera_position ]};
       renderer := {| camera_mode := "look_at"; eye := EyeParameter "camera_position" |};
       placed_on := CPU |}.
Proof. reflexivity. Qed.

Lemma sample_model_ready : model_ready sample_model.
Proof. exact (@Model_init_ready sample_collab _ _ _ _ sample_model_init). Qed.

Lemma sample_parameter_names : parameter_names sample_model = ["camera_position"].
Proof.
  unfold parameter_names.
  change (parameters sample_model) with
    ({[ "camera_position" := initial_camera_position ]} : gmap string tensor).
  by rewrite map_to_list_singleton.
Qed.

Lemma sample_step1_eq :
  @training_step sample_collab 0 sample_start = Some (sample_step1.1, sample_step1.2).
Proof.
  unfold sample_step1.
  destruct (@training_step_total sample_collab 0 sample_start sample_model_ready)
    as (st1 & l0 & -> & _).
  done.
Qed.

Lemma sample_backward_initial :
  @backward sample_collab sample_model = Some {[ "camera_position" := ones3 ]}.
Proof.
  erewrite (@backward_eq sample_collab sample_model "camera_position");
    [|reflexivity..].
  cbn [loss_gradient sample_collab]. by rewrite decide_True.
Qed.

Lemma training_step_moves_camera_only_witness :
  buffers (model sample_step1.1) = buffers (model sample_start) ∧
  ∃ p' pj', parameters (model sample_step1.1) !! "camera_position" = Some p' ∧
            data p' !! 0%nat = Some (Fin pj') ∧ pj' ≠ 6.
Proof.
  destruct (@training_step_moves_camera_only sample_collab 0 sample_start
              sample_step1.1 sample_step1.2 sample_step1_eq)
    as ((Hbuf & _) & _ & _ & Hmove).
  split; [exact Hbuf|].
  apply (Hmove "camera_position" initial_camera_position ones3
           eq_refl eq_refl eq_refl sample_backward_initial 0%nat 6 1 eq_refl eq_refl).
  lra.
Defined.

(** C2, as stated, fails on the second step of the sample run: the gradient
    [minus3] is nonzero in every component, it cancels the first-moment
    estimate left by the first step, and the camera position stays where
    it is. *)
Lemma adam_momentum_counterexample :
  ∃ st1 l0 st2 l1,
    @training_step sample_collab 0 sample_start = Some (st1, l0) ∧
    @training_step sample_collab 1 st1 = Some (st2, l1) ∧
    @backward sample_collab (model st1) = Some {[ "camera_position" := minus3 ]} ∧
    parameters (model st2) !! "camera_position"
    = parameters (model st1) !! "camera_position".
Proof.
  destruct (@training_step_total sample_collab 0 sample_start sample_model_ready)
    as (st1 & l0 & H0 & Hr1).
  destruct (@training_step_total sample_collab 1 st1 Hr1) as (st2 & l1 & H1 & _).
  exists st1, l0, st2, l1. split; [done|]. split; [done|].
  set (o0 := Adam (parameter_names sample_model) (1 / 10)).
  set (p0 := initial_camera_position).
  (* the first step: gradient [ones3], fresh optimizer state *)
  pose proof sample_backward_initial as Hb0.
  destruct (@training_step_camera sample_collab 0 sample_start st1 l0 p0 ones3 H0)
    as [Hm1 Ho1]; [by rewrite <- sample_parameter_names|done|done|].
  cbn [optimizer sample_start model opt_state Adam] in Hm1, Ho1.
  rewrite lookup_empty in Hm1, Ho1. cbn [default] in Hm1, Ho1. fold o0 in Hm1, Ho1.
  set (u1 := adam_update o0 (adam_fresh p0) p0 ones3) in *.
  assert (Hdef0 : default_constants o0) by apply Adam_default_constants.
  (* the components after the first step *)
  assert (Hc1 : ∀ j c, data p0 !! j = Some (Fin c) →
            data (exp_avg u1.1) !! j = Some (Fin (9 / 10 * 0 + (1 - 9 / 10) * 1)) ∧
            data (exp_avg_sq u1.1) !! j
            = Some (Fin (999 / 1000 * 0 + (1 - 999 / 1000) * (1 * 1))) ∧
            ∃ c', data u1.2 !! j = Some (Fin c') ∧ c' ≠ c).
  { intros j c Hj.
    assert (Hg : data ones3 !! j = Some (Fin 1)).
    { destruct j as [|[|[|j]]]; done. }
    destruct (adam_update_lookup o0 (adam_fresh p0) p0 ones3 j (Fin c) (Fin 1) (Fin 0) (Fin 0))
      as (Hm & Hv & Hp); [done|done|by eapply zeros_like_lookup..|].
    rewrite adam_moment1_fin in Hm by done. rewrite adam_moment2_fin in Hv by done.
    split_and!; [done..|].
    destruct (adam_scalar_fin o0 0 0 0 c 1 Hdef0) as (c' & E & Hiff); [lra|].
    exists c'. split; [by unfold u1; rewrite Hp; f_equal|]. intros Heq%Hiff. lra. }
  (* the second step: the camera has moved, so the gradient is [minus3] *)
  assert (Hne : u1.2 ≠ p0).
  { intros Heq. destruct (Hc1 0%nat 6) as (_ & _ & c' & Hc' & Hneq); [done|].
    rewrite Heq in Hc'. change (Some (Fin 6) = Some (Fin c')) in Hc'.
    injection Hc' as Hc'. by apply Hneq. }
  assert (Hb1 : @backward sample_collab (model st1)
                = Some {[ "camera_position" := minus3 ]}).
  { rewrite Hm1.
    erewrite (@backward_eq sample_collab _ "camera_position");
      [|reflexivity|reflexivity|reflexivity|apply lookup_insert_eq].
    cbn [loss_gradient sample_collab]. by rewrite decide_False. }
  split; [done|].
  destruct (@training_step_camera sample_collab 1 st1 st2 l1 u1.2 minus3 H1)
    as [Hm2 _]; [by rewrite Ho1|by rewrite Hm1; apply lookup_insert_eq|done|].
  cbn zeta in Hm2. rewrite Hm2, Hm1. unfold set_parameter. cbn [parameters].
  rewrite !lookup_insert_eq. f_equal.
  rewrite Ho1 at 2. cbn [opt_state set_opt_state]. rewrite lookup_insert_eq.
  cbn [default]. change (Datatypes.id u1.1) with u1.1.
  assert (Hdef1 : default_constants (optimizer st1)) by (by rewrite Ho1).
  apply tensor_ext; [done|]. intros j.
  destruct (decide (j < 3)%nat) as [Hj|Hj].
  - assert (∃ c, data p0 !! j = Some (Fin c)) as [c Hc].
    { destruct j as [|[|[|j]]]; [by eexists..|lia]. }
    destruct (Hc1 j c Hc) as (Hmj & Hvj & c' & Hc' & _).
    assert (Hg : data minus3 !! j = Some (Fin (- (9 / 10)))).
    { destruct j as [|[|[|j]]]; [done..|lia]. }
    destruct (adam_update_lookup (optimizer st1) u1.1 u1.2 minus3 j _ _ _ _ Hc' Hg Hmj Hvj)
      as (_ & _ & ->).
    rewrite Hc'. f_equal.
    destruct (adam_scalar_fin (optimizer st1) (adam_step u1.1)
                (9 / 10 * 0 + (1 - 9 / 10) * 1)
                (999 / 1000 * 0 + (1 - 999 / 1000) * (1 * 1)) c' (- (9 / 10)) Hdef1)
      as (c'' & E & Hiff); [lra|].
    rewrite E. f_equal. apply Hiff. lra.
  - rewrite !lookup_ge_None_2; [done|..].
    + change (length (data u1.2)) with 3%nat. lia.
    + change (length (data (adam_update (optimizer st1) u1.1 u1.2 minus3).2)) with 3%nat. lia.
Qed.

Local Close Scope R_scope.

(** ** The training loop *)

Section training_loop.
Context `{Collab}.

Lemma train_loop_bounded (range : list nat) (st : TrainState) :
  iterations_started (train_loop range st) ≤ length range.
Proof.
  unfold iterations_started. revert st.
  induction range as [|i rest IH]; intros st; simpl; [lia|].
  destruct (training_step i st) as [[st' loss]|]; simpl; [|lia].
  destruct (xltb loss loss_threshold); simpl; [lia|].
  specialize (IH st'). destruct (train_loop rest st') as [tr r]. simpl in *. lia.
Qed.

Lemma train_loop_length_bounded (range : list nat) (st : TrainState) :
  length (train_loop range st).1 ≤ length range.
Proof.
  pose proof (train_loop_bounded range st) as Hb.
  unfold iterations_started in Hb. lia.
Qed.

Lemma train_loop_full (range : list nat) (st : TrainState) :
  is_Some (train_loop range st).2 →
  Forall (λ e, xltb e.2 loss_threshold = false) (train_loop range st).1 →
  length (train_loop range st).1 = length range.
Proof.
  revert st. induction range as [|i rest IH]; intros st; simpl; [done|].
  destruct (training_step i st) as [[st' loss]|]; simpl; [|by intros []].
  destruct (xltb loss loss_threshold) eqn:Hlt; simpl.
  - intros _ Hall. apply Forall_cons in Hall as [Hl _]. simpl in Hl. congruence.
  - specialize (IH st'). destruct (train_loop rest st') as [tr r]. simpl in *.
    intros Hr Hall. apply Forall_cons in Hall as [_ Hall]. f_equal. by apply IH.
Qed.

Lemma train_loop_total (range : list nat) (st : TrainState) :
  model_ready (model st) → is_Some (train_loop range st).2.
Proof.
  revert st. induction range as [|i rest IH]; intros st Hr; cbn [train_loop].
  { by eexists. }
  destruct (training_step_total i st Hr) as (st' & loss & -> & Hr').
  destruct (xltb loss loss_threshold); [by eexists|].
  specialize (IH st' Hr'). by destruct (train_loop rest st').
Qed.

(** The run over [a, a + 1, ..., a + n - 1]: the iterations completed are
    an initial segment, a loss below the threshold is the last one, and a
    run that ends without one has gone through the whole range. *)
Lemma train_loop_trace (a n : nat) (st : TrainState) :
  (train_loop (seq a n) st).1.*1 = seq a (length (train_loop (seq a n) st).1) ∧
  (∀ j e, (train_loop (seq a n) st).1 !! j = Some e →
          xltb e.2 loss_threshold = true →
          S j = length (train_loop (seq a n) st).1 ∧
          is_Some (train_loop (seq a n) st).2) ∧
  (is_Some (train_loop (seq a n) st).2 →
   length (train_loop (seq a n) st).1 = n ∨
   ∃ e, last (train_loop (seq a n) st).1 = Some e ∧ xltb e.2 loss_threshold = true).
Proof.
  revert a st. induction n as [|n IH]; intros a st; simpl.
  { split_and!; [done| |by left]. intros j e Hj. by rewrite lookup_nil in Hj. }
  destruct (training_step a st) as [[st' loss]|]; simpl.
  2:{ split_and!; [done| |by intros []]. intros j e Hj. by rewrite lookup_nil in Hj. }
  destruct (xltb loss loss_threshold) eqn:Hlt; simpl.
  - split_and!; [done| |].
    + intros [|j] e Hj Hlt'; [|by rewrite lookup_cons, lookup_nil in Hj].
      split; [done|by eexists].
    + intros _. right. by exists (a, loss).
  - destruct (IH (S a) st') as (IH1 & IH2 & IH3).
    destruct (train_loop (seq (S a) n) st') as [tr r]. simpl in *.
    split_and!.
    + f_equal. exact IH1.
    + intros [|j] e Hj Hlt'.
      * injection Hj as <-. simpl in Hlt'. congruence.
      * destruct (IH2 j e Hj Hlt') as [-> ?]. done.
    + intros Hr. destruct (IH3 Hr) as [->|(e & Hlast & He)]; [by left|].
      right. exists e. split; [|done].
      destruct tr; [done|]. done.
Qed.

(** C3: the training loop ends after at most 1000 iterations, whatever the
    losses are; a model that [Model.__init__] built goes through it without
    raising, and a run in which no loss falls below the threshold performs
    exactly 1000 iterations. *)
Theorem training_loop_terminates (st : TrainState) :
  iteration_bound = 1000 ∧
  iterations_started (train_loop (seq 0 iteration_bound) st) ≤ iteration_bound ∧
  length (train_loop (seq 0 iteration_bound) st).1 ≤ iteration_bound ∧
  (model_ready (model st) → is_Some (train_loop (seq 0 iteration_bound) st).2) ∧
  (is_Some (train_loop (seq 0 iteration_bound) st).2 →
   Forall (λ e, xltb e.2 loss_threshold = false)
          (train_loop (seq 0 iteration_bound) st).1 →
   length (train_loop (seq 0 iteration_bound) st).1 = iteration_bound).
Proof.
  pose proof (train_loop_bounded (seq 0 iteration_bound) st) as Hb.
  pose proof (train_loop_length_bounded (seq 0 iteration_bound) st) as Hl.
  rewrite length_seq in Hb, Hl.
  split_and!.
  - reflexivity.
  - exact Hb.
  - exact Hl.
  - apply train_loop_total.
  - intros Hr Hall. rewrite (train_loop_full _ _ Hr Hall). apply length_seq.
Qed.

(** What the loop has recorded is what its iterations produce, and the
    state it ends in is the state the last of them left. *)
Lemma train_loop_iterations (a n : nat) (st : TrainState) :
  (∀ st', (train_loop (seq a n) st).2 = Some st' →
          iterations a (length (train_loop (seq a n) st).1) st
          = Some ((train_loop (seq a n) st).1, st')) ∧
  ((train_loop (seq a n) st).2 = None →
   length (train_loop (seq a n) st).1 < n ∧
   ∃ sn, iterations a (length (train_loop (seq a n) st).1) st
         = Some ((train_loop (seq a n) st).1, sn) ∧
         training_step (a + length (train_loop (seq a n) st).1) sn = None).
Proof.
  revert a st. induction n as [|n IH]; intros a st; cbn [seq train_loop].
  { split; [by intros st' [= <-]|done]. }
  destruct (training_step a st) as [[st1 loss]|] eqn:Hs.
  2:{ cbn [fst snd length]. split; [done|]. intros _. split; [lia|].
      exists st. split; [done|]. by rewrite Nat.add_0_r. }
  destruct (xltb loss loss_threshold).
  { cbn [fst snd length iterations]. rewrite Hs. cbn [mbind option_bind].
    split; [by intros st' [= <-]|done]. }
  destruct (IH (S a) st1) as [IHs IHn].
  destruct (train_loop (seq (S a) n) st1) as [tr r]. cbn [fst snd length] in *.
  split.
  - intros st' Hr. cbn [iterations]. rewrite Hs. cbn [mbind option_bind].
    by rewrite (IHs st' Hr).
  - intros Hr. destruct (IHn Hr) as (Hlen & sn & Hit & Hnone).
    split; [lia|]. exists sn. cbn [iterations]. rewrite Hs. cbn [mbind option_bind].
    rewrite Hit. split; [done|]. by rewrite <- Nat.add_succ_comm.
Qed.

(** Every recorded iteration is a step of the script from the state the
    iterations before it left, and its loss is what [forward] returned
    there. *)
Lemma iterations_lookup (a n : nat) (st s : TrainState) (tr : list (nat * xreal))
    (j : nat) (e : nat * xreal) :
  iterations a n st = Some (tr, s) → tr !! j = Some e →
  ∃ sj sj', iterations a j st = Some (take j tr, sj) ∧
            training_step (a + j) sj = Some (sj', e.2) ∧
            forward (model sj) = Some e.2.
Proof.
  revert a st tr j. induction n as [|n IH]; intros a st tr j; cbn [iterations].
  { intros [= <- <-] Hj. by rewrite lookup_nil in Hj. }
  destruct (training_step a st) as [[st1 loss]|] eqn:Hs; cbn [mbind option_bind]; [|done].
  destruct (iterations (S a) n st1) as [[tr1 s1]|] eqn:Hit; cbn [mbind option_bind]; [|done].
  intros [= <- <-]. destruct j as [|j].
  - intros [= <-]. exists st, st1. cbn [take iterations snd]. rewrite Nat.add_0_r.
    split; [done|]. split; [done|].
    by apply training_step_inv in Hs as (grads & Hf & _).
  - intros Hj. cbn [lookup list_lookup] in Hj.
    destruct (IH _ _ _ _ Hit Hj) as (sj & sj' & Hpre & Hstep & Hf).
    exists sj, sj'. cbn [take iterations]. rewrite Hs. cbn [mbind option_bind].
    rewrite Hpre. split; [done|]. split; [|done]. by rewrite <- Nat.add_succ_comm.
Qed.

Lemma train_loop_iterations_0 (n : nat) (st : TrainState) :
  (∀ st', (train_loop (seq 0 n) st).2 = Some st' →
          iterations 0 (length (train_loop (seq 0 n) st).1) st
          = Some ((train_loop (seq 0 n) st).1, st')) ∧
  ((train_loop (seq 0 n) st).2 = None →
   length (train_loop (seq 0 n) st).1 < n ∧
   ∃ sn, iterations 0 (length (train_loop (seq 0 n) st).1) st
         = Some ((train_loop (seq 0 n) st).1, sn) ∧
         training_step (length (train_loop (seq 0 n) st).1) sn = None).
Proof. exact (train_loop_iterations 0 n st). Qed.

Lemma iterations_lookup_0 (n : nat) (st s : TrainState) (tr : list (nat * xreal))
    (j : nat) (e : nat * xreal) :
  iterations 0 n st = Some (tr, s) → tr !! j = Some e →
  ∃ sj sj', iterations 0 j st = Some (take j tr, sj) ∧
            training_step j sj = Some (sj', e.2) ∧
            forward (model sj) = Some e.2.
Proof. exact (iterations_lookup 0 n st s tr j e). Qed.

(** C4: the iterations performed are 0, 1, 2, ... in order and at most
    1000, each of them a step of the script from the state the one before
    left, recorded with the loss [forward] returned; an iteration whose
    loss is below 70 is the last one performed, so every earlier loss is
    not below 70; a run that ends has either performed all 1000 iterations
    or ended on a loss below 70, and the state it ends in is the state its
    last iteration left: nothing is executed after; a run that does not
    end has stopped where an iteration raised. *)
Theorem training_loop_stops_at_threshold (st : TrainState) :
  let run := train_loop (seq 0 iteration_bound) st in
  (iteration_bound = 1000 ∧ loss_threshold = Fin 70) ∧
  run.1.*1 = seq 0 (length run.1) ∧
  length run.1 ≤ iteration_bound ∧
  (∀ j e, run.1 !! j = Some e → xltb e.2 loss_threshold = true →
          S j = length run.1 ∧ is_Some run.2) ∧
  (∀ j e, run.1 !! j = Some e → S j < length run.1 →
          xltb e.2 loss_threshold = false) ∧
  (is_Some run.2 →
   length run.1 = iteration_bound ∨
   ∃ e, last run.1 = Some e ∧ xltb e.2 loss_threshold = true) ∧
  (∀ j e, run.1 !! j = Some e →
          ∃ sj sj', iterations 0 j st = Some (take j run.1, sj) ∧
                    training_step j sj = Some (sj', e.2) ∧
                    forward (model sj) = Some e.2) ∧
  (∀ st', run.2 = Some st' → iterations 0 (length run.1) st = Some (run.1, st')) ∧
  (run.2 = None →
   length run.1 < iteration_bound ∧
   ∃ sn, iterations 0 (length run.1) st = Some (run.1, sn) ∧
         training_step (length run.1) sn = None).
Proof.
  intros run.
  destruct (train_loop_trace 0 iteration_bound st) as (H1 & H2 & H3).
  destruct (train_loop_iterations_0 iteration_bound st) as (H4 & H5).
  pose proof (train_loop_length_bounded (seq 0 iteration_bound) st) as Hl.
  rewrite length_seq in Hl.
  fold run in H1, H2, H3, H4, H5, Hl.
  split_and!; [reflexivity|reflexivity|exact H1|exact Hl|exact H2| |exact H3| |exact H4|exact H5].
  - intros j e Hj Hlast.
    destruct (xltb e.2 loss_threshold) eqn:Hlt; [|done].
    destruct (H2 j e Hj Hlt) as [Hj' _]. rewrite Hj' in Hlast.
    by apply Nat.lt_irrefl in Hlast.
  - intros j e Hj.
    assert (∃ s, iterations 0 (length run.1) st = Some (run.1, s)) as [s Hit].
    { destruct run.2 as [st'|] eqn:Hr.
      - exists st'. by apply H4.
      - destruct (H5 eq_refl) as (_ & sn & Hit & _). by exists sn. }
    exact (iterations_lookup_0 _ st s run.1 j e Hit Hj).
Qed.

End training_loop.

Lemma sample_forward_initial : @forward sample_collab sample_model = Some (Fin 0).
Proof.
  change (@forward sample_collab sample_model)
    with (Some (silhouette_loss initial_camera_position)).
  f_equal. unfold silhouette_loss, tmean, xmean, amap, initial_camera_position.
  cbn [data fmap list_fmap length].
  rewrite !entr_fin by lra.
  assert (Hneg : entr (Fin (-14)) = NInf).
  { unfold entr, xgtb, xltb, xeqb. rewrite bool_decide_eq_false_2 by lra.
    rewrite bool_decide_eq_false_2; [done|]. intros [= Heq]. lra. }
  rewrite Hneg. cbn [xsum foldr xadd INR].
  cbn [xdiv]. rewrite decide_False by lra. cbn [xmul]. unfold scale_inf.
  rewrite decide_False by lra. rewrite decide_True by lra. done.
Qed.

(** The sample run: the first loss is below the threshold, and the loop
    ends after one iteration, in the state that iteration left. *)
Lemma training_loop_stops_at_threshold_witness :
  @train_loop sample_collab (seq 0 iteration_bound) sample_start
  = ([(0, Fin 0)], Some sample_step1.1) ∧
  @iterations sample_collab 0 1 sample_start = Some ([(0, Fin 0)], sample_step1.1).
Proof.
  assert (Hloss : sample_step1.2 = Fin 0).
  { pose proof sample_step1_eq as Hs.
    apply (@training_step_inv sample_collab) in Hs as (grads & Hf & _).
    cbn [snd] in Hf. change (model sample_start) with sample_model in Hf.
    rewrite sample_forward_initial in Hf. revert Hf.
    generalize sample_step1.2. intros x [= <-]. reflexivity. }
  assert (Hrun : @train_loop sample_collab (seq 0 iteration_bound) sample_start
                 = ([(0, Fin 0)], Some sample_step1.1)).
  { change (seq 0 iteration_bound) with (0 :: seq 1 999). cbn [train_loop].
    rewrite sample_step1_eq, Hloss. cbn [snd].
    unfold xltb, loss_threshold. rewrite bool_decide_eq_true_2 by lra. done. }
  split; [exact Hrun|].
  pose proof (@training_loop_stops_at_threshold sample_collab sample_start) as Hthm.
  cbn zeta in Hthm. destruct Hthm as (_ & _ & _ & _ & _ & _ & _ & Hend & _).
  rewrite Hrun in Hend. cbn [fst snd length] in Hend. exact (Hend _ eq_refl).
Defined.

(** ** The reference mask *)

Lemma list_max_spec (l : list Z) (m : Z) :
  list_max l = Some m → m ∈ l ∧ Forall (λ z, (z ≤ m)%Z) l.
Proof.
  destruct l as [|x l]; [done|]. intros [= <-].
  induction l as [|y l [IHin IHle]]; simpl.
  - split; [by left|]. by repeat constructor.
  - apply Forall_cons in IHle as [Hx Hl]. split.
    + destruct (Z.max_spec y (foldr Z.max x l)) as [[_ ->]|[_ ->]].
      * apply elem_of_cons in IHin as [->|?]; [by left|]. by do 2 right.
      * right. by left.
    + repeat apply Forall_cons_2; [lia|lia|].
      eapply Forall_impl; [done|]. simpl. lia.
Qed.

Lemma list_max_is_Some (l : list Z) : l ≠ [] → is_Some (list_max l).
Proof. destruct l; [done|]. by eexists. Qed.

Lemma max_last_3d (img : image_array) (h w c : nat) :
  shape img = [h; w; c] → well_shaped img → 0 < c →
  ∃ ms, max_last img = Some (NdArray [h; w] ms) ∧ length ms = h * w ∧
        ∀ i j, i < h → j < w →
               ∃ mx, list_max (channels img w c i j) = Some mx ∧
                     ms !! (i * w + j) = Some mx.
Proof.
  intros Hsh Hws Hc. unfold well_shaped in Hws. rewrite Hsh in Hws. simpl in Hws.
  unfold max_last. rewrite Hsh. simpl.
  set (f := λ o : nat, list_max (take c (drop (o * c) (data img)))).
  assert (Hf : ∀ o, o < h * w → is_Some (f o)).
  { intros o Ho. apply list_max_is_Some. intros Hnil.
    apply (f_equal length) in Hnil. rewrite length_take, length_drop in Hnil.
    simpl in Hnil. nia. }
  exists ((λ o, default 0%Z (f o)) <$> seq 0 (h * w)).
  replace (h * (w * 1)) with (h * w) by lia. split_and!.
  - assert (mapM f (seq 0 (h * w)) = Some ((λ o, default 0%Z (f o)) <$> seq 0 (h * w)))
      as ->; [|done].
    apply mapM_Some, Forall2_fmap_r, Forall_Forall2_diag, Forall_forall.
    intros o Ho%elem_of_seq. destruct (Hf o) as [m Hm]; [lia|].
    unfold compose. by rewrite Hm.
  - by rewrite length_fmap, length_seq.
  - intros i j Hi Hj. assert (Ho : i * w + j < h * w) by nia.
    destruct (Hf _ Ho) as [mx Hmx]. exists mx. split; [done|].
    rewrite list_lookup_fmap, lookup_seq_lt by done. simpl. by rewrite Hmx.
Qed.

Lemma numel_app (l k : list nat) : numel (l ++ k) = numel l * numel k.
Proof.
  unfold numel. induction l as [|x l IH]; simpl; [lia|]. rewrite IH. lia.
Qed.

Lemma max_last_groups (img : image_array) (init : list nat) (c : nat) :
  shape img = init ++ [c] → well_shaped img → 0 < c →
  ∃ ms, max_last img = Some (NdArray init ms) ∧ length ms = numel init ∧
        ∀ o, o < numel init →
             length (take c (drop (o * c) (data img))) = c ∧
             ∃ mx, list_max (take c (drop (o * c) (data img))) = Some mx ∧
                   ms !! o = Some mx.
Proof.
  intros Hsh Hws Hc. unfold well_shaped in Hws. rewrite Hsh, numel_app in Hws.
  cbn [numel foldr] in Hws.
  unfold max_last. rewrite Hsh, reverse_snoc, reverse_involutive.
  set (f := λ o : nat, list_max (take c (drop (o * c) (data img)))).
  assert (Hg : ∀ o, o < numel init → length (take c (drop (o * c) (data img))) = c).
  { intros o Ho. rewrite length_take, length_drop. nia. }
  assert (Hf : ∀ o, o < numel init → is_Some (f o)).
  { intros o Ho. apply list_max_is_Some. intros Hnil.
    apply (f_equal length) in Hnil. rewrite (Hg o Ho) in Hnil. simpl in Hnil. lia. }
  exists ((λ o, default 0%Z (f o)) <$> seq 0 (numel init)). split_and!.
  - assert (mapM f (seq 0 (numel init))
            = Some ((λ o, default 0%Z (f o)) <$> seq 0 (numel init))) as ->; [|done].
    apply mapM_Some, Forall2_fmap_r, Forall_Forall2_diag, Forall_forall.
    intros o Ho%elem_of_seq. destruct (Hf o) as [m Hm]; [lia|].
    unfold compose. by rewrite Hm.
  - by rewrite length_fmap, length_seq.
  - intros o Ho. split; [by apply Hg|].
    destruct (Hf _ Ho) as [mx Hmx]. exists mx. split; [done|].
    rewrite list_lookup_fmap, lookup_seq_lt by done. simpl. by rewrite Hmx.
Qed.

Lemma nonzero_mask_binary (a : image_array) : Forall binary (data (nonzero_mask a)).
Proof.
  unfold nonzero_mask, amap. cbn [data]. rewrite <- list_fmap_compose.
  apply Forall_fmap, Forall_forall. intros z _. cbn.
  case_bool_decide; [by right|by left].
Qed.

Lemma nonzero_mask_lookup (a : image_array) (o : nat) (mx : Z) :
  data a !! o = Some mx →
  data (nonzero_mask a) !! o = Some (if decide (mx ≠ 0%Z) then Fin 1 else Fin 0).
Proof.
  intros Hlk. unfold nonzero_mask, amap. cbn [data]. rewrite <- list_fmap_compose.
  rewrite list_lookup_fmap, Hlk. cbn. f_equal.
  by destruct (decide (mx ≠ 0%Z));
    [rewrite bool_decide_eq_true_2|rewrite bool_decide_eq_false_2].
Qed.

(** C8, as amended: the mask [Model.__init__] stores as [image_ref] holds
    no value other than 0.0 and 1.0, and it is taken along the last axis
    of the decoded image.  For an image of [h] rows, [w] columns and
    [c >= 1] channels it has one element per pixel, which is 1.0 exactly
    when the maximum channel value of the pixel is nonzero and 0.0
    otherwise.  For a grayscale image of [h] rows and [w >= 1] columns,
    which has no channel axis, it has one element per row, which is 1.0
    exactly when the maximum of the row is nonzero. *)
Theorem reference_mask_binary `{Collab} (fs : filesystem) (name : string)
    (content : file) (img : image_array) :
  fs !! name = Some content → imread_decode content = Some img →
  (∀ mask, load_reference fs (Some name) = Some mask →
     Forall binary (data mask) ∧
     ∀ obj m, Model_init fs obj (Some name) = Some m →
              buffers m !! "image_ref" = Some (FloatTensor mask)) ∧
  (∀ h w c, shape img = [h; w; c] → well_shaped img → 0 < c →
     ∃ mask : tensor,
       load_reference fs (Some name) = Some mask ∧
       shape mask = [h; w] ∧
       Forall binary (data mask) ∧
       (∀ i j, i < h → j < w →
          ∃ mx, list_max (channels img w c i j) = Some mx ∧
                mx ∈ channels img w c i j ∧
                Forall (λ z, (z ≤ mx)%Z) (channels img w c i j) ∧
                data mask !! (i * w + j)
                = Some (if decide (mx ≠ 0%Z) then Fin 1 else Fin 0)) ∧
       (∀ obj m, Model_init fs obj (Some name) = Some m →
                 buffers m !! "image_ref" = Some (FloatTensor mask))) ∧
  (∀ h w, shape img = [h; w] → well_shaped img → 0 < w →
     ∃ mask : tensor,
       load_reference fs (Some name) = Some mask ∧
       shape mask = [h] ∧ length (data mask) = h ∧
       ∀ i, i < h →
            ∃ mx, list_max (take w (drop (i * w) (data img))) = Some mx ∧
                  mx ∈ take w (drop (i * w) (data img)) ∧
                  Forall (λ z, (z ≤ mx)%Z) (take w (drop (i * w) (data img))) ∧
                  data mask !! i = Some (if decide (mx ≠ 0%Z) then Fin 1 else Fin 0)).
Proof.
  intros Hfs Hdec.
  assert (Hload : load_reference fs (Some name) = nonzero_mask <$> max_last img).
  { unfold load_reference. cbn [mbind option_bind]. rewrite Hfs.
    cbn [mbind option_bind]. by rewrite Hdec. }
  assert (Hstored : ∀ mask, load_reference fs (Some name) = Some mask →
            ∀ obj m, Model_init fs obj (Some name) = Some m →
                     buffers m !! "image_ref" = Some (FloatTensor mask)).
  { intros mask Hmask obj m. unfold Model_init. rewrite Hmask.
    intros Hm. repeat (simplify_option_eq || case_match); by simplify_map_eq. }
  split_and!.
  - intros mask Hmask. split; [|by apply Hstored].
    rewrite Hload in Hmask. apply fmap_Some in Hmask as (a & _ & ->).
    apply nonzero_mask_binary.
  - intros h w c Hsh Hws Hc.
    destruct (max_last_3d img h w c Hsh Hws Hc) as (ms & Hmax & Hlen & Hpix).
    exists (nonzero_mask (NdArray [h; w] ms)).
    assert (Hmask : load_reference fs (Some name) = Some (nonzero_mask (NdArray [h; w] ms)))
      by (by rewrite Hload, Hmax).
    split_and!; [done|done|apply nonzero_mask_binary| |by apply Hstored].
    intros i j Hi Hj. destruct (Hpix i j Hi Hj) as (mx & Hmx & Hlk).
    exists mx. destruct (list_max_spec _ _ Hmx) as [Hin Hle].
    split_and!; [done..|]. by apply nonzero_mask_lookup.
  - intros h w Hsh Hws Hw.
    destruct (max_last_groups img [h] w Hsh Hws Hw) as (ms & Hmax & Hlen & Hrow).
    cbn [numel foldr] in Hlen, Hrow. rewrite Nat.mul_1_r in Hlen, Hrow.
    exists (nonzero_mask (NdArray [h] ms)).
    split_and!; [by rewrite Hload, Hmax|done| |].
    + unfold nonzero_mask, amap. cbn [data]. by rewrite !length_fmap.
    + intros i Hi. destruct (Hrow i Hi) as (_ & mx & Hmx & Hlk).
      exists mx. destruct (list_max_spec _ _ Hmx) as [Hin Hle].
      split_and!; [done..|]. by apply nonzero_mask_lookup.
Qed.

Lemma reference_mask_binary_witness :
  ∃ mask : tensor,
    @load_reference sample_collab sample_files (Some "ref.png") = Some mask ∧
    shape mask = [1; 2] ∧ data mask !! 0 = Some (Fin 1) ∧ data mask !! 1 = Some (Fin 0).
Proof.
  destruct (@reference_mask_binary sample_collab sample_files "ref.png" "image"
              (NdArray [1; 2; 2] [5; 0; 0; 0]%Z) eq_refl eq_refl) as (_ & Hrgb & _).
  destruct (Hrgb 1 2 2 eq_refl eq_refl ltac:(lia)) as (mask & Hload & Hshape & _ & Hpix & _).
  exists mask. split_and!; [done|done| |].
  - destruct (Hpix 0 0) as (mx & Hmx & _ & _ & Hlk); [lia|lia|].
    vm_compute in Hmx. injection Hmx as <-. exact Hlk.
  - destruct (Hpix 0 1) as (mx & Hmx & _ & _ & Hlk); [lia|lia|].
    vm_compute in Hmx. injection Hmx as <-. exact Hlk.
Defined.

(** C8, as stated, fails on a grayscale reference image: the decoded
    image has two rows of two pixels and no channel axis, and the mask has
    two elements, one per row, not one per pixel; the pixel at row 1,
    column 0 is zero, and the only element of the mask that covers it is
    1.0. *)
Lemma reference_mask_grayscale_counterexample :
  ∃ (img : image_array) (mask : tensor),
    @imread_decode gray_collab "image" = Some img ∧
    shape img = [2; 2] ∧ data img !! (1 * 2 + 0) = Some 0%Z ∧
    @load_reference gray_collab sample_files (Some "ref.png") = Some mask ∧
    shape mask = [2] ∧ data mask = [Fin 0; Fin 1] ∧
    length (data mask) ≠ 2 * 2.
Proof.
  exists (NdArray [2; 2] [0; 0; 0; 7]%Z), (NdArray [2] [Fin 0; Fin 1]).
  split_and!; [reflexivity..|]. cbn. lia.
Qed.

(** ** The loss does not read the reference image *)

(** C9: two models with the same parameters, the same renderer and the
    same buffers except [image_ref] have the same loss. *)
Theorem forward_ignores_image_ref `{Collab} (m1 m2 : Model) :
  (∀ name, name ≠ "image_ref" → buffers m1 !! name = buffers m2 !! name) →
  parameters m1 = parameters m2 → renderer m1 = renderer m2 →
  forward m1 = forward m2.
Proof.
  intros Hb Hp Hr.
  unfold forward, rendered_silhouette, float_buffer, int_buffer, renderer_eye.
  rewrite (Hb "vertices"), (Hb "faces"), Hp, Hr by done. done.
Qed.

Lemma forward_ignores_image_ref_witness :
  buffers sample_model !! "image_ref" ≠ buffers sample_model_other_ref !! "image_ref" ∧
  @forward sample_collab sample_model = @forward sample_collab sample_model_other_ref.
Proof.
  split; [intros Heq; vm_compute in Heq; discriminate|].
  apply (@forward_ignores_image_ref sample_collab sample_model sample_model_other_ref);
    [|reflexivity..].
  intros name Hname. symmetry. by apply lookup_insert_ne.
Defined.

(** ** The GIF assembler *)

Lemma sorted_Sorted (l : list string) : Sorted String.le (sorted l).
Proof. apply Sorted_merge_sort, _. Qed.

Lemma sorted_Permutation (l : list string) : sorted l ≡ₚ l.
Proof. apply merge_sort_Permutation. Qed.

Lemma sorted_unique (l k : list string) :
  Sorted String.le k → k ≡ₚ l → sorted l = k.
Proof.
  intros Hk Hperm. apply (Sorted_unique String.le); [apply sorted_Sorted|done|].
  by rewrite sorted_Permutation.
Qed.

Lemma elem_of_glob_frames (fs : filesystem) (p : string) :
  p ∈ glob_frames fs ↔ is_Some (fs !! p) ∧ frame_path p = true.
Proof.
  unfold glob_frames. rewrite list_elem_of_filter, elem_of_elements, elem_of_dom. tauto.
Qed.

Lemma NoDup_glob_frames (fs : filesystem) : NoDup (glob_frames fs).
Proof. apply NoDup_filter, NoDup_elements. Qed.

(** Creating the output file does not change the frame files listed, when
    the output is no frame file itself. *)
Lemma glob_frames_output (fs : filesystem) (out content : string) :
  frame_path out = false →
  sorted (glob_frames (<[out := content]> fs)) = sorted (glob_frames fs).
Proof.
  intros Hout. apply sorted_unique; [apply sorted_Sorted|].
  rewrite sorted_Permutation.
  apply NoDup_Permutation; [apply NoDup_glob_frames..|].
  intros p. rewrite !elem_of_glob_frames.
  destruct (decide (p = out)) as [->|Hne].
  - rewrite Hout. split; intros [_ ?]; done.
  - by rewrite lookup_insert_ne.
Qed.

(** The names of the frames of a run, in the order of the iterations, are
    in lexicographic order. *)
Lemma tmp_names_Sorted : Sorted String.le (tmp_name <$> seq 0 1000).
Proof. apply (bool_decide_unpack _). vm_compute. exact I. Qed.

Lemma tmp_names_prefix_Sorted (n : nat) :
  n ≤ iteration_bound → Sorted String.le (tmp_name <$> seq 0 n).
Proof.
  intros Hn. pose proof tmp_names_Sorted as Hs.
  change 1000 with iteration_bound in Hs.
  replace iteration_bound with (n + (iteration_bound - n)) in Hs by lia.
  rewrite seq_app, fmap_app in Hs.
  apply Sorted_StronglySorted in Hs; [|apply _].
  apply StronglySorted_app_1_l in Hs. by apply StronglySorted_Sorted.
Qed.

Section gif.
Context `{Collab}.

Lemma gif_loop_app (out : string) (acc : list image_array * filesystem)
    (l1 l2 : list string) :
  gif_loop out acc (l1 ++ l2) = gif_loop out acc l1 ≫= λ acc1, gif_loop out acc1 l2.
Proof.
  revert acc. induction l1 as [|x l1 IH]; intros acc; simpl; [done|].
  destruct (gif_step out acc x) as [acc'|]; simpl; [apply IH|done].
Qed.

(** What one step does to the writer and to the files. *)
Lemma gif_step_spec (out : string) (acc acc' : list image_array * filesystem)
    (name : string) :
  gif_step out acc name = Some acc' → name ≠ out →
  ∃ content frame,
    acc.2 !! name = Some content ∧ imread_decode content = Some frame ∧
    acc'.1 = acc.1 ++ [frame] ∧
    acc'.2 !! out = Some (gif_encode acc'.1) ∧
    acc'.2 !! name = None ∧
    ∀ p, p ≠ name → p ≠ out → acc'.2 !! p = acc.2 !! p.
Proof.
  destruct acc as [frames fs]. unfold gif_step. intros Hs Hne.
  destruct (fs !! name) as [content|] eqn:Hc; simpl in Hs; [|done].
  destruct (imread_decode content) as [frame|] eqn:Hd; simpl in Hs; [|done].
  injection Hs as <-. exists content, frame. simpl. split_and!; [done..| | |].
  - rewrite lookup_delete_ne by done. apply lookup_insert_eq.
  - apply lookup_delete_eq.
  - intros p Hp Hpo. rewrite lookup_delete_ne by done. by rewrite lookup_insert_ne.
Qed.

Lemma gif_loop_spec (out : string) (names : list string)
    (acc acc' : list image_array * filesystem) :
  gif_loop out acc names = Some acc' → out ∉ names → NoDup names →
  acc.2 !! out = Some (gif_encode acc.1) →
  ∃ new,
    acc'.1 = acc.1 ++ new ∧
    Forall2 (λ name frame, ∃ content, acc.2 !! name = Some content ∧
                                      imread_decode content = Some frame) names new ∧
    acc'.2 !! out = Some (gif_encode acc'.1) ∧
    (∀ p, p ∈ names → acc'.2 !! p = None) ∧
    (∀ p, p ∉ names → p ≠ out → acc'.2 !! p = acc.2 !! p).
Proof.
  revert acc. induction names as [|name rest IH]; intros acc Hl Hout Hnd Hw; simpl in Hl.
  { injection Hl as <-. exists []. rewrite app_nil_r. split_and!; [done..| |done].
    intros p Hp. by apply elem_of_nil in Hp. }
  apply NoDup_cons in Hnd as [Hname Hnd].
  apply not_elem_of_cons in Hout as [Hne Hout].
  destruct (gif_step out acc name) as [acc1|] eqn:Hs; simpl in Hl; [|done].
  destruct (gif_step_spec out acc acc1 name Hs)
    as (content & frame & Hc & Hd & Hf & Hw1 & Hdel & Hoth); [done|].
  destruct (IH acc1 Hl Hout Hnd Hw1) as (new & Hf' & Hall & Hw' & Hdel' & Hoth').
  exists (frame :: new). split_and!.
  - rewrite Hf', Hf. by rewrite <- app_assoc.
  - constructor; [by eauto|].
    eapply Forall2_impl_elem; [done|]. simpl. intros q fr Hin (c & Hq & Hdq).
    exists c. split; [|done]. rewrite <- Hoth; [done|by intros ->|by intros ->].
  - done.
  - intros p [->|Hp]%elem_of_cons; [|by apply Hdel'].
    rewrite Hoth' by done. done.
  - intros p [Hp1 Hp2]%not_elem_of_cons Hpo. rewrite Hoth' by done. by apply Hoth.
Qed.

(** C7: [make_gif] goes through the frame files in lexicographic order
    (for the frames of a run, the order of the iterations); the step that
    appends the frame of a file removes that file and leaves the files
    still to come; after a run that did not raise, the output holds
    exactly one frame per frame file, in that order, every frame file is
    gone and every other file is as it was. *)
Theorem make_gif_assembles_in_order (filename : string) (fs fs' : filesystem)
    (frames : list image_array) :
  frame_path filename = false →
  make_gif filename fs = Some (frames, fs') →
  let names := sorted (glob_frames fs) in
  (Sorted String.le names ∧ NoDup names ∧
   ∀ p, p ∈ names ↔ is_Some (fs !! p) ∧ frame_path p = true) ∧
  Forall2 (λ name frame, ∃ content, fs !! name = Some content ∧
                                    imread_decode content = Some frame) names frames ∧
  (∀ done name rest, names = done ++ name :: rest →
     ∃ acc1 acc2,
       gif_loop filename ([], <[filename := gif_encode []]> fs) done = Some acc1 ∧
       gif_step filename acc1 name = Some acc2 ∧
       gif_loop filename acc2 rest = Some (frames, fs') ∧
       length acc1.1 = length done ∧ is_Some (acc1.2 !! name) ∧
       length acc2.1 = S (length done) ∧ acc2.2 !! name = None ∧
       Forall (λ q, is_Some (acc2.2 !! q)) rest) ∧
  (∀ p, p ∈ names → fs' !! p = None) ∧
  fs' !! filename = Some (gif_encode frames) ∧
  length frames = length names ∧
  (∀ p, p ∉ names → p ≠ filename → fs' !! p = fs !! p) ∧
  (∀ n, n ≤ iteration_bound → glob_frames fs ≡ₚ tmp_name <$> seq 0 n →
        names = tmp_name <$> seq 0 n).
Proof.
  intros Hout Hgif names. unfold make_gif in Hgif. cbn zeta in Hgif.
  rewrite glob_frames_output in Hgif by done. fold names in Hgif.
  set (fs0 := <[filename := gif_encode []]> fs) in *.
  assert (Hin : ∀ p, p ∈ names ↔ is_Some (fs !! p) ∧ frame_path p = true).
  { intros p. unfold names. by rewrite sorted_Permutation, elem_of_glob_frames. }
  assert (Hnd : NoDup names).
  { unfold names. rewrite sorted_Permutation. apply NoDup_glob_frames. }
  assert (Hne : ∀ p, p ∈ names → p ≠ filename).
  { intros p [_ Hp]%Hin ->. congruence. }
  assert (Hnotin : filename ∉ names) by (intros Hf; by apply (Hne _ Hf)).
  assert (Hfs0 : ∀ p, p ≠ filename → fs0 !! p = fs !! p).
  { intros p Hp. unfold fs0. by rewrite lookup_insert_ne. }
  assert (Hw0 : fs0 !! filename = Some (gif_encode [])) by apply lookup_insert_eq.
  destruct (gif_loop_spec filename names ([], fs0) (frames, fs') Hgif Hnotin Hnd Hw0)
    as (new & Hnew & Hall & Hw & Hdel & Hoth).
  simpl in Hnew, Hall, Hw, Hdel, Hoth. subst new.
  split_and!.
  - apply sorted_Sorted.
  - done.
  - done.
  - eapply Forall2_impl_elem; [done|]. simpl. intros p fr Hp (c & Hc & Hd).
    exists c. split; [|done]. rewrite <- Hfs0; [done|by apply Hne].
  - intros done name rest Hsplit. rewrite Hsplit in Hgif, Hnd.
    rewrite gif_loop_app in Hgif.
    destruct (gif_loop filename ([], fs0) done) as [acc1|] eqn:H1; simpl in Hgif; [|done].
    destruct (gif_step filename acc1 name) as [acc2|] eqn:H2; simpl in Hgif; [|done].
    exists acc1, acc2.
    apply NoDup_app in Hnd as (Hnd1 & Hdisj & Hnd2).
    apply NoDup_cons in Hnd2 as [Hname Hnd2].
    assert (Hname_in : name ∈ names).
    { rewrite Hsplit. apply elem_of_app. right. by left. }
    assert (Hrest_in : ∀ q, q ∈ rest → q ∈ names).
    { intros q Hq. rewrite Hsplit. apply elem_of_app. right. by right. }
    assert (Hnot1 : filename ∉ done).
    { intros Hf. apply Hnotin. rewrite Hsplit. apply elem_of_app. by left. }
    destruct (gif_loop_spec filename done ([], fs0) acc1 H1 Hnot1 Hnd1 Hw0)
      as (new1 & Hnew1 & Hall1 & _ & _ & Hoth1).
    simpl in Hnew1, Hoth1.
    destruct (gif_step_spec filename acc1 acc2 name H2) as
      (content & frame & Hc & _ & Hf2 & _ & Hdel2 & Hoth2); [by apply Hne|].
    split_and!; [done..| | | | |].
    + rewrite Hnew1. symmetry. by eapply Forall2_length.
    + by rewrite Hc.
    + rewrite Hf2, length_app, Hnew1. simpl.
      apply Forall2_length in Hall1. lia.
    + done.
    + apply Forall_forall. intros q Hq.
      rewrite Hoth2; [|by intros ->|by apply Hne, Hrest_in].
      rewrite Hoth1; [|intros Hqd; by apply (Hdisj q Hqd); right|by apply Hne, Hrest_in].
      rewrite Hfs0 by (by apply Hne, Hrest_in).
      by apply Hin, Hrest_in.
  - done.
  - done.
  - symmetry. by eapply Forall2_length.
  - intros p Hp Hpf. rewrite Hoth by done. by apply Hfs0.
  - intros n Hn Hperm. apply sorted_unique; [by apply tmp_names_prefix_Sorted|done].
Qed.

End gif.

Lemma make_gif_assembles_in_order_witness :
  sorted (glob_frames sample_frames) = ["/tmp/_tmp_0000.png"; "/tmp/_tmp_0001.png"] ∧
  @make_gif sample_collab "/tmp/out.gif" sample_frames
  = Some ([NdArray [1; 2; 2] [1; 0; 0; 0]%Z; NdArray [1; 2; 2] [2; 0; 0; 0]%Z],
          {[ "/tmp/notes.txt" := "n"; "/tmp/out.gif" := "ff" ]}) ∧
  length [NdArray [1; 2; 2] [1; 0; 0; 0]%Z; NdArray [1; 2; 2] [2; 0; 0; 0]%Z]
  = length (sorted (glob_frames sample_frames)).
Proof.
  assert (Hrun : @make_gif sample_collab "/tmp/out.gif" sample_frames
    = Some ([NdArray [1; 2; 2] [1; 0; 0; 0]%Z; NdArray [1; 2; 2] [2; 0; 0; 0]%Z],
            {[ "/tmp/notes.txt" := "n"; "/tmp/out.gif" := "ff" ]})).
  { vm_compute. reflexivity. }
  split; [vm_compute; reflexivity|]. split; [exact Hrun|].
  destruct (@make_gif_assembles_in_order sample_collab "/tmp/out.gif" sample_frames _ _
              eq_refl Hrun) as (_ & _ & _ & _ & _ & Hlen & _).
  exact Hlen.
Defined.

(** ** The whole run *)

Section run.
Context `{Collab}.

Lemma gif_loop_total (out : string) (names : list string)
    (acc : list image_array * filesystem) :
  (∀ content, is_Some (imread_decode content)) →
  NoDup names → out ∉ names → Forall (λ n, is_Some (acc.2 !! n)) names →
  is_Some (gif_loop out acc names).
Proof.
  intros Hdec. revert acc.
  induction names as [|name rest IH]; intros [frames fs] Hnd Hout Hall; simpl.
  { by eexists. }
  apply NoDup_cons in Hnd as [Hname Hnd].
  apply not_elem_of_cons in Hout as [Hne Hout].
  apply Forall_cons in Hall as [[content Hc] Hall]. simpl in Hc.
  rewrite Hc. simpl. destruct (Hdec content) as [img ->]. simpl.
  apply IH; [done..|]. simpl.
  apply Forall_forall. intros q Hq.
  rewrite lookup_delete_ne by (by intros ->).
  rewrite lookup_insert_ne by (by intros ->).
  by eapply Forall_forall in Hall.
Qed.

(** With a decoder that accepts every frame file, [make_gif] does not
    raise. *)
Lemma make_gif_total (filename : string) (fs : filesystem) :
  (∀ content, is_Some (imread_decode content)) →
  frame_path filename = false →
  is_Some (make_gif filename fs).
Proof.
  intros Hdec Hout. unfold make_gif. cbn zeta.
  apply gif_loop_total; [done| | |].
  - rewrite sorted_Permutation. apply NoDup_glob_frames.
  - rewrite sorted_Permutation, elem_of_glob_frames. intros [_ ?]. congruence.
  - apply Forall_forall. intros q. rewrite sorted_Permutation, elem_of_glob_frames.
    by intros [? _].
Qed.

(** Once the model is built, [main] runs to its end. *)
Lemma main_total (args : Args) (fs : filesystem) (m : Model) :
  make_reference_image_flag args = 0%Z →
  Model_init fs (filename_obj args) (Some (filename_ref args)) = Some m →
  (∀ content, is_Some (imread_decode content)) →
  frame_path (filename_output args) = false →
  is_Some (main args fs).
Proof.
  intros Hflag Hinit Hdec Hout. unfold main. rewrite Hflag.
  destruct (decide (0%Z ≠ 0%Z)) as [?|_]; [done|].
  cbn [mbind option_bind]. rewrite Hinit. cbn [mbind option_bind].
  pose proof (train_loop_total (seq 0 iteration_bound)
                {| model := cuda m;
                   optimizer := Adam (parameter_names (cuda m)) (1 / 10);
                   files := fs |}
                (Model_init_ready _ _ _ _ Hinit)) as Hloop.
  destruct (train_loop _ _) as [tr r]. cbn [snd] in Hloop.
  destruct Hloop as [st ->]. cbn [mbind option_bind].
  destruct (make_gif_total (filename_output args) (files st) Hdec Hout) as [[frames fs2] ->].
  cbn [mbind option_bind]. by eexists.
Qed.

End run.

Lemma main_sample_runs :
  is_Some (@main sample_collab
             {| filename_obj := "teapot.obj"; filename_ref := "ref.png";
                filename_output := "/tmp/out.gif"; make_reference_image_flag := 0;
                gpu := 0 |}
             sample_files).
Proof.
  eapply (@main_total sample_collab); [reflexivity|apply sample_model_init| |reflexivity].
  intros content. by eexists.
Qed.

(** ** The GPU flag *)

(** C10: two runs of [main] whose arguments differ only in [--gpu] have the
    same outcome: the same model on the same device, the same losses, the
    same frames and the same files. *)
Theorem main_ignores_gpu `{Collab} (a1 a2 : Args) (fs : filesystem) :
  filename_obj a1 = filename_obj a2 → filename_ref a1 = filename_ref a2 →
  filename_output a1 = filename_output a2 →
  make_reference_image_flag a1 = make_reference_image_flag a2 →
  main a1 fs = main a2 fs.
Proof.
  intros Hobj Href Hout Hflag. unfold main. by rewrite Hobj, Href, Hout, Hflag.
Qed.

Lemma main_ignores_gpu_witness :
  @main sample_collab
    {| filename_obj := "teapot.obj"; filename_ref := "ref.png";
       filename_output := "/tmp/out.gif"; make_reference_image_flag := 0; gpu := 0 |}
    sample_files
  = @main sample_collab
    {| filename_obj := "teapot.obj"; filename_ref := "ref.png";
       filename_output := "/tmp/out.gif"; make_reference_image_flag := 0; gpu := 3 |}
    sample_files.
Proof.
  apply (@main_ignores_gpu sample_collab); reflexivity.
Defined.

(** * Further properties *)

(** ** Building the model *)

Section building.
Context `{Collab}.

Lemma Model_init_inv (fs : filesystem) (obj : string) (ref : option string) (m : Model) :
  Model_init fs obj ref = Some m →
  ∃ content v f v1 f1 nfaces image_ref,
    fs !! obj = Some content ∧ load_obj content = Some (v, f) ∧
    index_none_2 v = Some v1 ∧ index_none_2 f = Some f1 ∧
    shape f1 !! 1 = Some nfaces ∧
    load_reference fs ref = Some image_ref ∧
    m = {| buffers :=
             <["image_ref" := FloatTensor image_ref]>
               (<["textures" := FloatTensor (ones [1; nfaces; 2; 2; 2; 3])]>
                  (<["faces" := IntTensor f1]>
                     (<["vertices" := FloatTensor v1]> ∅)));
           parameters := {[ "camera_position" := initial_camera_position ]};
           renderer := {| camera_mode := "look_at";
                          eye := EyeParameter "camera_position" |};
           placed_on := CPU |}.
Proof.
  unfold Model_init. intros Hm.
  destruct (fs !! obj) as [content|] eqn:E1; simpl in Hm; [|done].
  destruct (load_obj content) as [[v f]|] eqn:E2; simpl in Hm; [|done].
  destruct (index_none_2 v) as [v1|] eqn:E3; simpl in Hm; [|done].
  destruct (index_none_2 f) as [f1|] eqn:E4; simpl in Hm; [|done].
  destruct (shape f1 !! 1%nat) as [nfaces|] eqn:E5; simpl in Hm; [|done].
  destruct (load_reference fs ref) as [image_ref|] eqn:E6; simpl in Hm; [|done].
  injection Hm as <-. exists content, v, f, v1, f1, nfaces, image_ref.
  repeat split; assumption.
Qed.

Lemma make_reference_image_None (fs : filesystem) (filename_ref filename_obj : string) :
  make_reference_image fs filename_ref filename_obj = None.
Proof.
  unfold make_reference_image.
  destruct (Model_init fs filename_obj None) as [m|] eqn:Hm; [|done].
  apply Model_init_inv in Hm as (? & ? & ? & ? & ? & ? & ? & _ & _ & _ & _ & _ & Href & _).
  done.
Qed.

(** X1: [make_reference_image] builds its model without a reference file,
    [imread(None)] raises, and so it never returns; [main] called with a
    nonzero [--make_reference_image] raises before it trains. *)
Theorem make_reference_image_raises (args : Args) (fs : filesystem) :
  make_reference_image_flag args ≠ 0%Z →
  make_reference_image fs (filename_ref args) (filename_obj args) = None ∧
  main args fs = None.
Proof.
  intros Hflag. split; [apply make_reference_image_None|].
  unfold main. rewrite decide_True by done. by rewrite make_reference_image_None.
Qed.

End building.

Lemma make_reference_image_raises_witness :
  @main sample_collab
    {| filename_obj := "teapot.obj"; filename_ref := "ref.png";
       filename_output := "/tmp/out.gif"; make_reference_image_flag := 1; gpu := 0 |}
    sample_files = None.
Proof.
  refine (proj2 (@make_reference_image_raises sample_collab _ sample_files _)).
  done.
Defined.

Section constructor.
Context `{Collab}.

(** X2: [Model.__init__] with a reference file returns exactly when the
    mesh file is there and loads into vertices and faces of at least two
    axes each and the reference loads.  The model then has the four
    buffers [vertices], [faces], [textures] and [image_ref], the first two
    with a leading axis of size one, the textures all ones with
    [2 * 2 * 2 * 3] values for each face; its only parameter is
    [camera_position], at [(6, 10, -14)], and the eye of the renderer is
    that parameter. *)
Theorem Model_init_spec (fs : filesystem) (obj ref : string) :
  (is_Some (Model_init fs obj (Some ref)) ↔
   ∃ content v f,
     fs !! obj = Some content ∧ load_obj content = Some (v, f) ∧
     2 ≤ length (shape v) ∧ 2 ≤ length (shape f) ∧
     is_Some (load_reference fs (Some ref))) ∧
  (∀ m, Model_init fs obj (Some ref) = Some m →
     parameter_names m = ["camera_position"] ∧
     renderer_eye m = Some initial_camera_position ∧
     eye (renderer m) = EyeParameter "camera_position" ∧
     placed_on m = CPU ∧
     dom (buffers m) = {[ "vertices"; "faces"; "textures"; "image_ref" ]} ∧
     ∃ content v f nfaces textures,
       fs !! obj = Some content ∧ load_obj content = Some (v, f) ∧
       float_buffer m "vertices" = Some (NdArray (1 :: shape v) (data v)) ∧
       int_buffer m "faces" = Some (NdArray (1 :: shape f) (data f)) ∧
       shape f !! 0 = Some nfaces ∧
       float_buffer m "textures" = Some textures ∧
       shape textures = [1; nfaces; 2; 2; 2; 3] ∧
       length (data textures) = 24 * nfaces ∧
       Forall (λ x, x = Fin 1) (data textures) ∧
       (FloatTensor <$> load_reference fs (Some ref)) = buffers m !! "image_ref").
Proof.
  split.
  - split.
    + intros [m Hm].
      destruct (Model_init_inv _ _ _ _ Hm)
        as (content & v & f & v1 & f1 & nfaces & image_ref
            & Hc & Hl & Hv & Hf & _ & Hr & _).
      exists content, v, f. unfold index_none_2 in Hv, Hf.
      repeat case_decide; try done; split_and!; try done; by eexists.
    + intros (content & v & f & Hc & Hl & Hv & Hf & [image_ref Hr]).
      unfold Model_init. rewrite Hc. cbn [mbind option_bind]. rewrite Hl.
      cbn [mbind option_bind]. unfold index_none_2. rewrite !decide_True by done.
      cbn [mbind option_bind shape].
      destruct (shape f) as [|nf [|k sh]] eqn:Hsh; cbn [length] in Hf; [lia..|].
      cbn [lookup list_lookup mbind option_bind]. rewrite Hr. by eexists.
  - intros m Hm.
    destruct (Model_init_inv _ _ _ _ Hm)
      as (content & v & f & v1 & f1 & nfaces & image_ref
          & Hc & Hl & Hv & Hf & Hn & Hr & ->).
    unfold index_none_2 in Hv, Hf. repeat case_decide; try done.
    injection Hv as <-. injection Hf as <-. cbn [shape] in Hn.
    split_and!.
    + unfold parameter_names. cbn [parameters]. by rewrite map_to_list_singleton.
    + unfold renderer_eye. cbn [renderer eye parameters]. apply lookup_singleton_eq.
    + done.
    + done.
    + cbn [buffers]. rewrite !dom_insert_L, dom_empty_L. set_solver.
    + exists content, v, f, nfaces, (ones [1; nfaces; 2; 2; 2; 3]).
      split_and!; try done.
      * unfold ones. cbn [data]. rewrite length_replicate. cbn [numel foldr]. lia.
      * unfold ones. cbn [data]. by apply Forall_replicate.
      * rewrite Hr. cbn [buffers]. by rewrite lookup_insert_eq.
Qed.

End constructor.

(** ** The frame files of a run *)

Lemma tmp_names_frame_path :
  Forall (λ p, frame_path p = true) (tmp_name <$> seq 0 1000).
Proof. apply (bool_decide_unpack _). vm_compute. exact I. Qed.

Lemma tmp_names_ascending :
  Sorted (λ a b, String.le a b ∧ a ≠ b) (tmp_name <$> seq 0 1000).
Proof. apply (bool_decide_unpack _). vm_compute. exact I. Qed.

Lemma tmp_names_NoDup : NoDup (tmp_name <$> seq 0 1000).
Proof.
  pose proof tmp_names_ascending as Hs.
  assert (Htrans : Transitive (λ a b : string, String.le a b ∧ a ≠ b)).
  { intros a b c [Hab Hne] [Hbc Hne']. split; [by etrans|].
    intros <-. apply Hne. by apply (anti_symm String.le). }
  apply Sorted_StronglySorted in Hs; [|done].
  induction Hs as [|x l _ IH Hall]; [apply NoDup_nil_2|].
  apply NoDup_cons. split; [|done].
  intros Hx. by destruct (proj1 (Forall_forall _ _) Hall x Hx).
Qed.

Lemma tmp_names_length :
  Forall (λ p, String.length p = 18) (tmp_name <$> seq 0 1000).
Proof. apply (bool_decide_unpack _). vm_compute. exact I. Qed.

Lemma tmp_names_lookup (i : nat) :
  i < iteration_bound → (tmp_name <$> seq 0 1000) !! i = Some (tmp_name i).
Proof.
  intros Hi. rewrite list_lookup_fmap.
  change 1000 with iteration_bound. by rewrite lookup_seq_lt.
Qed.

Lemma tmp_name_frame_path (i : nat) :
  i < iteration_bound → frame_path (tmp_name i) = true.
Proof.
  intros Hi.
  exact (proj1 (Forall_lookup _ _) tmp_names_frame_path _ _ (tmp_names_lookup i Hi)).
Qed.

Lemma tmp_name_inj (i j : nat) :
  i < iteration_bound → j < iteration_bound → tmp_name i = tmp_name j → i = j.
Proof.
  intros Hi Hj Heq.
  eapply (NoDup_lookup _ i j _ tmp_names_NoDup); [by apply tmp_names_lookup|].
  rewrite Heq. by apply tmp_names_lookup.
Qed.

Lemma tmp_names_prefix_NoDup (n : nat) :
  n ≤ iteration_bound → NoDup (tmp_name <$> seq 0 n).
Proof.
  intros Hn. pose proof tmp_names_NoDup as Hs.
  change 1000 with iteration_bound in Hs.
  replace iteration_bound with (n + (iteration_bound - n)) in Hs by lia.
  rewrite seq_app, fmap_app in Hs. by apply NoDup_app in Hs as [? _].
Qed.

(** X3: the frame file of every iteration the loop can reach is one that
    [make_gif] lists: its name matches [/tmp/_tmp_*.png]; the name has
    eighteen characters, and two iterations never share a name. *)
Theorem tmp_name_frames (i j : nat) :
  i < iteration_bound → j < iteration_bound →
  frame_path (tmp_name i) = true ∧ String.length (tmp_name i) = 18 ∧
  (tmp_name i = tmp_name j → i = j).
Proof.
  intros Hi Hj. split; [by apply tmp_name_frame_path|]. split; [|by apply tmp_name_inj].
  exact (proj1 (Forall_lookup _ _) tmp_names_length _ _ (tmp_names_lookup i Hi)).
Qed.

Lemma tmp_name_frames_witness :
  frame_path (tmp_name 7) = true ∧ String.length (tmp_name 7) = 18 ∧
  (tmp_name 7 = tmp_name 999 → 7 = 999).
Proof.
  apply (tmp_name_frames 7 999); unfold iteration_bound; lia.
Defined.

(** ** What the loop leaves behind *)

Section loop_effects.
Context `{Collab}.

Lemma step_parameter_registry (grads : gmap string tensor) (acc : Optimizer * Model)
    (name : string) :
  dom (parameters (step_parameter grads acc name).2) = dom (parameters acc.2) ∧
  lr (step_parameter grads acc name).1 = lr acc.1 ∧
  param_names (step_parameter grads acc name).1 = param_names acc.1.
Proof.
  destruct acc as [o m]. unfold step_parameter. cbn [fst snd].
  destruct (parameters m !! name) as [p|] eqn:Hp; [|done].
  destruct (grads !! name) as [g|]; [|done].
  destruct (adam_update o _ p g) as [s' p']. cbn [fst snd set_parameter parameters].
  split; [|done]. apply dom_insert_lookup_L. by eexists.
Qed.

Lemma optimizer_step_registry (o : Optimizer) (grads : gmap string tensor) (m : Model) :
  dom (parameters (optimizer_step o grads m).2) = dom (parameters m) ∧
  lr (optimizer_step o grads m).1 = lr o ∧
  param_names (optimizer_step o grads m).1 = param_names o.
Proof.
  unfold optimizer_step.
  enough (Hgen : ∀ l acc,
             dom (parameters (foldl (step_parameter grads) acc l).2) = dom (parameters acc.2) ∧
             lr (foldl (step_parameter grads) acc l).1 = lr acc.1 ∧
             param_names (foldl (step_parameter grads) acc l).1 = param_names acc.1)
    by apply (Hgen (param_names o) (o, m)).
  induction l as [|x l IH]; intros acc; simpl; [done|].
  destruct (IH (step_parameter grads acc x)) as (-> & -> & ->).
  apply step_parameter_registry.
Qed.

Lemma training_step_image (i : nat) (st st' : TrainState) (loss : xreal) :
  training_step i st = Some (st', loss) →
  ∃ images, rendered_images (model st') = Some images ∧
            files st' = <[tmp_name i := imsave_encode (first_image_hwc images)]> (files st).
Proof.
  unfold training_step. intros Hs.
  destruct (forward (model st)) as [l|]; simpl in Hs; [|done].
  destruct (backward (model st)) as [grads|]; simpl in Hs; [|done].
  destruct (optimizer_step _ grads _) as [o' m'].
  destruct (rendered_images m') as [images|] eqn:Hi; simpl in Hs; [|done].
  injection Hs as <- <-. by exists images.
Qed.

Lemma training_step_registry (i : nat) (st st' : TrainState) (loss : xreal) :
  training_step i st = Some (st', loss) →
  dom (parameters (model st')) = dom (parameters (model st)) ∧
  lr (optimizer st') = lr (optimizer st) ∧
  param_names (optimizer st') = param_names (optimizer st).
Proof.
  intros Hs. apply training_step_inv in Hs as (grads & _ & _ & -> & -> & _).
  apply optimizer_step_registry.
Qed.

(** The first components of the trace are the numbers of the range the
    loop went through. *)
Lemma train_loop_indices (range : list nat) (st : TrainState) :
  (train_loop range st).1.*1 = take (length (train_loop range st).1) range.
Proof.
  revert st. induction range as [|i rest IH]; intros st; cbn [train_loop]; [done|].
  destruct (training_step i st) as [[st1 loss]|]; [|done].
  destruct (xltb loss loss_threshold); [done|].
  specialize (IH st1). destruct (train_loop rest st1) as [tr r]. simpl in *.
  by f_equal.
Qed.

Lemma train_loop_frame (range : list nat) (st st' : TrainState)
    (tr : list (nat * xreal)) :
  train_loop range st = (tr, Some st') →
  buffers (model st') = buffers (model st) ∧
  renderer (model st') = renderer (model st) ∧
  placed_on (model st') = placed_on (model st) ∧
  dom (parameters (model st')) = dom (parameters (model st)) ∧
  lr (optimizer st') = lr (optimizer st) ∧
  param_names (optimizer st') = param_names (optimizer st) ∧
  ∀ n, eye (renderer (model st)) ≠ EyeParameter n →
       parameters (model st') !! n = parameters (model st) !! n.
Proof.
  revert st tr. induction range as [|i rest IH]; intros st tr; cbn [train_loop].
  { intros [= <- <-]. done. }
  destruct (training_step i st) as [[st1 loss]|] eqn:Hs; [|done].
  destruct (training_step_frame _ _ _ _ Hs) as (Hb & Hr & Hd & Hp).
  destruct (training_step_registry _ _ _ _ Hs) as (Hdom & Hlr & Hn).
  destruct (xltb loss loss_threshold).
  { intros [= <- <-]. done. }
  destruct (train_loop rest st1) as [tr1 r1] eqn:Hl. intros [= <- ->].
  destruct (IH _ _ Hl) as (-> & -> & -> & -> & -> & -> & Hp1).
  split_and!; [done..|]. intros n Hne. rewrite Hp1 by (by rewrite Hr). by apply Hp.
Qed.

Lemma train_loop_files_inv (range : list nat) (st st' : TrainState)
    (tr : list (nat * xreal)) :
  train_loop range st = (tr, Some st') →
  (∀ p, p ∉ tmp_name <$> tr.*1 → files st' !! p = files st !! p) ∧
  (∀ i, i ∈ tr.*1 → is_Some (files st' !! tmp_name i)) ∧
  (∀ e, last tr = Some e →
        ∃ images, rendered_images (model st') = Some images ∧
                  files st' !! tmp_name e.1
                  = Some (imsave_encode (first_image_hwc images))).
Proof.
  revert st tr. induction range as [|i rest IH]; intros st tr; cbn [train_loop].
  { intros [= <- <-]. split_and!; [done| |done]. intros i Hi. by apply elem_of_nil in Hi. }
  destruct (training_step i st) as [[st1 loss]|] eqn:Hs; [|done].
  destruct (training_step_image _ _ _ _ Hs) as (images & Himg & Hfs).
  destruct (xltb loss loss_threshold).
  { intros [= <- <-]. cbn. split_and!.
    - intros p Hp. rewrite Hfs. apply lookup_insert_ne. intros <-. apply Hp. by left.
    - intros j Hj. apply list_elem_of_singleton in Hj as ->.
      rewrite Hfs, lookup_insert_eq. by eexists.
    - intros e [= <-]. exists images. split; [done|]. cbn. by rewrite Hfs, lookup_insert_eq. }
  destruct (train_loop rest st1) as [tr1 r1] eqn:Hl. intros [= <- ->].
  destruct (IH _ _ Hl) as (Hother & Hframes & Hlast).
  assert (Hfirst : is_Some (files st' !! tmp_name i)).
  { destruct (decide (tmp_name i ∈ tmp_name <$> tr1.*1)) as [Hin|Hnin].
    - apply list_elem_of_fmap in Hin as (j & -> & Hj). by apply Hframes.
    - rewrite Hother by done. rewrite Hfs, lookup_insert_eq. by eexists. }
  split_and!.
  - intros p Hp. rewrite fmap_cons, fmap_cons in Hp. cbn [fst] in Hp.
    apply not_elem_of_cons in Hp as [Hne Hp].
    rewrite Hother by done. rewrite Hfs. by apply lookup_insert_ne.
  - intros j Hj. rewrite fmap_cons in Hj. cbn [fst] in Hj.
    apply elem_of_cons in Hj as [->|Hj]; [done|by apply Hframes].
  - intros e He. destruct tr1 as [|e1 tr1].
    + injection He as <-. cbn [fst].
      cbn [train_loop] in Hl. destruct rest as [|k rest].
      * injection Hl as <-. exists images. split; [done|]. by rewrite Hfs, lookup_insert_eq.
      * cbn [train_loop] in Hl.
        destruct (training_step k st1) as [[st2 l2]|]; [|done].
        destruct (xltb l2 loss_threshold); [done|].
        by destruct (train_loop rest st2).
    + apply Hlast. by rewrite last_cons_cons in He.
Qed.

(** X4: when the loop ends without raising, every iteration it completed
    has left a file at its frame path, every other path holds what it held
    before the loop, and the frame file of the last iteration is the encoded
    render of the model the loop ends with. *)
Theorem train_loop_files (range : list nat) (st st' : TrainState)
    (tr : list (nat * xreal)) :
  train_loop range st = (tr, Some st') →
  tr.*1 = take (length tr) range ∧
  (∀ i, i ∈ tr.*1 → is_Some (files st' !! tmp_name i)) ∧
  (∀ p, p ∉ tmp_name <$> tr.*1 → files st' !! p = files st !! p) ∧
  (∀ i loss, last tr = Some (i, loss) →
     ∃ images, rendered_images (model st') = Some images ∧
               files st' !! tmp_name i = Some (imsave_encode (first_image_hwc images))).
Proof.
  intros Hl. destruct (train_loop_files_inv _ _ _ _ Hl) as (Hother & Hframes & Hlast).
  split_and!; [|done..|].
  - pose proof (train_loop_indices range st) as Hi. by rewrite Hl in Hi.
  - intros i loss He. by apply Hlast in He.
Qed.

End loop_effects.

Lemma train_loop_files_witness :
  ∃ tr st',
    @train_loop sample_collab (seq 0 3) sample_start = (tr, Some st') ∧
    tr.*1 = take (length tr) (seq 0 3) ∧
    (∀ i, i ∈ tr.*1 → is_Some (files st' !! tmp_name i)) ∧
    (∀ p, p ∉ tmp_name <$> tr.*1 → files st' !! p = files sample_start !! p) ∧
    (∀ i loss, last tr = Some (i, loss) →
       ∃ images, @rendered_images sample_collab (model st') = Some images ∧
                 files st' !! tmp_name i
                 = Some (@imsave_encode sample_collab (@first_image_hwc sample_collab images))).
Proof.
  pose proof (@train_loop_total sample_collab (seq 0 3) sample_start sample_model_ready)
    as Hsome.
  destruct (@train_loop sample_collab (seq 0 3) sample_start) as [tr r] eqn:Hl.
  destruct Hsome as [st' Hr]. cbn [snd] in Hr. subst r.
  exists tr, st'. split; [reflexivity|].
  exact (@train_loop_files sample_collab (seq 0 3) sample_start st' tr Hl).
Defined.

(** ** The whole run, from the files it starts with to the files it leaves *)

Section run_effects.
Context `{Collab}.

Lemma main_inv (args : Args) (fs : filesystem) (run : Run) :
  main args fs = Some run →
  ∃ m st,
    make_reference_image_flag args = 0%Z ∧
    Model_init fs (filename_obj args) (Some (filename_ref args)) = Some m ∧
    train_loop (seq 0 iteration_bound)
      {| model := cuda m; optimizer := Adam (parameter_names (cuda m)) (1 / 10);
         files := fs |} = (run_trace run, Some st) ∧
    make_gif (filename_output args) (files st) = Some (run_frames run, run_files run) ∧
    run_model run = model st.
Proof.
  unfold main. intros Hm.
  destruct (decide (make_reference_image_flag args ≠ 0%Z)) as [Hflag|Hflag].
  { rewrite (make_reference_image_None fs) in Hm. done. }
  apply dec_stable in Hflag.
  cbn [mbind option_bind] in Hm.
  destruct (Model_init fs _ _) as [m|] eqn:Hinit; cbn [mbind option_bind] in Hm; [|done].
  destruct (train_loop _ _) as [tr r] eqn:Hl.
  destruct r as [st|]; cbn [mbind option_bind] in Hm; [|done].
  destruct (make_gif _ _) as [[frames fs2]|] eqn:Hg; cbn [mbind option_bind] in Hm; [|done].
  injection Hm as <-. by exists m, st.
Qed.

(** The frame files listed after the loop: those of the completed
    iterations, and the frame files that were there before and that no
    iteration has overwritten. *)
Lemma glob_frames_after_loop (st st' : TrainState) (tr : list (nat * xreal)) :
  train_loop (seq 0 iteration_bound) st = (tr, Some st') →
  tr.*1 = seq 0 (length tr) ∧ length tr ≤ iteration_bound ∧
  glob_frames (files st')
  ≡ₚ (tmp_name <$> seq 0 (length tr))
     ++ filter (λ p, p ∉ tmp_name <$> seq 0 (length tr)) (glob_frames (files st)).
Proof.
  intros Hl.
  pose proof (train_loop_trace 0 iteration_bound st) as (Hidx & _ & _).
  pose proof (train_loop_length_bounded (seq 0 iteration_bound) st) as Hlen.
  rewrite Hl in Hidx, Hlen. cbn [fst] in Hidx, Hlen. rewrite length_seq in Hlen.
  destruct (train_loop_files_inv _ _ _ _ Hl) as (Hother & Hframes & _).
  rewrite Hidx in Hother, Hframes.
  split; [done|]. split; [done|].
  assert (Hnd : NoDup (tmp_name <$> seq 0 (length tr))).
  { by apply tmp_names_prefix_NoDup. }
  apply NoDup_Permutation.
  - apply NoDup_glob_frames.
  - apply NoDup_app. split; [done|]. split; [|apply NoDup_filter, NoDup_glob_frames].
    intros p Hp Hq. apply list_elem_of_filter in Hq as [Hq _]. done.
  - intros p. rewrite elem_of_app, list_elem_of_filter, !elem_of_glob_frames.
    destruct (decide (p ∈ tmp_name <$> seq 0 (length tr))) as [Hin|Hnin].
    + split; [by left|]. intros _.
      apply list_elem_of_fmap in Hin as (i & -> & Hi). split; [by apply Hframes|].
      apply tmp_name_frame_path. apply elem_of_seq in Hi. lia.
    + rewrite Hother by done. tauto.
Qed.

End run_effects.

Lemma iteration_bound_pos : 1 ≤ iteration_bound.
Proof. unfold iteration_bound. apply le_n_S, Nat.le_0_l. Qed.

Section run_files.
Context `{Collab}.

Lemma make_gif_inv (filename : string) (fs fs' : filesystem) (frames : list image_array) :
  frame_path filename = false →
  make_gif filename fs = Some (frames, fs') →
  Forall2 (λ name frame, ∃ content, fs !! name = Some content ∧
                                    imread_decode content = Some frame)
          (sorted (glob_frames fs)) frames ∧
  fs' !! filename = Some (gif_encode frames) ∧
  (∀ p, frame_path p = true → fs' !! p = None) ∧
  (∀ p, frame_path p = false → p ≠ filename → fs' !! p = fs !! p).
Proof.
  intros Hout Hgif. unfold make_gif in Hgif. cbn zeta in Hgif.
  rewrite glob_frames_output in Hgif by done.
  set (names := sorted (glob_frames fs)) in *.
  set (fs0 := <[filename := gif_encode []]> fs) in *.
  assert (Hin : ∀ p, p ∈ names ↔ is_Some (fs !! p) ∧ frame_path p = true).
  { intros p. unfold names. by rewrite sorted_Permutation, elem_of_glob_frames. }
  assert (Hnd : NoDup names).
  { unfold names. rewrite sorted_Permutation. apply NoDup_glob_frames. }
  assert (Hnotin : filename ∉ names).
  { intros [_ Hp]%Hin. congruence. }
  assert (Hfs0 : ∀ p, p ≠ filename → fs0 !! p = fs !! p).
  { intros p Hp. unfold fs0. by rewrite lookup_insert_ne. }
  assert (Hw0 : fs0 !! filename = Some (gif_encode [])) by apply lookup_insert_eq.
  destruct (gif_loop_spec filename names ([], fs0) (frames, fs') Hgif Hnotin Hnd Hw0)
    as (new & Hnew & Hall & Hw & Hdel & Hoth).
  cbn [fst snd] in *. rewrite app_nil_l in Hnew. subst new.
  split_and!.
  - eapply Forall2_impl_elem; [exact Hall|]. intros name frame Hname (content & Hc & Hd).
    exists content. split; [|done]. rewrite <- Hfs0; [done|]. by intros ->.
  - done.
  - intros p Hp. destruct (decide (p ∈ names)) as [Hpin|Hpin]; [by apply Hdel|].
    assert (p ≠ filename) by (intros ->; congruence).
    rewrite Hoth, Hfs0 by done.
    destruct (fs !! p) eqn:Hfp; [|done]. exfalso. apply Hpin, Hin. by split; [eexists|].
  - intros p Hp Hne.
    assert (Hpin : p ∉ names) by (intros [_ ?]%Hin; congruence).
    by rewrite Hoth, Hfs0.
Qed.

(** X5: a run of [main] that ends has trained nothing but the camera
    position: the buffers of the model are those it was built with, the
    renderer still looks from the parameter [camera_position], which is
    still the only parameter, and the model is on the accelerator. *)
Theorem main_trains_camera_only (args : Args) (fs : filesystem) (run : Run) :
  main args fs = Some run →
  ∃ m0,
    Model_init fs (filename_obj args) (Some (filename_ref args)) = Some m0 ∧
    buffers (run_model run) = buffers m0 ∧
    renderer (run_model run)
    = {| camera_mode := "look_at"; eye := EyeParameter "camera_position" |} ∧
    placed_on (run_model run) = CUDA ∧
    dom (parameters (run_model run)) = {[ "camera_position" ]} ∧
    is_Some (renderer_eye (run_model run)).
Proof.
  intros (m0 & st & _ & Hinit & Hl & _ & Hm)%main_inv. exists m0. split; [done|].
  rewrite Hm.
  destruct (train_loop_frame _ _ _ _ Hl) as (Hb & Hr & Hd & Hdom & _).
  cbn [model cuda buffers renderer placed_on parameters] in Hb, Hr, Hd, Hdom.
  destruct (Model_init_inv _ _ _ _ Hinit)
    as (content & v & f & v1 & f1 & nfaces & image_ref & _ & _ & _ & _ & _ & _ & Hm0).
  assert (Hren : renderer m0
                 = {| camera_mode := "look_at"; eye := EyeParameter "camera_position" |})
    by (by rewrite Hm0).
  assert (Hpar : dom (parameters m0) = ({[ "camera_position" ]} : gset string)).
  { rewrite Hm0. cbn [parameters]. apply dom_singleton_L. }
  rewrite Hr, Hren in *. rewrite Hpar in Hdom.
  split_and!; [done..|].
  unfold renderer_eye. rewrite Hr. cbn [eye].
  apply elem_of_dom. rewrite Hdom. by apply elem_of_singleton.
Qed.

(** X6: a run of [main] that starts with no frame file in [/tmp] and
    writes its GIF somewhere else completes between one and a thousand
    iterations, and the GIF has one frame for each of them; the last
    frame is the decoded render of the model the run ends with. *)
Theorem main_gif_of_run (args : Args) (fs : filesystem) (run : Run) :
  main args fs = Some run →
  frame_path (filename_output args) = false →
  glob_frames fs = [] →
  1 ≤ length (run_trace run) ≤ iteration_bound ∧
  length (run_frames run) = length (run_trace run) ∧
  run_files run !! filename_output args = Some (gif_encode (run_frames run)) ∧
  ∃ images frame,
    rendered_images (run_model run) = Some images ∧
    imread_decode (imsave_encode (first_image_hwc images)) = Some frame ∧
    last (run_frames run) = Some frame.
Proof.
  intros (m0 & st & _ & Hinit & Hl & Hgif & Hm)%main_inv Hout Hclean.
  destruct (glob_frames_after_loop _ _ _ Hl) as (Hidx & Hle & Hperm).
  cbn [files] in Hperm. rewrite Hclean, filter_nil, app_nil_r in Hperm.
  destruct (train_loop_files_inv _ _ _ _ Hl) as (_ & _ & Hlast).
  pose proof (train_loop_trace 0 iteration_bound
                {| model := cuda m0; optimizer := Adam (parameter_names (cuda m0)) (1 / 10);
                   files := fs |}) as (_ & _ & Hend).
  rewrite Hl in Hend. cbn [fst snd] in Hend.
  destruct (make_gif_inv _ _ _ _ Hout Hgif) as (Hall & Hw & _ & _).
  rewrite (sorted_unique _ (tmp_name <$> seq 0 (length (run_trace run)))) in Hall;
    [|by apply tmp_names_prefix_Sorted|by symmetry].
  pose proof (Forall2_length _ _ _ Hall) as Hlen. rewrite length_fmap, length_seq in Hlen.
  assert (Hpos : 1 ≤ length (run_trace run)).
  { destruct Hend as [->|(e & He & _)]; [by eexists|apply iteration_bound_pos|].
    destruct (run_trace run); [done|]. cbn [length]. lia. }
  split; [done|]. split; [done|]. split; [done|].
  destruct (last (run_trace run)) as [e|] eqn:He.
  2:{ apply last_None in He. rewrite He in Hpos. cbn in Hpos. lia. }
  destruct (Hlast e eq_refl) as (images & Himg & Hfile).
  assert (He1 : e.1 = length (run_trace run) - 1).
  { pose proof (fmap_last fst (run_trace run)) as Hfl. rewrite He, Hidx in Hfl.
    destruct (length (run_trace run)) as [|k]; [lia|].
    rewrite seq_S, last_snoc in Hfl. cbn in Hfl. injection Hfl as <-. lia. }
  assert (Hname : (tmp_name <$> seq 0 (length (run_trace run))) !! (length (run_trace run) - 1)
                  = Some (tmp_name e.1)).
  { rewrite list_lookup_fmap, lookup_seq_lt by lia. cbn. by rewrite He1. }
  destruct (Forall2_lookup_l _ _ _ _ _ Hall Hname) as (frame & Hframe & content & Hc & Hd).
  rewrite Hfile in Hc. injection Hc as <-.
  exists images, frame. rewrite Hm. split; [done|]. split; [done|].
  rewrite last_lookup, <- Hlen. by replace (pred (length (run_trace run)))
    with (length (run_trace run) - 1) by lia.
Qed.

(** X7: after a run of [main] that writes its GIF outside the frame
    pattern, no file matching [/tmp/_tmp_*.png] is left, the output path
    holds the GIF, and every other file is as it was.  Frame files that
    were there before the run are swallowed: the GIF has one frame per
    completed iteration and one more for each such file that no iteration
    has overwritten. *)
Theorem main_files (args : Args) (fs : filesystem) (run : Run) :
  main args fs = Some run →
  frame_path (filename_output args) = false →
  (∀ p, frame_path p = true → run_files run !! p = None) ∧
  (∀ p, frame_path p = false → p ≠ filename_output args → run_files run !! p = fs !! p) ∧
  run_files run !! filename_output args = Some (gif_encode (run_frames run)) ∧
  length (run_frames run)
  = length (run_trace run)
    + length (filter (λ p, p ∉ tmp_name <$> seq 0 (length (run_trace run)))
                     (glob_frames fs)).
Proof.
  intros (m0 & st & _ & Hinit & Hl & Hgif & Hm)%main_inv Hout.
  destruct (glob_frames_after_loop _ _ _ Hl) as (Hidx & Hle & Hperm).
  cbn [files] in Hperm.
  destruct (train_loop_files_inv _ _ _ _ Hl) as (Hother & _ & _).
  cbn [files] in Hother. rewrite Hidx in Hother.
  destruct (make_gif_inv _ _ _ _ Hout Hgif) as (Hall & Hw & Hgone & Hkept).
  split_and!; [done| |done|].
  - intros p Hp Hne. rewrite Hkept by done. apply Hother.
    intros (i & -> & Hi)%list_elem_of_fmap. apply elem_of_seq in Hi.
    rewrite tmp_name_frame_path in Hp by lia. done.
  - apply Forall2_length in Hall. rewrite <- Hall.
    rewrite sorted_Permutation, Hperm, length_app, length_fmap, length_seq. done.
Qed.

End run_files.

Lemma main_trains_camera_only_witness :
  ∃ run,
    @main sample_collab
      {| filename_obj := "teapot.obj"; filename_ref := "ref.png";
         filename_output := "/tmp/out.gif"; make_reference_image_flag := 0; gpu := 0 |}
      sample_files = Some run ∧
    placed_on (run_model run) = CUDA ∧
    dom (parameters (run_model run)) = {[ "camera_position" ]}.
Proof.
  destruct main_sample_runs as [run Hrun]. exists run. split; [exact Hrun|].
  destruct (@main_trains_camera_only sample_collab _ _ _ Hrun)
    as (m0 & _ & _ & _ & Hd & Hp & _).
  split; [exact Hd|exact Hp].
Defined.

Lemma main_gif_of_run_witness :
  ∃ run,
    @main sample_collab
      {| filename_obj := "teapot.obj"; filename_ref := "ref.png";
         filename_output := "/tmp/out.gif"; make_reference_image_flag := 0; gpu := 0 |}
      sample_files = Some run ∧
    length (run_frames run) = length (run_trace run) ∧
    1 ≤ length (run_trace run).
Proof.
  destruct main_sample_runs as [run Hrun]. exists run. split; [exact Hrun|].
  destruct (@main_gif_of_run sample_collab _ _ _ Hrun eq_refl eq_refl)
    as ([Hpos _] & Hlen & _).
  split; [exact Hlen|exact Hpos].
Defined.

Lemma main_files_witness :
  ∃ run,
    @main sample_collab
      {| filename_obj := "teapot.obj"; filename_ref := "ref.png";
         filename_output := "/tmp/out.gif"; make_reference_image_flag := 0; gpu := 0 |}
      sample_files_stale = Some run ∧
    run_files run !! "/tmp/_tmp_old.png" = None ∧
    run_files run !! "teapot.obj" = Some "mesh".
Proof.
  destruct (@main_total sample_collab
              {| filename_obj := "teapot.obj"; filename_ref := "ref.png";
                 filename_output := "/tmp/out.gif"; make_reference_image_flag := 0;
                 gpu := 0 |}
              sample_files_stale
              {| buffers := buffers sample_model;
                 parameters := {[ "camera_position" := initial_camera_position ]};
                 renderer := {| camera_mode := "look_at";
                                eye := EyeParameter "camera_position" |};
                 placed_on := CPU |}
              eq_refl eq_refl (λ content, ex_intro _ _ eq_refl) eq_refl) as [run Hrun].
  exists run. split; [exact Hrun|].
  destruct (@main_files sample_collab _ _ _ Hrun eq_refl) as (Hgone & Hkept & _).
  split; [exact (Hgone "/tmp/_tmp_old.png" eq_refl)|].
  rewrite (Hkept "teapot.obj" eq_refl); [reflexivity|discriminate].
Defined.

(** ** Assembling twice *)

(** X8: [make_gif] consumes the frame files, so a second call with the
    same output finds none and replaces the animation by one without
    frames; nothing else changes. *)
Theorem make_gif_twice `{Collab} (filename : string) (fs fs' : filesystem)
    (frames : list image_array) :
  frame_path filename = false →
  make_gif filename fs = Some (frames, fs') →
  glob_frames fs' = [] ∧
  make_gif filename fs' = Some ([], <[filename := gif_encode []]> fs').
Proof.
  intros Hout Hgif. destruct (make_gif_inv _ _ _ _ Hout Hgif) as (_ & _ & Hgone & _).
  assert (Hnone : glob_frames fs' = []).
  { apply elem_of_nil_inv. intros p [[c Hc] Hp]%elem_of_glob_frames.
    rewrite (Hgone p Hp) in Hc. done. }
  split; [done|]. unfold make_gif. cbn zeta.
  rewrite glob_frames_output by done. rewrite Hnone. reflexivity.
Qed.

Lemma make_gif_twice_witness :
  ∃ frames fs',
    @make_gif sample_collab "/tmp/out.gif" sample_frames = Some (frames, fs') ∧
    @make_gif sample_collab "/tmp/out.gif" fs'
    = Some ([], <["/tmp/out.gif" := @gif_encode sample_collab []]> fs').
Proof.
  destruct (@make_gif_total sample_collab "/tmp/out.gif" sample_frames
              (λ content, ex_intro _ _ eq_refl) eq_refl) as [[frames fs'] Hgif].
  exists frames, fs'. split; [exact Hgif|].
  exact (proj2 (@make_gif_twice sample_collab "/tmp/out.gif" sample_frames fs' frames
                  eq_refl Hgif)).
Defined.

(** ** The loss against the threshold of the loop *)

Section threshold.
Local Open Scope R_scope.

Lemma pixel_entropy_binary (p : R) : p = 0 ∨ p = 1 → pixel_entropy p = 0.
Proof.
  unfold pixel_entropy. intros [->| ->]; [lra|].
  replace (1 / 1) with 1 by lra. rewrite ln_1. lra.
Qed.

Lemma Rsum_zero (l : list R) : Forall (λ x, x = 0) l → Rsum l = 0.
Proof.
  induction 1 as [|x l Hx _ IH]; [done|]. cbn [Rsum foldr]. fold (Rsum l). lra.
Qed.

Lemma silhouette_loss_cases (image : tensor) (ps : list R) :
  silhouette image ps →
  0 <= entropy_scalar ps ∧
  silhouette_loss image
  = if decide (entropy_scalar ps = 0) then PInf
    else Fin (1 / (entropy_scalar ps * 10)).
Proof.
  intros Hs. pose proof Hs as (_ & Hne & Hall).
  split; [by apply entropy_scalar_nonneg|].
  rewrite (silhouette_loss_fin _ _ Hs). unfold xdiv.
  destruct (decide (entropy_scalar ps = 0)) as [->|Hz].
  - rewrite decide_True by lra. unfold scale_inf.
    rewrite decide_False by lra. by rewrite decide_True by lra.
  - by rewrite decide_False by lra.
Qed.

(** X9: on a rendered silhouette [forward] returns a positive number or
    [+inf], and the test [loss < 70] of the loop succeeds exactly when the
    entropy scalar exceeds [1/700]; a silhouette whose pixels are all 0 or
    1 has entropy zero and the loss [+inf], which never passes the test. *)
Theorem loss_below_threshold `{Collab} (m : Model) (image : tensor) (ps : list R) :
  rendered_silhouette m = Some image → silhouette image ps →
  ∃ loss,
    forward m = Some loss ∧
    (xltb loss loss_threshold = true ↔ 1 / 700 < entropy_scalar ps) ∧
    (loss = PInf ∨ ∃ l, loss = Fin l ∧ 0 < l) ∧
    (Forall (λ p, p = 0 ∨ p = 1) ps →
     loss = PInf ∧ xltb loss loss_threshold = false).
Proof.
  intros Hr Hs. exists (silhouette_loss image).
  split; [unfold forward; by rewrite Hr|].
  destruct (silhouette_loss_cases _ _ Hs) as [Hnn ->].
  split_and!.
  - destruct (decide (entropy_scalar ps = 0)) as [->|Hz]; cbn.
    + split; [done|lra].
    + unfold xltb, loss_threshold. rewrite bool_decide_eq_true.
      assert (Hpos : 0 < entropy_scalar ps * 10) by lra.
      set (x := entropy_scalar ps * 10) in *.
      assert (Hx : 1 / x * x = 1) by (field; lra).
      split; intros Hlt.
      * apply (Rmult_lt_compat_r x) in Hlt; [|done]. rewrite Hx in Hlt. unfold x in Hlt. lra.
      * apply (Rmult_lt_reg_r x); [done|]. rewrite Hx. unfold x. lra.
  - destruct (decide (entropy_scalar ps = 0)) as [Hz|Hz]; [by left|right].
    eexists. split; [done|]. apply Rdiv_lt_0_compat; lra.
  - intros Hbin.
    assert (Hz : entropy_scalar ps = 0).
    { unfold entropy_scalar. rewrite Rsum_zero; [lra|].
      apply Forall_fmap. eapply Forall_impl; [exact Hbin|]. apply pixel_entropy_binary. }
    by rewrite decide_True.
Qed.

End threshold.

Lemma loss_below_threshold_witness :
  ∃ loss,
    @forward sample_collab (sample_model_at (NdArray [2] [Fin 0; Fin 1])) = Some loss ∧
    loss = PInf ∧ xltb loss loss_threshold = false.
Proof.
  destruct (@loss_below_threshold sample_collab
              (sample_model_at (NdArray [2] [Fin 0; Fin 1]))
              (NdArray [2] [Fin 0; Fin 1]) [0%R; 1%R] eq_refl)
    as (loss & Hf & _ & _ & Hbin).
  - split; [reflexivity|]. split; [discriminate|].
    apply Forall_cons. split; [lra|]. apply Forall_cons. split; [lra|]. apply Forall_nil_2.
  - exists loss. split; [exact Hf|]. apply Hbin.
    apply Forall_cons. split; [by left|]. apply Forall_cons. split; [by right|].
    apply Forall_nil_2.
Defined.

(** ** The loss on an image that is no silhouette *)

Lemma xsum_nan (l : list xreal) : NaN ∈ l → xsum l = NaN.
Proof.
  unfold xsum. induction l as [|x l IH]; [by intros ?%elem_of_nil|].
  intros [<-|Hin]%elem_of_cons; cbn [foldr]; [done|].
  rewrite IH by done. by destruct x.
Qed.

Lemma xsum_ninf (l : list xreal) :
  Forall (λ x, is_finite x ∨ x = NInf) l → NInf ∈ l → xsum l = NInf.
Proof.
  unfold xsum. induction 1 as [|x l Hx Hl IH]; [by intros ?%elem_of_nil|].
  assert (Htail : is_finite (foldr xadd (Fin 0) l) ∨ foldr xadd (Fin 0) l = NInf).
  { clear IH Hx. induction Hl as [|y l Hy _ IH]; cbn [foldr]; [by left|].
    destruct Hy as [Hy| ->], IH as [IH|IH].
    - left. by destruct y, (foldr xadd (Fin 0) l).
    - right. rewrite IH. by destruct y.
    - right. by destruct (foldr xadd (Fin 0) l).
    - right. by rewrite IH. }
  intros [<-|Hin]%elem_of_cons; cbn [foldr].
  - destruct Htail as [Ht| ->]; [|done]. by destruct (foldr xadd (Fin 0) l).
  - rewrite IH by done. destruct Hx as [Hx| ->]; [|done]. by destruct x.
Qed.

Lemma entr_finite_cases (a : R) :
  (0 <= a)%R ∧ is_finite (entr (Fin a)) ∨ (a < 0)%R ∧ entr (Fin a) = NInf.
Proof.
  destruct (Rle_dec 0 a) as [Ha|Ha].
  - left. split; [done|]. by rewrite entr_fin.
  - right. split; [lra|]. unfold entr, xgtb, xltb, xeqb.
    rewrite bool_decide_eq_false_2 by lra.
    rewrite bool_decide_eq_false_2; [done|]. intros [= ->]. lra.
Qed.

(** X10: the loss of [forward] on an image that is no silhouette.  One
    NaN pixel makes the loss NaN, and the test [loss < 70] of the loop
    fails.  On an image of finite pixels one negative pixel makes the
    entropy [-inf] and the loss zero, and the test succeeds: the loop
    stops after that iteration. *)
Theorem loss_outside_silhouette `{Collab} (m : Model) (image : tensor) :
  rendered_silhouette m = Some image →
  (NaN ∈ data image →
   forward m = Some NaN ∧ xltb NaN loss_threshold = false) ∧
  (Forall is_finite (data image) → (∃ a, Fin a ∈ data image ∧ (a < 0)%R) →
   forward m = Some (Fin 0) ∧ xltb (Fin 0) loss_threshold = true).
Proof.
  intros Hr. unfold forward. rewrite Hr. cbn [mbind option_bind].
  unfold silhouette_loss, tmean, xmean, amap. cbn [shape data]. split.
  - intros Hnan. split; [|done].
    rewrite xsum_nan; [done|]. apply list_elem_of_fmap. by exists NaN.
  - intros Hfin (a & Ha & Hneg). split.
    2:{ unfold xltb, loss_threshold. apply bool_decide_eq_true_2. lra. }
    rewrite xsum_ninf.
    + rewrite length_fmap.
      assert (Hlen : (0 < INR (length (data image)))%R).
      { apply lt_0_INR. destruct (data image); [by apply elem_of_nil in Ha|cbn; lia]. }
      cbn [xdiv]. rewrite decide_False by lra. cbn [xmul]. unfold scale_inf.
      rewrite decide_False by lra. rewrite decide_True by lra. done.
    + apply Forall_fmap. eapply Forall_impl; [exact Hfin|].
      intros [b| | |] Hb; try done. cbn.
      destruct (entr_finite_cases b) as [[_ ?]|[_ ?]]; [by left|by right].
    + apply list_elem_of_fmap. exists (Fin a). split; [|done].
      destruct (entr_finite_cases a) as [[? _]|[_ ?]]; [lra|done].
Qed.

Lemma loss_outside_silhouette_witness :
  @forward sample_collab sample_model = Some (Fin 0) ∧
  xltb (Fin 0) loss_threshold = true.
Proof.
  refine (proj2 (@loss_outside_silhouette sample_collab sample_model
                   initial_camera_position eq_refl) _ _).
  - repeat constructor.
  - exists (-14)%R. split; [|lra]. cbn. do 2 right. by left.
Defined.

(** ** The first step of the optimizer *)

Section first_step.
Local Open Scope R_scope.

(** From a fresh state the bias corrections cancel the decay rates: the
    displacement of a component is the learning rate times
    [g / (|g| + eps)]. *)
Lemma adam_first_step_scalar (o : Optimizer) (p g : R) :
  default_constants o →
  adam_scalar o 1 (Fin 0) (Fin 0) (Fin p) (Fin g)
  = Fin (p - 1 / 10 * (g / (Rabs g + / 10 ^ 8))).
Proof.
  intros Hdef. pose proof Hdef as (Hlr & Hb1 & Hb2 & He).
  unfold adam_scalar. rewrite adam_moment1_fin, adam_moment2_fin by done.
  unfold adam_delta. rewrite Hlr, Hb1, Hb2, He.
  assert (Heps : 0 < / 10 ^ 8) by (apply Rinv_0_lt_compat, pow_lt; lra).
  rewrite !xdiv_fin by (cbn [pow]; lra).
  replace ((9 / 10 * 0 + (1 - 9 / 10) * g) / (1 - (9 / 10) ^ 1)) with g
    by (cbn [pow]; field).
  replace ((999 / 1000 * 0 + (1 - 999 / 1000) * (g * g)) / (1 - (999 / 1000) ^ 1))
    with (Rsqr g) by (unfold Rsqr; cbn [pow]; field).
  rewrite xsqrt_fin by apply Rle_0_sqr. rewrite sqrt_Rsqr_abs. cbn [xadd].
  pose proof (Rabs_pos g) as Habs.
  assert (Hden : Rabs g + / 10 ^ 8 ≠ 0).
  { revert Habs Heps. generalize (Rabs g), (/ 10 ^ 8). intros; lra. }
  rewrite xdiv_fin by done. cbn [xmul xsub xneg xadd]. f_equal.
Qed.

Lemma adam_first_displacement (g : R) :
  let d := 1 / 10 * (g / (Rabs g + / 10 ^ 8)) in
  Rabs d < 1 / 10 ∧ (0 < g → 0 < d) ∧ (g < 0 → d < 0) ∧ (g = 0 → d = 0).
Proof.
  intros d.
  assert (Heps : 0 < / 10 ^ 8) by (apply Rinv_0_lt_compat, pow_lt; lra).
  pose proof (Rabs_pos g) as Habs.
  set (e := / 10 ^ 8) in *. clearbody e.
  assert (Hden : 0 < Rabs g + e) by lra.
  assert (Hinv : 0 < / (Rabs g + e)) by (by apply Rinv_0_lt_compat).
  assert (Hq : Rabs g * / (Rabs g + e) < 1).
  { apply (Rmult_lt_reg_r (Rabs g + e)); [done|].
    rewrite Rmult_assoc, Rinv_l by lra. lra. }
  assert (Hd : Rabs d = 1 / 10 * (Rabs g * / (Rabs g + e))).
  { unfold d. rewrite Rabs_mult, (Rabs_pos_eq (1 / 10)) by lra. f_equal.
    unfold Rdiv. rewrite Rabs_mult. f_equal. apply Rabs_pos_eq. lra. }
  split_and!.
  - rewrite Hd. lra.
  - intros Hg. unfold d, Rdiv. apply Rmult_lt_0_compat; [lra|].
    by apply Rmult_lt_0_compat.
  - intros Hg. unfold d, Rdiv.
    assert (g * / (Rabs g + e) < 0); [|lra].
    rewrite <- (Rmult_0_l (/ (Rabs g + e))). by apply Rmult_lt_compat_r.
  - intros ->. unfold d, Rdiv. lra.
Qed.

(** X11: the first step of the optimizer [main] constructs moves a
    finite component of the camera position with finite gradient
    component [g] by [0.1 * g / (|g| + 1e-8)]: against the sign of the
    gradient, by less than the learning rate, whatever the size of the
    gradient. *)
Theorem first_step_bounded `{Collab} (i : nat) (st st' : TrainState) (loss : xreal)
    (p g : tensor) (j : nat) (pj gj : R) :
  training_step i st = Some (st', loss) →
  optimizer st = Adam ["camera_position"] (1 / 10) →
  parameters (model st) !! "camera_position" = Some p →
  backward (model st) = Some {[ "camera_position" := g ]} →
  data p !! j = Some (Fin pj) → data g !! j = Some (Fin gj) →
  ∃ p' pj',
    parameters (model st') !! "camera_position" = Some p' ∧
    data p' !! j = Some (Fin pj') ∧
    pj' = pj - 1 / 10 * (gj / (Rabs gj + / 10 ^ 8)) ∧
    Rabs (pj' - pj) < 1 / 10 ∧
    (0 < gj → pj' < pj) ∧ (gj < 0 → pj < pj') ∧ (gj = 0 → pj' = pj).
Proof.
  intros Hstep Hopt Hp Hback Hpj Hgj.
  assert (Hnames : param_names (optimizer st) = ["camera_position"]) by (by rewrite Hopt).
  destruct (training_step_camera i st st' loss p g Hstep Hnames Hp Hback) as [Hm _].
  cbn zeta in Hm.
  assert (Hfresh : default (adam_fresh p) (opt_state (optimizer st) !! "camera_position")
                   = adam_fresh p).
  { rewrite Hopt. cbn [opt_state Adam]. by rewrite lookup_empty. }
  rewrite Hfresh in Hm.
  destruct (adam_update_lookup (optimizer st) (adam_fresh p) p g j
              (Fin pj) (Fin gj) (Fin 0) (Fin 0)) as (_ & _ & Hlk); [done|done| | |].
  { by eapply zeros_like_lookup. }
  { by eapply zeros_like_lookup. }
  cbn [adam_step adam_fresh] in Hlk.
  rewrite adam_first_step_scalar in Hlk by (rewrite Hopt; apply Adam_default_constants).
  destruct (adam_first_displacement gj) as (Habs & Hpos & Hneg & Hzero).
  cbn zeta in *.
  set (d := 1 / 10 * (gj / (Rabs gj + / 10 ^ 8))) in *.
  exists (adam_update (optimizer st) (adam_fresh p) p g).2, (pj - d).
  split_and!.
  - rewrite Hm. unfold set_parameter. cbn [parameters]. apply lookup_insert_eq.
  - done.
  - done.
  - replace (pj - d - pj) with (- d) by lra. by rewrite Rabs_Ropp.
  - intros Hg%Hpos. lra.
  - intros Hg%Hneg. lra.
  - intros Hg%Hzero. lra.
Qed.

End first_step.

Lemma first_step_bounded_witness :
  ∃ p' pj',
    parameters (model sample_step1.1) !! "camera_position" = Some p' ∧
    data p' !! 0 = Some (Fin pj') ∧ (pj' < 6)%R ∧ (Rabs (pj' - 6) < 1 / 10)%R.
Proof.
  assert (Hopt : optimizer sample_start = Adam ["camera_position"] (1 / 10)).
  { unfold sample_start. cbn [optimizer]. by rewrite sample_parameter_names. }
  destruct (@first_step_bounded sample_collab 0 sample_start sample_step1.1 sample_step1.2
              initial_camera_position ones3 0 6 1
              sample_step1_eq Hopt eq_refl sample_backward_initial eq_refl eq_refl)
    as (p' & pj' & Hp & Hj & _ & Habs & Hlt & _).
  exists p', pj'. split; [exact Hp|]. split; [exact Hj|]. split; [|exact Habs].
  apply Hlt. lra.
Defined.

(** ** The axis and the value of [entropy] *)

Lemma length_bind_const {A B} (f : A → list B) (l : list A) (k : nat) :
  (∀ x, length (f x) = k) → length (l ≫= f) = length l * k.
Proof.
  intros Hf. induction l as [|x l IH]; [done|].
  rewrite bind_cons, length_app, Hf, IH. simpl. lia.
Qed.

Lemma sum_dim_None (t : tensor) (dim : Z) (keepdim : bool) :
  sum_dim t dim keepdim = None
  ↔ ¬ (- Z.of_nat (length (shape t)) ≤ dim < Z.of_nat (length (shape t)))%Z.
Proof. unfold sum_dim. case_decide; [|done]. split; [done|tauto]. Qed.

Lemma sum_dim_negative (t : tensor) (dim : Z) (keepdim : bool) :
  (- Z.of_nat (length (shape t)) ≤ dim < 0)%Z →
  sum_dim t dim keepdim = sum_dim t (dim + Z.of_nat (length (shape t))) keepdim.
Proof.
  intros Hd. unfold sum_dim.
  rewrite !decide_True by lia.
  replace ((dim + Z.of_nat (length (shape t))) `mod` Z.of_nat (length (shape t)))%Z
    with (dim `mod` Z.of_nat (length (shape t)))%Z; [done|].
  symmetry. rewrite <- (Z.mul_1_l (Z.of_nat (length (shape t)))) at 1.
  apply Z_mod_plus_full.
Qed.

Lemma sum_dim_shape (t r : tensor) (dim : Z) (keepdim : bool) :
  sum_dim t dim keepdim = Some r →
  let d := Z.to_nat (dim `mod` Z.of_nat (length (shape t))) in
  d < length (shape t) ∧
  shape r = take d (shape t) ++ (if keepdim then [1] else []) ++ drop (S d) (shape t) ∧
  well_shaped r.
Proof.
  unfold sum_dim. case_decide as Hd; [|done]. intros [= <-]. cbn zeta.
  split.
  { assert (0 ≤ dim `mod` Z.of_nat (length (shape t))
            < Z.of_nat (length (shape t)))%Z by (apply Z.mod_pos_bound; lia). lia. }
  split; [done|]. unfold well_shaped. cbn [shape data].
  rewrite (length_bind_const _ _ (numel (drop (S (Z.to_nat (dim `mod` Z.of_nat (length (shape t)))))
                                             (shape t)))).
  - rewrite length_seq, !numel_app. destruct keepdim; cbn [numel foldr]; lia.
  - intros o. rewrite (length_bind_const _ _ 1); [rewrite length_seq; lia|done].
Qed.

(** X12: called with the default [keepdim=None] of the script, [entropy]
    raises whatever [p] and [dim] are: [sum] takes no [None] there.  With
    a boolean [keepdim] it raises exactly when [dim] is outside [-n, n),
    for [n] the number of axes of [p] (one for a tensor without axes, which
    [where] broadcasts against the one-element zero); a negative [dim]
    counts from the last axis; the result has the shape of [p] with the
    axis removed, or kept with size one under [keepdim], and as many
    elements as that shape asks for. *)
Theorem entropy_axis (p : tensor) (dim : Z) (keepdim : bool) :
  let sh := broadcast_shape (shape p) in
  let nd := Z.of_nat (length sh) in
  let d := Z.to_nat (dim `mod` nd) in
  entropy_call p dim None = None ∧
  entropy_call p dim (Some keepdim) = entropy p dim keepdim ∧
  (1 ≤ nd)%Z ∧
  (entropy_call p dim (Some keepdim) = None ↔ ¬ (- nd ≤ dim < nd)%Z) ∧
  ((- nd ≤ dim < 0)%Z →
   entropy_call p dim (Some keepdim) = entropy_call p (dim + nd) (Some keepdim)) ∧
  (∀ r, entropy_call p dim (Some keepdim) = Some r →
        d < length sh ∧
        shape r = take d sh ++ (if keepdim then [1] else []) ++ drop (S d) sh ∧
        well_shaped r).
Proof.
  intros sh nd d. split; [done|]. split; [done|].
  unfold entropy_call. cbn [mbind option_bind].
  unfold entropy. rewrite where_selects. fold sh.
  set (t := NdArray sh (contribution <$> data p)).
  split_and!.
  - unfold nd, sh. destruct (shape p); simpl; lia.
  - rewrite fmap_None. apply (sum_dim_None t).
  - intros Hd. by rewrite (sum_dim_negative t).
  - intros r Hr. apply fmap_Some in Hr as (s & Hs & ->).
    apply sum_dim_shape in Hs as (Hlt & Hsh & Hws). cbn [shape t] in *.
    split; [done|]. split; [done|].
    unfold well_shaped, amap. cbn [shape data]. by rewrite length_fmap.
Qed.

(** ** [entropy] on a vector of probabilities *)

Section distribution.
Local Open Scope R_scope.

Lemma contribution_pixel_entropy (a : R) :
  0 <= a → contribution (Fin a) = Fin (- pixel_entropy a).
Proof.
  intros Ha. unfold pixel_entropy. destruct (decide (a = 0)) as [->|Hne].
  - rewrite contribution_zero. f_equal. lra.
  - rewrite contribution_pos by lra. f_equal.
    replace (1 / a) with (/ a) by lra. rewrite ln_Rinv by lra. lra.
Qed.

Lemma seq_lookup_all {A} (d : A) (l : list A) :
  (λ k, default d (l !! k)) <$> seq 0 (length l) = l.
Proof.
  apply list_eq. intros i. rewrite list_lookup_fmap.
  destruct (decide (i < length l)%nat) as [Hi|Hi].
  - rewrite lookup_seq_lt by done. cbn.
    destruct (lookup_lt_is_Some_2 l i Hi) as [x Hx]. by rewrite Hx.
  - rewrite lookup_seq_ge by lia. cbn. symmetry. apply lookup_ge_None. lia.
Qed.

Lemma sum_dim_vector (l : list xreal) :
  sum_dim (NdArray [length l] l) (-1) false = Some (NdArray [] [xsum l]).
Proof.
  unfold sum_dim. cbn [shape data length].
  rewrite decide_True by lia.
  change (Z.to_nat ((-1) `mod` Z.of_nat 1)%Z) with 0%nat.
  cbn [take drop numel foldr lookup list_lookup default app seq].
  change (Datatypes.id (length l)) with (length l).
  cbn [mbind list_bind app seq]. do 3 f_equal.
  rewrite <- (seq_lookup_all (Fin 0) l) at 2. f_equal.
  apply list_fmap_ext. intros i k _. do 2 f_equal. lia.
Qed.

Lemma Rsum_ext_neg (l : list R) : Rsum (Ropp <$> l) = - Rsum l.
Proof.
  unfold Rsum. induction l as [|x l IH]; cbn [fmap list_fmap foldr]; [lra|].
  fold (Ropp <$> l). rewrite IH. lra.
Qed.

Lemma entropy_vector (ps : list R) :
  Forall (λ a, 0 <= a) ps →
  entropy (NdArray [length ps] (Fin <$> ps)) (-1) false
  = Some (NdArray [] [Fin (Rsum (pixel_entropy <$> ps))]).
Proof.
  intros Hnn. unfold entropy. rewrite where_selects. cbn [shape data broadcast_shape].
  replace (contribution <$> (Fin <$> ps)) with (Fin <$> (Ropp <$> (pixel_entropy <$> ps))).
  2:{ rewrite <- !list_fmap_compose. apply list_fmap_ext. intros i a Ha. cbn.
      symmetry. apply contribution_pixel_entropy.
      by eapply Forall_lookup_1 in Hnn. }
  replace (length ps) with (length (Fin <$> (Ropp <$> (pixel_entropy <$> ps))))
    by (by rewrite !length_fmap).
  rewrite sum_dim_vector. cbn [fmap option_fmap option_map]. unfold amap.
  cbn [shape data fmap list_fmap]. rewrite xsum_fin, Rsum_ext_neg. cbn [xneg].
  by rewrite Ropp_involutive.
Qed.

(** X13: on a vector of non-negative numbers [entropy] along the last
    axis is the sum of [p * ln (1 / p)], the quantity [entr(p).sum()];
    it is non-negative when no entry exceeds one, zero on a vector of
    zeros and ones, and [ln n] on the uniform distribution over [n]
    outcomes. *)
Theorem entropy_of_distribution (ps : list R) :
  Forall (λ a, 0 <= a) ps →
  entropy (NdArray [length ps] (Fin <$> ps)) (-1) false
  = Some (NdArray [] [Fin (Rsum (pixel_entropy <$> ps))]) ∧
  xsum (entr <$> (Fin <$> ps)) = Fin (Rsum (pixel_entropy <$> ps)) ∧
  (Forall (λ a, a <= 1) ps → 0 <= Rsum (pixel_entropy <$> ps)) ∧
  (Forall (λ a, a = 0 ∨ a = 1) ps → Rsum (pixel_entropy <$> ps) = 0) ∧
  (∀ n, (0 < n)%nat → ps = replicate n (/ INR n) →
        Rsum (pixel_entropy <$> ps) = ln (INR n)).
Proof.
  intros Hnn. split_and!.
  - by apply entropy_vector.
  - rewrite <- list_fmap_compose.
    replace (entr ∘ Fin <$> ps) with (Fin <$> (pixel_entropy <$> ps)); [apply xsum_fin|].
    rewrite <- list_fmap_compose. apply list_fmap_ext. intros i a Ha. cbn.
    symmetry. apply entr_fin. by eapply Forall_lookup_1 in Hnn.
  - intros Hle. apply Rsum_nonneg, Forall_fmap, Forall_forall. intros a Ha.
    apply pixel_entropy_nonneg. split.
    + by eapply Forall_forall in Hnn.
    + by eapply Forall_forall in Hle.
  - intros Hbin. apply Rsum_zero, Forall_fmap.
    eapply Forall_impl; [exact Hbin|]. apply pixel_entropy_binary.
  - intros n Hn ->. rewrite fmap_replicate, Rsum_replicate. unfold pixel_entropy.
    replace (1 / / INR n) with (INR n) by (field; apply not_0_INR; lia).
    field. apply not_0_INR. lia.
Qed.

End distribution.

Lemma entropy_of_distribution_witness :
  entropy (NdArray [4] (Fin <$> replicate 4 (/ INR 4)%R)) (-1) false
  = Some (NdArray [] [Fin (ln (INR 4))]).
Proof.
  assert (Hnn : Forall (λ a, (0 <= a)%R) (replicate 4 (/ INR 4)%R)).
  { apply Forall_replicate. left. apply Rinv_0_lt_compat. apply lt_0_INR. lia. }
  destruct (entropy_of_distribution (replicate 4 (/ INR 4)%R) Hnn)
    as (Hent & _ & _ & _ & Huni).
  rewrite (Huni 4 ltac:(lia) eq_refl) in Hent.
  exact Hent.
Defined.

(** ** The range of the histogram entropy *)

#[local] Instance xle_total_total : Total xle_total.
Proof.
  intros x y. destruct x as [a| | |], y as [b| | |]; simpl; try tauto.
  destruct (Rle_dec a b); [by left|right]. apply Rlt_le. by apply Rnot_le_lt.
Qed.

#[local] Instance xle_total_trans : Transitive xle_total.
Proof.
  intros x y z. destruct x as [a| | |], y as [b| | |], z as [c| | |]; simpl; try tauto.
  apply Rle_trans.
Qed.

#[local] Instance xle_total_antisymm : AntiSymm (=) xle_total.
Proof.
  intros x y. destruct x as [a| | |], y as [b| | |]; simpl; try tauto.
  intros ??. f_equal. by apply Rle_antisym.
Qed.

Lemma count_value_Permutation (v : xreal) (l k : list xreal) :
  l ≡ₚ k → count_value v l = count_value v k.
Proof. intros Hp. unfold count_value. by rewrite Hp. Qed.

(** [unique] sees the values of its input and how often each occurs, not
    where they are. *)
Lemma unique_counts_Permutation (l k : list xreal) :
  l ≡ₚ k → unique_counts l = unique_counts k.
Proof.
  intros Hp. unfold unique_counts. cbn zeta.
  assert (Hn : filter (λ x, x ≠ NaN) l ≡ₚ filter (λ x, x ≠ NaN) k) by (by rewrite Hp).
  f_equal; [|by rewrite (count_value_Permutation _ _ _ Hp)].
  replace (merge_sort xle_total (remove_dups (filter (λ x, x ≠ NaN) k)))
    with (merge_sort xle_total (remove_dups (filter (λ x, x ≠ NaN) l))).
  - apply list_fmap_ext. intros _ v _. by apply count_value_Permutation.
  - apply (Sorted_unique xle_total); [apply Sorted_merge_sort, _..|].
    rewrite !merge_sort_Permutation.
    apply NoDup_Permutation; [apply NoDup_remove_dups..|].
    intros x. rewrite !elem_of_remove_dups. by rewrite Hn.
Qed.

Lemma sum_list_fmap_with {A} (f : A → nat) (l : list A) :
  sum_list (f <$> l) = sum_list_with f l.
Proof. induction l as [|x l IH]; [done|]. cbn. by rewrite IH. Qed.

Lemma sum_indicator (x : xreal) (vs : list xreal) :
  NoDup vs → x ∈ vs →
  sum_list_with (λ v, if decide (x = v) then 1 else 0) vs = 1.
Proof.
  induction 1 as [|v vs Hv Hnd IH]; [by intros ?%elem_of_nil|].
  intros Hx. cbn. destruct (decide (x = v)) as [->|Hne].
  - assert (sum_list_with (λ v0, if decide (v = v0) then 1 else 0) vs = 0) as ->; [|done].
    clear IH Hnd Hx. induction vs as [|u vs IH]; [done|]. cbn.
    apply not_elem_of_cons in Hv as [Hu Hv]. rewrite decide_False by done. by apply IH.
  - apply elem_of_cons in Hx as [?|Hx]; [done|]. by apply IH.
Qed.

Lemma sum_counts (vs l : list xreal) :
  NoDup vs → (∀ x, x ∈ l → x ∈ vs) →
  sum_list_with (λ v, count_value v l) vs = length l.
Proof.
  intros Hnd. induction l as [|x l IH]; intros Hsub.
  - clear Hnd Hsub. cbn [length]. induction vs as [|v vs IH]; [done|].
    cbn [sum_list_with]. rewrite IH. done.
  - assert (Hx : x ∈ vs) by (apply Hsub; by left).
    assert (IH' : sum_list_with (λ v, count_value v l) vs = length l).
    { apply IH. intros y Hy. apply Hsub. by right. }
    cbn [length].
    replace (S (length l))
      with (sum_list_with (λ v, if decide (x = v) then 1 else 0) vs
            + sum_list_with (λ v, count_value v l) vs)
      by (rewrite (sum_indicator x vs Hnd Hx), IH'; done).
    clear. induction vs as [|v vs IHv]; [done|]. cbn [sum_list_with].
    rewrite IHv. unfold count_value at 1. rewrite filter_cons.
    unfold count_value at 2.
    destruct (decide (x = v)); cbn [length]; lia.
Qed.

Lemma unique_counts_sum (l : list xreal) : sum_list (unique_counts l) = length l.
Proof.
  unfold unique_counts. cbn zeta.
  rewrite sum_list_with_app, sum_list_replicate, Nat.mul_1_r.
  rewrite (sum_list_fmap_with (λ v, count_value v _)), merge_sort_Permutation.
  rewrite sum_counts; [|apply NoDup_remove_dups|intros x; by rewrite elem_of_remove_dups].
  unfold count_value. clear. induction l as [|x l IH]; [done|].
  rewrite !filter_cons. destruct (decide (x = NaN)) as [->|Hx].
  - rewrite decide_False by (by intros ?). cbn. lia.
  - rewrite decide_True by done. cbn. lia.
Qed.

Lemma unique_counts_pos (l : list xreal) : Forall (λ n, 1 ≤ n) (unique_counts l).
Proof.
  unfold unique_counts. cbn zeta. apply Forall_app. split.
  - apply Forall_fmap, Forall_forall. intros v Hv. cbn.
    rewrite merge_sort_Permutation, elem_of_remove_dups in Hv.
    unfold count_value.
    assert (Hin : v ∈ filter (λ y, y = v) (filter (λ x, x ≠ NaN) l))
      by (by apply list_elem_of_filter).
    destruct (filter (λ y, y = v) _); [by apply elem_of_nil in Hin|cbn [length]; lia].
  - by apply Forall_replicate.
Qed.

Section range.
Local Open Scope R_scope.

(** The term of a value that occurs [n] times among [N] pixels. *)
Lemma plog2p_count (n N : nat) :
  (1 ≤ n ≤ N)%nat →
  let q := INR n / INR N in
  xmul (xdiv (Fin (INR n)) (Fin (INR N))) (xlog2 (xdiv (Fin (INR n)) (Fin (INR N))))
  = Fin (q * (ln q / ln 2)) ∧
  - (q * (ln (INR N) / ln 2)) <= q * (ln q / ln 2) <= 0.
Proof.
  intros [Hn HN] q.
  assert (HnR : 1 <= INR n) by (change 1 with (INR 1); by apply le_INR).
  assert (HNR : INR n <= INR N) by (by apply le_INR).
  assert (Hq : 0 < q) by (apply Rdiv_lt_0_compat; lra).
  assert (Hq1 : q <= 1).
  { unfold q. apply (Rmult_le_reg_r (INR N)); [lra|].
    replace (INR n / INR N * INR N) with (INR n) by (field; lra). lra. }
  assert (H2 : 0 < ln 2) by (pose proof ln_lt_2; lra).
  assert (Hln : ln q <= 0).
  { destruct Hq1 as [Hlt| ->]; [|rewrite ln_1; lra].
    apply Rlt_le. rewrite <- ln_1. by apply ln_increasing. }
  assert (HlnN : - ln (INR N) <= ln q).
  { rewrite <- ln_Rinv by lra.
    assert (Hle : / INR N <= q).
    { unfold q. unfold Rdiv. rewrite <- (Rmult_1_l (/ INR N)) at 1.
      apply Rmult_le_compat_r; [|done]. apply Rlt_le, Rinv_0_lt_compat. lra. }
    destruct Hle as [Hlt| <-]; [|lra].
    apply Rlt_le, ln_increasing; [|done]. apply Rinv_0_lt_compat. lra. }
  split.
  - rewrite xdiv_fin by lra. fold q. unfold xlog2, xlog.
    rewrite decide_False by lra. rewrite decide_True by done.
    by rewrite xdiv_fin by lra.
  - assert (Hi : 0 < / ln 2) by (by apply Rinv_0_lt_compat).
    unfold Rdiv.
    set (t := ln q * / ln 2). set (u := ln (INR N) * / ln 2).
    assert (Ht : t <= 0).
    { unfold t. rewrite <- (Rmult_0_l (/ ln 2)). apply Rmult_le_compat_r; lra. }
    assert (Hu : - u <= t).
    { unfold t, u. replace (- (ln (INR N) * / ln 2)) with (- ln (INR N) * / ln 2) by lra.
      apply Rmult_le_compat_r; lra. }
    clearbody t u. split; nra.
Qed.

Lemma sample_terms_range (N : nat) (counts : list nat) :
  Forall (λ n, (1 ≤ n ≤ N)%nat) counts →
  ∃ s, xsum ((λ x, xmul x (xlog2 x))
               <$> ((λ n : nat, xdiv (Fin (INR n)) (Fin (INR N))) <$> counts)) = Fin s ∧
       - (INR (sum_list counts) / INR N * (ln (INR N) / ln 2)) <= s <= 0.
Proof.
  induction 1 as [|n counts Hn _ (s & Hs & Hr)].
  - exists 0. split; [done|]. cbn. lra.
  - destruct (plog2p_count n N Hn) as [Heq Hb]. cbn zeta in Heq, Hb.
    exists (INR n / INR N * (ln (INR n / INR N) / ln 2) + s). split.
    + rewrite !fmap_cons. unfold xsum in *. cbn [foldr]. rewrite Hs, Heq. done.
    + change (sum_list (n :: counts)) with (n + sum_list counts)%nat. rewrite plus_INR.
      assert (0 < INR N).
      { apply lt_0_INR. lia. }
      replace ((INR n + INR (sum_list counts)) / INR N * (ln (INR N) / ln 2))
        with (INR n / INR N * (ln (INR N) / ln 2)
              + INR (sum_list counts) / INR N * (ln (INR N) / ln 2)) by (field; split; [pose proof ln_lt_2|]; lra).
      lra.
Qed.

Lemma sample_entropy_range (N : nat) (flat : list xreal) :
  (length flat ≤ N)%nat →
  ∃ r, sample_entropy N flat = Fin r ∧ 0 <= r <= ln (INR N) / ln 2.
Proof.
  intros Hlen. unfold sample_entropy. cbn zeta.
  pose proof (unique_counts_sum flat) as Hsum.
  pose proof (unique_counts_pos flat) as Hpos.
  assert (Hall : Forall (λ n, (1 ≤ n ≤ N)%nat) (unique_counts flat)).
  { apply Forall_forall. intros n Hn. split; [by eapply Forall_forall in Hpos|].
    pose proof (sum_list_with_in n Datatypes.id _ Hn) as Hle.
    change (Datatypes.id n) with n in Hle. lia. }
  destruct (sample_terms_range N _ Hall) as (s & -> & Hlo & Hhi).
  exists (s * -1). split; [done|]. split; [lra|].
  rewrite Hsum in Hlo.
  assert (H2 : 0 < ln 2) by (pose proof ln_lt_2; lra).
  destruct (decide (N = 0)%nat) as [->|HN].
  - destruct flat; [|cbn in Hlen; lia]. cbn in Hlo. 
    replace (0 / 0 * (ln 0 / ln 2)) with 0 in Hlo by (unfold Rdiv; lra).
    cbn. replace (ln 0) with 0; [unfold Rdiv; lra|].
    symmetry. unfold ln.
    destruct (Rlt_dec 0 0) as [Hlt|_]; [exfalso; exact (Rlt_irrefl 0 Hlt)|done].
  - assert (HNR : 1 <= INR N) by (change 1 with (INR 1); apply le_INR; lia).
    assert (HlR : INR (length flat) <= INR N) by (by apply le_INR).
    assert (Hl0 : 0 <= INR (length flat)) by apply pos_INR.
    assert (HlnN : 0 <= ln (INR N)).
    { destruct HNR as [Hlt| <-]; [|rewrite ln_1; lra].
      apply Rlt_le. rewrite <- ln_1. apply ln_increasing; lra. }
    assert (Hfrac : INR (length flat) / INR N <= 1).
    { apply (Rmult_le_reg_r (INR N)); [lra|].
      replace (INR (length flat) / INR N * INR N) with (INR (length flat)) by (field; lra).
      lra. }
    assert (Hfrac0 : 0 <= INR (length flat) / INR N).
    { apply Rmult_le_pos; [done|]. apply Rlt_le, Rinv_0_lt_compat. lra. }
    assert (HL : 0 <= ln (INR N) / ln 2).
    { apply Rmult_le_pos; [done|]. apply Rlt_le, Rinv_0_lt_compat. lra. }
    nra.
Qed.

Lemma xmean_range (l : list xreal) (lo hi : R) :
  l ≠ [] → Forall (λ x, ∃ r, x = Fin r ∧ lo <= r <= hi) l →
  ∃ r, xmean l = Fin r ∧ lo <= r <= hi.
Proof.
  intros Hne Hall.
  assert (∃ rs, l = Fin <$> rs ∧ Forall (λ r, lo <= r <= hi) rs) as (rs & -> & Hrs).
  { clear Hne. induction Hall as [|x l (r & -> & Hr) _ (rs & -> & Hrs)].
    - by exists [].
    - exists (r :: rs). split; [done|]. by constructor. }
  assert (Hne' : rs ≠ []) by (by destruct rs).
  rewrite xmean_fin by done. eexists. split; [done|].
  assert (Hn : 0 < INR (length rs)).
  { apply lt_0_INR. destruct rs; [done|cbn; lia]. }
  assert (Hb : INR (length rs) * lo <= Rsum rs <= INR (length rs) * hi).
  { clear Hne Hne' Hn Hall. induction Hrs as [|r rs Hr _ IH].
    - cbn. lra.
    - cbn [length]. rewrite S_INR. change (Rsum (r :: rs)) with (r + Rsum rs). lra. }
  split.
  - apply (Rmult_le_reg_r (INR (length rs))); [done|].
    replace (Rsum rs / INR (length rs) * INR (length rs)) with (Rsum rs) by (field; lra).
    lra.
  - apply (Rmult_le_reg_r (INR (length rs))); [done|].
    replace (Rsum rs / INR (length rs) * INR (length rs)) with (Rsum rs) by (field; lra).
    lra.
Qed.

(** X14: [entropy_loss] raises on a tensor of fewer than four axes and
    returns NaN on an empty batch; on a batch of at least one sample with
    exactly four axes it returns a number between 0 and the base-2
    logarithm of the number of pixels of a sample, whatever the pixel
    values are, NaN and infinities included. *)
Theorem entropy_loss_range (residual : tensor) :
  (entropy_loss residual = None ↔ (length (shape residual) < 4)%nat) ∧
  (∀ c w h rest, shape residual = 0%nat :: c :: w :: h :: rest →
                 entropy_loss residual = Some NaN) ∧
  (∀ b c w h, shape residual = [S b; c; w; h] →
              ∃ r, entropy_loss residual = Some (Fin r) ∧
                   0 <= r <= ln (INR (c * w * h)) / ln 2).
Proof.
  destruct residual as [sh d]. cbn [shape]. split_and!.
  - unfold entropy_loss. cbn [shape].
    destruct sh as [|b [|c [|w [|h rest]]]]; cbn [length]; split; try done; lia.
  - intros c w h rest ->. unfold entropy_loss. cbn [shape seq fmap list_fmap].
    f_equal. unfold xmean, xsum. cbn [foldr length INR xdiv].
    rewrite decide_True by done. unfold scale_inf. by rewrite decide_True.
  - intros b c w h ->. rewrite entropy_loss_samples.
    destruct (xmean_range
                ((λ i, sample_entropy (c * w * h)
                         (take (c * w * h) (drop (i * (c * w * h)) d))) <$> seq 0 (S b))
                0 (ln (INR (c * w * h)) / ln 2)) as (r & -> & Hr).
    + done.
    + apply Forall_fmap, Forall_forall. intros i _. cbn.
      apply sample_entropy_range. rewrite length_take. lia.
    + by exists r.
Qed.

(** X15: on batches without NaN, [entropy_loss] does not see where the
    pixel values of a sample are: two batches whose samples are
    rearrangements of one another have the same histogram entropy. *)
Theorem entropy_loss_permutation (b c w h : nat) (d d' : list xreal) :
  NaN ∉ d → NaN ∉ d' →
  (∀ i, (i < b)%nat →
        take (c * w * h) (drop (i * (c * w * h)) d)
        ≡ₚ take (c * w * h) (drop (i * (c * w * h)) d')) →
  entropy_loss (NdArray [b; c; w; h] d) = entropy_loss (NdArray [b; c; w; h] d').
Proof.
  intros _ _ Hp. rewrite !entropy_loss_samples. do 2 f_equal.
  apply list_fmap_ext. intros k i [-> Hk]%lookup_seq. change (0 + k)%nat with k.
  unfold sample_entropy. cbn zeta.
  by rewrite (unique_counts_Permutation _ _ (Hp _ Hk)).
Qed.

End range.

Lemma entropy_loss_permutation_witness :
  entropy_loss (NdArray [1; 1; 2; 2] [Fin 0; Fin 1; Fin 1; Fin 1])
  = entropy_loss (NdArray [1; 1; 2; 2] [Fin 1; Fin 0; Fin 1; Fin 1]).
Proof.
  apply (entropy_loss_permutation 1 1 2 2).
  - rewrite !elem_of_cons, elem_of_nil. intros [?|[?|[?|[?|[]]]]]; discriminate.
  - rewrite !elem_of_cons, elem_of_nil. intros [?|[?|[?|[?|[]]]]]; discriminate.
  - intros i Hi. assert (i = 0) as -> by lia. cbn. apply perm_swap.
Defined.

(** ** The entropy of a softmax *)

Section softmax.
Local Open Scope R_scope.

Lemma xmax_fin (a b : R) : xmax (Fin a) (Fin b) = Fin (Rmax a b).
Proof.
  unfold xmax, xltb. case_bool_decide as Hab; f_equal.
  - symmetry. apply Rmax_right. lra.
  - symmetry. apply Rmax_left. lra.
Qed.

Lemma run_max (xs : list R) :
  xs ≠ [] →
  ∃ M, foldr xmax NInf (Fin <$> xs) = Fin M ∧ M ∈ xs ∧ Forall (λ x, x <= M) xs.
Proof.
  induction xs as [|x xs IH]; [done|]. intros _.
  destruct xs as [|y xs].
  - exists x. split; [done|]. split; [by left|]. apply Forall_singleton. lra.
  - destruct IH as (M & HM & Hin & Hle); [done|].
    exists (Rmax x M). rewrite fmap_cons. cbn [foldr]. rewrite HM, xmax_fin.
    split; [done|]. split.
    + destruct (Rle_dec x M) as [Hxm|Hxm].
      * rewrite Rmax_right by done. by right.
      * rewrite Rmax_left by lra. by left.
    + apply Forall_cons. split; [apply Rmax_l|].
      eapply Forall_impl; [exact Hle|]. intros z Hz. cbn in Hz.
      pose proof (Rmax_r x M). lra.
Qed.

Lemma run_max_unique (xs : list R) (M M' : R) :
  M ∈ xs → Forall (λ x, x <= M) xs → M' ∈ xs → Forall (λ x, x <= M') xs → M = M'.
Proof.
  intros Hin Hle Hin' Hle'.
  pose proof (proj1 (Forall_forall _ _) Hle _ Hin').
  pose proof (proj1 (Forall_forall _ _) Hle' _ Hin). cbn in *. lra.
Qed.

Lemma Rsum_pos_elem (l : list R) (x : R) :
  Forall (λ y, 0 < y) l → x ∈ l → x <= Rsum l.
Proof.
  induction 1 as [|y l Hy Hl IH]; [by intros ?%elem_of_nil|].
  assert (0 <= Rsum l).
  { apply Rsum_nonneg. eapply Forall_impl; [exact Hl|]. intros; cbn in *; lra. }
  change (Rsum (y :: l)) with (y + Rsum l).
  intros [->|Hx]%elem_of_cons; [lra|]. specialize (IH Hx). lra.
Qed.

(** The sum of the shifted exponentials of a run with maximum [M]. *)
Lemma shifted_sum_ge_1 (xs : list R) (M : R) :
  M ∈ xs → 1 <= Rsum ((λ y, exp (y + - M)) <$> xs).
Proof.
  intros Hin. apply Rsum_pos_elem.
  - apply Forall_fmap, Forall_forall. intros y _. apply exp_pos.
  - apply list_elem_of_fmap. exists M. split; [|done].
    replace (M + - M) with 0 by lra. by rewrite exp_0.
Qed.

(** The log-probabilities of a vector of logits whose maximum is [M]. *)
Lemma log_softmax_vector (xs : list R) (M : R) :
  M ∈ xs → Forall (λ x, x <= M) xs →
  log_softmax (NdArray [length xs] (Fin <$> xs)) 0
  = NdArray [length xs]
      (Fin <$> ((λ x, x + - M + - ln (Rsum ((λ y, exp (y + - M)) <$> xs))) <$> xs)).
Proof.
  intros Hin Hle. unfold log_softmax.
  cbn [shape data lookup list_lookup default drop numel foldr].
  change (Datatypes.id (length xs)) with (length xs).
  f_equal. apply list_eq. intros j.
  rewrite list_lookup_imap, !list_lookup_fmap.
  destruct (xs !! j) as [x|] eqn:Hx; [|done]. cbn [fmap option_fmap option_map].
  assert (Hj : (j < length xs)%nat) by (by eapply lookup_lt_Some).
  f_equal. cbn zeta.
  rewrite Nat.mul_1_r, (Nat.div_small j) by done. rewrite Nat.mod_1_r.
  replace ((λ k, default (Fin 0) ((Fin <$> xs) !! ((0 * length xs + k) * 1 + 0)%nat))
             <$> seq 0 (length xs))
    with (Fin <$> xs).
  2:{ rewrite <- (seq_lookup_all (Fin 0) (Fin <$> xs)) at 1. rewrite length_fmap.
      apply list_fmap_ext. intros i k _. do 2 f_equal. lia. }
  destruct (run_max xs) as (M0 & -> & Hin0 & Hle0); [by intros ->; apply elem_of_nil in Hin|].
  rewrite (run_max_unique xs M0 M) by done.
  rewrite <- list_fmap_compose.
  replace ((λ y, xexp (xsub y (Fin M))) ∘ Fin <$> xs)
    with (Fin <$> ((λ y, exp (y + - M)) <$> xs))
    by (by rewrite <- list_fmap_compose).
  rewrite xsum_fin.
  pose proof (shifted_sum_ge_1 xs M Hin) as HS.
  unfold xlog. rewrite decide_False by lra. rewrite decide_True by lra. done.
Qed.

Lemma other_entropy_vector_value (xs : list R) (M : R) :
  M ∈ xs → Forall (λ x, x <= M) xs →
  let lsm := λ x, x + - M + - ln (Rsum ((λ y, exp (y + - M)) <$> xs)) in
  amap xexp (log_softmax (NdArray [length xs] (Fin <$> xs)) 0)
  = NdArray [length xs] (Fin <$> ((λ x, exp (lsm x)) <$> xs)) ∧
  other_entropy (NdArray [length xs] (Fin <$> xs))
  = Fin (Rsum ((λ x, pixel_entropy (exp (lsm x))) <$> xs) / INR (length xs)).
Proof.
  intros Hin Hle lsm.
  assert (Hne : xs ≠ []) by (by intros ->; apply elem_of_nil in Hin).
  unfold other_entropy. cbn [shape length]. change (implicit_softmax_dim 1) with 0%nat.
  rewrite (log_softmax_vector xs M Hin Hle). fold lsm.
  unfold amap, tzip, tmean. cbn [shape data]. split.
  { by rewrite <- !list_fmap_compose. }
  replace (zip_with xmul (Fin <$> (lsm <$> xs)) (xexp <$> (Fin <$> (lsm <$> xs))))
    with (Fin <$> ((λ x, lsm x * exp (lsm x)) <$> xs)).
  2:{ generalize lsm. clear. intros f. induction xs as [|x xs IH]; [done|].
      rewrite !fmap_cons. cbn [zip_with xexp xmul]. by rewrite <- IH. }
  rewrite xmean_fin by (by destruct xs).
  cbn [xneg]. rewrite length_fmap. f_equal.
  replace ((λ x, pixel_entropy (exp (lsm x))) <$> xs)
    with (Ropp <$> ((λ x, lsm x * exp (lsm x)) <$> xs)).
  2:{ rewrite <- list_fmap_compose. apply list_fmap_ext. intros i x _. cbn.
      unfold pixel_entropy. replace (1 / exp (lsm x)) with (/ exp (lsm x)) by lra.
      rewrite ln_Rinv by apply exp_pos. rewrite ln_exp. lra. }
  rewrite Rsum_ext_neg. lra.
Qed.

(** The probabilities of a softmax are positive, at most one, and sum
    to one. *)
Lemma softmax_probabilities (xs : list R) (M : R) :
  M ∈ xs → Forall (λ x, x <= M) xs →
  let lsm := λ x, x + - M + - ln (Rsum ((λ y, exp (y + - M)) <$> xs)) in
  Forall (λ p, 0 < p <= 1) ((λ x, exp (lsm x)) <$> xs) ∧
  Rsum ((λ x, exp (lsm x)) <$> xs) = 1.
Proof.
  intros Hin Hle lsm. pose proof (shifted_sum_ge_1 xs M Hin) as HS.
  set (S := Rsum ((λ y, exp (y + - M)) <$> xs)) in *.
  assert (HlnS : 0 <= ln S).
  { destruct HS as [Hlt| <-]; [|rewrite ln_1; lra].
    apply Rlt_le. rewrite <- ln_1. apply ln_increasing; lra. }
  split.
  - apply Forall_fmap, Forall_forall. intros x Hx. cbn.
    split; [apply exp_pos|].
    pose proof (proj1 (Forall_forall _ _) Hle x Hx) as HxM. cbn in HxM.
    rewrite <- exp_0. unfold lsm.
    destruct (Req_dec (x + - M + - ln S) 0) as [->|Hne]; [lra|].
    apply Rlt_le, exp_increasing. lra.
  - assert (Hexp : ∀ x, exp (lsm x) = exp (x + - M) * / S).
    { intros x. unfold lsm. rewrite exp_plus, exp_Ropp, exp_ln by lra. done. }
    replace ((λ x, exp (lsm x)) <$> xs)
      with ((λ e, e * / S) <$> ((λ y, exp (y + - M)) <$> xs)).
    2:{ rewrite <- list_fmap_compose. apply list_fmap_ext. intros i x _. cbn.
        by rewrite Hexp. }
    assert (Hscale : ∀ l, Rsum ((λ e, e * / S) <$> l) = Rsum l * / S).
    { induction l as [|e l IH]; cbn [fmap list_fmap]; [cbn; lra|].
      change (Rsum (e * / S :: ((λ e, e * / S) <$> l)))
        with (e * / S + Rsum ((λ e, e * / S) <$> l)).
      rewrite IH. change (Rsum (e :: l)) with (e + Rsum l). lra. }
    rewrite Hscale. fold S. field. lra.
Qed.

(** X16: on a vector of finite logits [other_entropy] is the entropy of
    the softmax probabilities divided by the number of logits: the
    probabilities are positive, at most one, and sum to one; handed to
    [entropy] they give the sum of [p * ln (1 / p)], and [other_entropy]
    returns the mean of these terms, which is not negative. *)
Theorem other_entropy_of_logits (xs : list R) :
  xs ≠ [] →
  ∃ ps : list R,
    amap xexp (log_softmax (NdArray [length xs] (Fin <$> xs)) 0)
    = NdArray [length xs] (Fin <$> ps) ∧
    length ps = length xs ∧
    Forall (λ p, 0 < p <= 1) ps ∧ Rsum ps = 1 ∧
    entropy (NdArray [length ps] (Fin <$> ps)) (-1) false
    = Some (NdArray [] [Fin (Rsum (pixel_entropy <$> ps))]) ∧
    other_entropy (NdArray [length xs] (Fin <$> xs))
    = Fin (Rsum (pixel_entropy <$> ps) / INR (length xs)) ∧
    0 <= Rsum (pixel_entropy <$> ps) / INR (length xs).
Proof.
  intros Hne. destruct (run_max xs Hne) as (M & _ & Hin & Hle).
  destruct (other_entropy_vector_value xs M Hin Hle) as [Hprobs Hval].
  destruct (softmax_probabilities xs M Hin Hle) as [Hrange Hone].
  cbn zeta in *.
  set (lsm := λ x, x + - M + - ln (Rsum ((λ y, exp (y + - M)) <$> xs))) in *.
  exists ((λ x, exp (lsm x)) <$> xs).
  assert (Hnn : 0 <= Rsum (pixel_entropy <$> ((λ x, exp (lsm x)) <$> xs))).
  { apply Rsum_nonneg, Forall_fmap. eapply Forall_impl; [exact Hrange|].
    intros p Hp. cbn in *. apply pixel_entropy_nonneg. lra. }
  split_and!.
  - done.
  - by rewrite length_fmap.
  - done.
  - done.
  - apply entropy_vector. eapply Forall_impl; [exact Hrange|]. intros p Hp. cbn in *. lra.
  - rewrite Hval. by rewrite <- list_fmap_compose.
  - apply Rmult_le_pos; [done|]. apply Rlt_le, Rinv_0_lt_compat, lt_0_INR.
    destruct xs; [done|cbn; lia].
Qed.

(** X17: [other_entropy] returns NaN on a tensor without elements; on a
    vector of finite logits it does not change when the same number is
    added to every logit, and on [n] equal logits it is [ln n / n]. *)
Theorem other_entropy_shift (xs : list R) (c : R) :
  (∀ sh, other_entropy (NdArray sh []) = NaN) ∧
  other_entropy (NdArray [length xs] (Fin <$> ((λ x, x + c) <$> xs)))
  = other_entropy (NdArray [length xs] (Fin <$> xs)) ∧
  (xs ≠ [] →
   other_entropy (NdArray [length xs] (Fin <$> replicate (length xs) c))
   = Fin (ln (INR (length xs)) / INR (length xs))).
Proof.
  split_and!.
  - intros sh. unfold other_entropy, log_softmax, amap, tzip, tmean, xmean.
    cbn [shape data imap fmap list_fmap zip_with xsum foldr length INR xdiv].
    rewrite decide_True by done. unfold scale_inf. by rewrite decide_True.
  - destruct (decide (xs = [])) as [->|Hne]; [done|].
    destruct (run_max xs Hne) as (M & _ & Hin & Hle).
    assert (Hin' : M + c ∈ (λ x, x + c) <$> xs).
    { apply list_elem_of_fmap. by exists M. }
    assert (Hle' : Forall (λ x, x <= M + c) ((λ x, x + c) <$> xs)).
    { apply Forall_fmap. eapply Forall_impl; [exact Hle|]. intros x Hx. cbn in *. lra. }
    destruct (other_entropy_vector_value xs M Hin Hle) as [_ ->].
    pose proof (other_entropy_vector_value _ (M + c) Hin' Hle') as [_ Hval].
    rewrite length_fmap in Hval. rewrite Hval. cbn zeta. do 2 f_equal.
    rewrite <- !list_fmap_compose. 
    assert (HS : (λ y, exp (y + - (M + c))) ∘ (λ x, x + c) <$> xs
                 = (λ y, exp (y + - M)) <$> xs).
    { apply list_fmap_ext. intros i x _. cbn. f_equal. lra. }
    rewrite HS. f_equal. apply list_fmap_ext. intros i x _. cbn. do 2 f_equal. lra.
  - intros Hne. set (n := length xs).
    assert (Hn : (0 < n)%nat) by (unfold n; destruct xs; [done|cbn; lia]).
    assert (Hin : c ∈ replicate n c) by (apply elem_of_replicate; split; [done|lia]).
    assert (Hle : Forall (λ x, x <= c) (replicate n c)) by (apply Forall_replicate; lra).
    pose proof (other_entropy_vector_value _ c Hin Hle) as [_ Hval].
    rewrite length_replicate in Hval. rewrite Hval. cbn zeta. f_equal.
    rewrite !fmap_replicate, !Rsum_replicate.
    replace (c + - c) with 0 by lra. rewrite exp_0, Rmult_1_r.
    assert (HnR : 0 < INR n) by (by apply lt_0_INR).
    replace (0 + - ln (INR n)) with (- ln (INR n)) by lra.
    unfold pixel_entropy. rewrite exp_Ropp, exp_ln by done.
    replace (1 / / INR n) with (INR n) by (field; lra).
    f_equal. field. lra.
Qed.

End softmax.

Lemma other_entropy_of_logits_witness :
  ∃ ps : list R,
    amap xexp (log_softmax (NdArray [2] [Fin 0; Fin 1]) 0) = NdArray [2] (Fin <$> ps) ∧
    Rsum ps = 1%R ∧
    other_entropy (NdArray [2] [Fin 0; Fin 1])
    = Fin (Rsum (pixel_entropy <$> ps) / INR 2).
Proof.
  destruct (other_entropy_of_logits [0%R; 1%R] ltac:(discriminate))
    as (ps & Hp & _ & _ & Hone & _ & Hval & _).
  exists ps. split; [exact Hp|]. split; [exact Hone|exact Hval].
Defined.

(** ** The reference mask of an image of any number of axes *)

(** X18: the mask is taken along the last axis of the decoded image,
    whatever the number of axes: it has the shape of the image without
    that axis, so for a grayscale image of [h] rows and [w] columns it has
    one element per row, not per pixel.  On pixel values that are not
    negative an element is 0.0 exactly when every value of its group is
    zero.  An image without axes makes the constructor raise. *)
Theorem reference_mask_last_axis `{Collab} (fs : filesystem) (name : string)
    (content : file) (img : image_array) :
  fs !! name = Some content → imread_decode content = Some img →
  (shape img = [] → load_reference fs (Some name) = None) ∧
  (∀ init c, shape img = init ++ [c] → well_shaped img → 0 < c →
     ∃ mask : tensor,
       load_reference fs (Some name) = Some mask ∧
       shape mask = init ∧ well_shaped mask ∧
       ∀ o, o < numel init →
            let group := take c (drop (o * c) (data img)) in
            length group = c ∧
            (Forall (λ z, (0 ≤ z)%Z) group →
             data mask !! o
             = Some (if decide (Forall (λ z, z = 0%Z) group) then Fin 0 else Fin 1))).
Proof.
  intros Hfs Hdec. split.
  { intros Hsh. unfold load_reference. cbn [mbind option_bind]. rewrite Hfs.
    cbn [mbind option_bind]. rewrite Hdec. cbn [mbind option_bind].
    unfold max_last. by rewrite Hsh. }
  intros init c Hsh Hws Hc.
  destruct (max_last_groups img init c Hsh Hws Hc) as (ms & Hmax & Hlen & Hgroup).
  exists (nonzero_mask (NdArray init ms)).
  split_and!.
  - unfold load_reference. cbn [mbind option_bind]. rewrite Hfs.
    cbn [mbind option_bind]. rewrite Hdec. cbn [mbind option_bind]. by rewrite Hmax.
  - done.
  - unfold well_shaped, nonzero_mask, amap. cbn [shape data]. by rewrite !length_fmap.
  - intros o Ho group. destruct (Hgroup o Ho) as (Hg & mx & Hmx & Hlk).
    split; [done|]. intros Hnn.
    destruct (list_max_spec _ _ Hmx) as [Hin Hle]. fold group in Hin, Hle.
    unfold nonzero_mask, amap. cbn [shape data]. rewrite <- list_fmap_compose.
    rewrite list_lookup_fmap, Hlk. cbn. f_equal.
    destruct (decide (Forall (λ z, z = 0%Z) group)) as [Hz|Hnz].
    + rewrite bool_decide_eq_false_2; [done|]. intros Hne. apply Hne.
      by eapply Forall_forall in Hz.
    + rewrite bool_decide_eq_true_2; [done|]. intros ->. apply Hnz.
      apply Forall_forall. intros z Hz.
      pose proof (proj1 (Forall_forall _ _) Hnn z Hz).
      pose proof (proj1 (Forall_forall _ _) Hle z Hz). cbn in *. lia.
Qed.

Lemma reference_mask_last_axis_witness :
  ∃ mask : tensor,
    @load_reference gray_collab sample_files (Some "ref.png") = Some mask ∧
    shape mask = [2] ∧ data mask !! 0 = Some (Fin 0) ∧ data mask !! 1 = Some (Fin 1).
Proof.
  destruct (proj2 (@reference_mask_last_axis gray_collab sample_files "ref.png" "image"
                     (NdArray [2; 2] [0; 0; 0; 7]%Z) eq_refl eq_refl)
                  [2] 2 eq_refl eq_refl ltac:(lia))
    as (mask & Hload & Hshape & _ & Hpix).
  exists mask. split; [exact Hload|]. split; [exact Hshape|]. split.
  - destruct (Hpix 0 ltac:(cbn; lia)) as [_ Hlk]. rewrite Hlk.
    + rewrite decide_True; [done|]. by repeat constructor.
    + by repeat constructor.
  - destruct (Hpix 1 ltac:(cbn; lia)) as [_ Hlk]. rewrite Hlk.
    + rewrite decide_False; [done|]. intros Hz. cbn in Hz.
      apply Forall_cons in Hz as [_ Hz]. apply Forall_cons in Hz as [Hz _]. done.
    + cbn. repeat constructor; lia.
Defined.
